(** * Documentation-symbol inventory engine of monty (monty/exts/info/docs/_cog.py)

    A shallow embedding of [DocCog]: the symbol table builder with its
    disambiguator, the per-source retry controller, symbol lookup and the
    boosting pass of fuzzy autocompletion.

    Conventions of the embedding.
    - Python [str] is [string]; [str.lower] is modelled on ASCII letters.
    - A [DocItem] is a mutable object that several dictionary slots and
      [attributes] lists may reference at once, so the objects live in a
      store ([objects], indexed by allocation order) and the tables hold
      references into it.
    - [doc_symbols_new] is an insertion-ordered dict of dicts.  The outer
      level is an association list (its order is the lookup order of the
      [ChainMap]), the inner level a [gmap].
    - A computation that returns [None] stands for a Python exception
      ([KeyError], [IndexError]) leaving the method. *)

From Stdlib Require Import Ascii String QArith.
From stdpp Require Import gmap strings list fin_maps pretty sorting.

Open Scope string_scope.
Open Scope list_scope.
Open Scope stdpp_scope.

(** ** Python string methods used by the cog *)

Module PyStr.

(** [s.partition(c)] for a one-character separator: the text before the
    first [c] and the text after it; [None] when [c] does not occur (Python
    then returns [(s, "", "")], see [partition]). *)
Fixpoint find_first (c : ascii) (s : string) : option (string * string) :=
  match s with
  | EmptyString => None
  | String a s' =>
      if Ascii.eqb a c then Some (EmptyString, s')
      else match find_first c s' with
           | Some (b, r) => Some (String a b, r)
           | None => None
           end
  end.

(** The same for the last occurrence ([str.rpartition]). *)
Fixpoint find_last (c : ascii) (s : string) : option (string * string) :=
  match s with
  | EmptyString => None
  | String a s' =>
      match find_last c s' with
      | Some (b, r) => Some (String a b, r)
      | None => if Ascii.eqb a c then Some (EmptyString, s') else None
      end
  end.

(** [s.partition(c)], without the separator component. *)
Definition partition (c : ascii) (s : string) : string * string :=
  match find_first c s with
  | Some p => p
  | None => (s, EmptyString)
  end.

(** [s.split(c)]: always a non-empty list. *)
Fixpoint split (c : ascii) (s : string) : list string :=
  match s with
  | EmptyString => [EmptyString]
  | String a s' =>
      if Ascii.eqb a c then EmptyString :: split c s'
      else match split c s' with
           | h :: t => String a h :: t
           | [] => [String a EmptyString]
           end
  end.

(** [s.split(c, maxsplit=1)[0]]. *)
Definition split1_head (c : ascii) (s : string) : string :=
  match find_first c s with
  | Some (b, _) => b
  | None => s
  end.

(** [s.rsplit(c, 1)[0]]. *)
Definition rsplit1_head (c : ascii) (s : string) : string :=
  match find_last c s with
  | Some (b, _) => b
  | None => s
  end.

(** [c in s] for a one-character [c]. *)
Fixpoint contains_char (c : ascii) (s : string) : bool :=
  match s with
  | EmptyString => false
  | String a s' => Ascii.eqb a c || contains_char c s'
  end.

(** [s.startswith(p)]. *)
Fixpoint startswith (p s : string) : bool :=
  match p, s with
  | EmptyString, _ => true
  | String a p', String b s' => Ascii.eqb a b && startswith p' s'
  | String _ _, EmptyString => false
  end.

(** [p in s] for strings. *)
Fixpoint contains (p s : string) : bool :=
  startswith p s ||
  match s with
  | EmptyString => false
  | String _ s' => contains p s'
  end.

Definition lower_ascii (a : ascii) : ascii :=
  let n := nat_of_ascii a in
  if (65 <=? n)%nat && (n <=? 90)%nat then ascii_of_nat (n + 32) else a.

(** [s.lower()], on ASCII letters. *)
Fixpoint lower (s : string) : string :=
  match s with
  | EmptyString => EmptyString
  | String a s' => String (lower_ascii a) (lower s')
  end.

(** [s.removesuffix(c)] for a one-character suffix. *)
Fixpoint removesuffix_char (c : ascii) (s : string) : string :=
  match s with
  | EmptyString => EmptyString
  | String a EmptyString => if Ascii.eqb a c then EmptyString else s
  | String a s' => String a (removesuffix_char c s')
  end.

End PyStr.

(** ** Insertion-ordered dictionaries *)

Module PyDict.
Section dict.
Context {V : Type}.

(** [d.get(k)]. *)
Fixpoint get (d : list (string * V)) (k : string) : option V :=
  match d with
  | [] => None
  | (k', v) :: d' => if decide (k' = k) then Some v else get d' k
  end.

(** [d[k] = v]: an existing key keeps its position, a new key goes last. *)
Fixpoint set (d : list (string * V)) (k : string) (v : V) : list (string * V) :=
  match d with
  | [] => [(k, v)]
  | (k', v') :: d' =>
      if decide (k' = k) then (k, v) :: d' else (k', v') :: set d' k v
  end.

(** [d.values()]. *)
Definition values (d : list (string * V)) : list V := snd <$> d.

(** [d.keys()]. *)
Definition keys (d : list (string * V)) : list string := fst <$> d.
End dict.
End PyDict.

(** ** Data model *)

(** A reference to a [DocItem] object: its index in the object store. *)
Abbreviation ref := nat (only parsing).

(** [class DocItem]. [attributes] holds references: the list is shared by
    every slot that refers to the object. *)
Record DocItem := mkDocItem {
  package : string;
  group : string;
  base_url : string;
  relative_url_path : string;
  symbol_id : string;
  symbol_name : string;
  attributes : list ref
}.

(** [DocItem.url]. *)
Definition url (d : DocItem) : string := base_url d +:+ relative_url_path d.

(** [InventoryDict]: group key ("py:class") to its (name, relative url) pairs. *)
Definition InventoryDict := list (string * list (string * string)).

(** [FORCE_PREFIX_GROUPS]. *)
Definition FORCE_PREFIX_GROUPS : list string :=
  ["term"; "label"; "token"; "doc"; "pdbcommand"; "2to3fixer"].

(** [FETCH_RESCHEDULE_DELAY], in minutes. *)
Definition FETCH_RESCHEDULE_DELAY_first : Z := 2.
Definition FETCH_RESCHEDULE_DELAY_repeated : Z := 5.

(** [tuple.index(x)]: the first position of [x] ([None]: ValueError). *)
Fixpoint index (l : list string) (x : string) : option nat :=
  match l with
  | [] => None
  | y :: l' => if decide (y = x) then Some 0%nat else S <$> index l' x
  end.

(** Log records written through [log]. *)
Inductive LogLevel := TRACE | DEBUG | INFO | WARNING.
Definition LogRecord : Type := LogLevel * string.

(** Modelled from the spec: a task of [monty.utils.scheduling.Scheduler],
    a class that is not part of the sources at hand.  The spec has
    per-source retry timers that are independent cancellable tasks keyed by
    the source; a task is the coroutine to run and the delay after which
    it runs.  [task_serial] tells apart two tasks registered one after the
    other under one id. *)
Record Task := mkTask {
  task_serial : nat;
  task_delay : Z;
  task_args : string * string * string
}.

(** Modelled from the spec: the [Scheduler], as the tasks it holds by id. *)
Record Scheduler := mkScheduler {
  scheduled_tasks : gmap string Task;
  next_serial : nat
}.

(** The state of the cog that the modelled methods read and write, with the
    module-level [BLACKLIST] and the object store. *)
Record DocCog := mkDocCog {
  base_urls : gmap string string;
  doc_symbols_new : list (string * gmap string ref);
  renamed_symbols : gmap string (list string);
  objects : list DocItem;
  BLACKLIST : gmap Z (gset string);
  inventory_scheduler : Scheduler;
  log : list LogRecord
}.

Definition empty_scheduler : Scheduler := mkScheduler ∅ 0.

(** The cog as [__init__] leaves it. *)
Definition init : DocCog := mkDocCog ∅ [] ∅ [] ∅ empty_scheduler [].

Definition with_base_urls (f : gmap string string → gmap string string) (s : DocCog) : DocCog :=
  mkDocCog (f (base_urls s)) (doc_symbols_new s) (renamed_symbols s) (objects s)
           (BLACKLIST s) (inventory_scheduler s) (log s).

Definition with_doc_symbols_new
    (f : list (string * gmap string ref) → list (string * gmap string ref)) (s : DocCog) : DocCog :=
  mkDocCog (base_urls s) (f (doc_symbols_new s)) (renamed_symbols s) (objects s)
           (BLACKLIST s) (inventory_scheduler s) (log s).

Definition with_renamed_symbols
    (f : gmap string (list string) → gmap string (list string)) (s : DocCog) : DocCog :=
  mkDocCog (base_urls s) (doc_symbols_new s) (f (renamed_symbols s)) (objects s)
           (BLACKLIST s) (inventory_scheduler s) (log s).

Definition with_objects (f : list DocItem → list DocItem) (s : DocCog) : DocCog :=
  mkDocCog (base_urls s) (doc_symbols_new s) (renamed_symbols s) (f (objects s))
           (BLACKLIST s) (inventory_scheduler s) (log s).

Definition with_BLACKLIST (f : gmap Z (gset string) → gmap Z (gset string)) (s : DocCog) : DocCog :=
  mkDocCog (base_urls s) (doc_symbols_new s) (renamed_symbols s) (objects s)
           (f (BLACKLIST s)) (inventory_scheduler s) (log s).

Definition with_inventory_scheduler (f : Scheduler → Scheduler) (s : DocCog) : DocCog :=
  mkDocCog (base_urls s) (doc_symbols_new s) (renamed_symbols s) (objects s)
           (BLACKLIST s) (f (inventory_scheduler s)) (log s).

(** [log.<level>(msg)]. *)
Definition log_msg (lvl : LogLevel) (msg : string) (s : DocCog) : DocCog :=
  mkDocCog (base_urls s) (doc_symbols_new s) (renamed_symbols s) (objects s)
           (BLACKLIST s) (inventory_scheduler s) (log s ++ [(lvl, msg)]).

(** ** The flattened view *)

(** [get] on a [ChainMap] of [maps]: the first map that has the key answers. *)
Fixpoint chain_get (maps : list (gmap string ref)) (k : string) : option ref :=
  match maps with
  | [] => None
  | m :: maps' =>
      match m !! k with
      | Some r => Some r
      | None => chain_get maps' k
      end
  end.

(** [DocCog.doc_symbols_all]: every per-package table, in registration order. *)
Definition doc_symbols_all (s : DocCog) : list (gmap string ref) :=
  PyDict.values (doc_symbols_new s).

(** [name in self.doc_symbols_all]. *)
Definition in_doc_symbols_all (s : DocCog) (name : string) : bool :=
  bool_decide (is_Some (chain_get (doc_symbols_all s) name)).

(** The entries that produce [name] in the flattened view: one per package
    table that has the key, with the package it is stored under. *)
Definition producers (s : DocCog) (name : string) : list (string * ref) :=
  omap (λ '(pkg, tbl), (λ r, (pkg, r)) <$> (tbl : gmap string ref) !! name)
       (doc_symbols_new s).

(** ** Symbol table builder *)

Section builder.
(** [PRIORITY_PACKAGES] comes from the package's [__init__], which is
    not among the sources: the builder is parametric in it. *)
Variable PRIORITY_PACKAGES : list string.

(** [self.renamed_symbols[symbol_name].append(new_name)] on a
    [defaultdict(list)]. *)
Definition ledger_append (symbol_name new_name : string) (s : DocCog) : DocCog :=
  with_renamed_symbols
    (λ m, <[symbol_name := default [] (m !! symbol_name) ++ [new_name]]> m) s.

(** The local function [rename] of [ensure_unique_symbol_name]; [item] is
    the conflicting object found by the caller. *)
Definition rename (package_name group_name symbol_name : string) (item : DocItem)
    (prefix : string) (rename_extant : bool) (s : DocCog) : option (string * DocCog) :=
  let new_name := prefix +:+ "." +:+ symbol_name in
  let new_name :=
    if in_doc_symbols_all s new_name then
      if rename_extant
      then package item +:+ "." +:+ group item +:+ "." +:+ symbol_name
      else package_name +:+ "." +:+ group_name +:+ "." +:+ symbol_name
    else new_name in
  let s := ledger_append symbol_name new_name s in
  if rename_extant then
    conflicting_symbol ← chain_get (doc_symbols_all s) symbol_name;
    conflicting ← objects s !! conflicting_symbol;
    tbl ← PyDict.get (doc_symbols_new s) (package conflicting);
    Some (symbol_name,
          with_doc_symbols_new
            (λ d, PyDict.set d (package conflicting) (<[new_name := conflicting_symbol]> tbl)) s)
  else Some (new_name, s).

(** [DocCog.ensure_unique_symbol_name]. *)
Definition ensure_unique_symbol_name (package_name group_name symbol_name : string)
    (s : DocCog) : option (string * DocCog) :=
  match chain_get (doc_symbols_all s) symbol_name with
  | None => Some (symbol_name, s)
  | Some r =>
      item ← objects s !! r;
      if negb (bool_decide (package_name = package item)) then
        if bool_decide (package_name ∈ PRIORITY_PACKAGES)
        then rename package_name group_name symbol_name item (package item) true s
        else rename package_name group_name symbol_name item package_name false s
      else if bool_decide (group_name ∈ FORCE_PREFIX_GROUPS) then
        needs_moving ←
          (if bool_decide (group item ∈ FORCE_PREFIX_GROUPS) then
             i ← index FORCE_PREFIX_GROUPS group_name;
             j ← index FORCE_PREFIX_GROUPS (group item);
             Some (bool_decide (i < j)%nat)
           else Some false);
        rename package_name group_name symbol_name item
               (if needs_moving : bool then group item else group_name) needs_moving s
      else rename package_name group_name symbol_name item (group item) true s
  end.

(** [BLACKLIST[guild_id].add(symbol_name)] for every guild of
    [blacklist_guilds], creating the missing sets. *)
Definition blacklist_add (blacklist_guilds : list Z) (symbol_name : string)
    (bl : gmap Z (gset string)) : gmap Z (gset string) :=
  foldl (λ bl guild_id, <[guild_id := default ∅ (bl !! guild_id) ∪ {[symbol_name]}]> bl)
        bl blacklist_guilds.

(** [parent.attributes.append(doc_item)] on the object behind [parent]. *)
Definition attributes_append (parent child : ref) (objs : list DocItem) : list DocItem :=
  match objs !! parent with
  | Some p =>
      <[parent := mkDocItem (package p) (group p) (base_url p) (relative_url_path p)
                            (symbol_id p) (symbol_name p) (attributes p ++ [child])]> objs
  | None => objs
  end.

(** One turn of the inner loop of [update_single]. *)
Definition update_symbol (package_name base_url group : string)
    (blacklist_guilds : list Z) (entry : string * string) (s : DocCog) : option DocCog :=
  let '(symbol_name, relative_doc_url) := entry in
  group_name ← PyStr.split ":" group !! 1%nat;
  '(symbol_name, s) ← ensure_unique_symbol_name package_name group_name symbol_name s;
  let '(relative_url_path, symbol_id) := PyStr.partition "#" relative_doc_url in
  let doc_item := length (objects s) in
  let s := with_objects
             (λ o, o ++ [mkDocItem package_name group_name base_url relative_url_path
                                   symbol_id symbol_name []]) s in
  let s := with_doc_symbols_new
             (λ d, PyDict.set d package_name
                     (<[symbol_name := doc_item]> (default ∅ (PyDict.get d package_name)))) s in
  let s := with_BLACKLIST (blacklist_add blacklist_guilds symbol_name) s in
  tbl ← PyDict.get (doc_symbols_new s) package_name;
  match tbl !! PyStr.rsplit1_head "." symbol_name with
  | Some parent =>
      p ← objects s !! parent;
      if bool_decide (package p = package_name)
      then Some (with_objects (attributes_append parent doc_item) s)
      else Some s
  | None => Some s
  end.

(** Left-to-right iteration of a loop body that may raise. *)
Fixpoint for_each {A : Type} (body : A → DocCog → option DocCog) (l : list A)
    (s : DocCog) : option DocCog :=
  match l with
  | [] => Some s
  | x :: l' => s' ← body x s; for_each body l' s'
  end.

(** [DocCog.update_single]. The hand-over of each new item to the batch
    parser ([item_fetcher.add_item]) touches no state modelled here. *)
Definition update_single (package_name base_url : string) (inventory : InventoryDict)
    (blacklist_guilds : list Z) (s : DocCog) : option DocCog :=
  let s := with_base_urls (λ m, <[package_name := base_url]> m) s in
  s ← for_each
        (λ '(group, items), for_each (update_symbol package_name base_url group blacklist_guilds) items)
        inventory s;
  Some (log_msg TRACE ("Fetched inventory for " +:+ package_name +:+ ".") s).

End builder.

(** ** Retry controller *)

(** Modelled from the spec: [task_id in scheduler], true while a task is
    registered under the id. *)
Definition scheduler_contains (task_id : string) (sch : Scheduler) : bool :=
  bool_decide (is_Some (scheduled_tasks sch !! task_id)).

(** Modelled from the spec: [scheduler.cancel(task_id)] drops the task. *)
Definition scheduler_cancel (task_id : string) (sch : Scheduler) : Scheduler :=
  mkScheduler (delete task_id (scheduled_tasks sch)) (next_serial sch).

(** Modelled from the spec: [scheduler.cancel_all()] drops every task. *)
Definition scheduler_cancel_all (sch : Scheduler) : Scheduler :=
  mkScheduler ∅ (next_serial sch).

(** Modelled from the spec: [scheduler.schedule_later(delay, task_id,
    coroutine)] registers a new task under the id; the coroutine is a call
    of [update_or_reschedule_inventory] on [args]. *)
Definition schedule_later (delay : Z) (task_id : string) (args : string * string * string)
    (sch : Scheduler) : Scheduler :=
  mkScheduler (<[task_id := mkTask (next_serial sch) delay args]> (scheduled_tasks sch))
              (S (next_serial sch)).

(** What awaiting [fetch_inventory(inventory_url)] gives: it raises
    [InvalidHeaderError] with a reason, or returns an inventory that may be
    missing or empty. *)
Inductive FetchOutcome :=
  | FetchInvalidHeader (e : string)
  | FetchReturned (package : option InventoryDict).

(** [not package]. *)
Definition falsy (package : option InventoryDict) : bool :=
  match package with
  | None | Some [] => true
  | Some (_ :: _) => false
  end.

(** [DocCog.base_url_from_inventory_url]. *)
Definition base_url_from_inventory_url (inventory_url : string) : string :=
  PyStr.rsplit1_head "/" (PyStr.removesuffix_char "/" inventory_url) +:+ "/".

Section cog.
Variable PRIORITY_PACKAGES : list string.
(** [constants.Guilds.disnake] and [constants.Guilds.nextcord], two
    guild ids defined outside the sources at hand. *)
Variables Guilds_disnake Guilds_nextcord : Z.

(** [BLACKLIST_MAPPING], as its [items()]. *)
Definition BLACKLIST_MAPPING : list (Z * list string) :=
  [(Guilds_disnake, ["nextcord"]); (Guilds_nextcord, ["disnake"; "dislash"])].

(** [DocCog.update_or_reschedule_inventory], given what the fetch gave. *)
Definition update_or_reschedule_inventory (api_package_name base_url inventory_url : string)
    (fetched : FetchOutcome) (s : DocCog) : option DocCog :=
  match fetched with
  | FetchInvalidHeader e =>
      Some (log_msg WARNING
              ("Invalid inventory header at " +:+ inventory_url +:+ ". Reason: " +:+ e) s)
  | FetchReturned package =>
      if falsy package then
        let '(s, delay) :=
          if scheduler_contains api_package_name (inventory_scheduler s)
          then (with_inventory_scheduler (scheduler_cancel api_package_name) s,
                FETCH_RESCHEDULE_DELAY_repeated)
          else (s, FETCH_RESCHEDULE_DELAY_first) in
        let s := log_msg INFO
                   ("Failed to fetch inventory; attempting again in " +:+ pretty delay
                    +:+ " minutes.") s in
        Some (with_inventory_scheduler
                (schedule_later (delay * 60) api_package_name
                                (api_package_name, base_url, inventory_url)) s)
      else
        let base_url :=
          if bool_decide (base_url = "") then base_url_from_inventory_url inventory_url
          else base_url in
        let blacklist_guilds :=
          omap (λ '(g, packs), if bool_decide (api_package_name ∈ (packs : list string))
                               then Some g else None) BLACKLIST_MAPPING in
        update_single PRIORITY_PACKAGES api_package_name base_url (default [] package)
                      blacklist_guilds s
  end.

(** Modelled from the spec: what the absent [Scheduler] does when the
    timer of [task_id] expires.  The spec has the first retry of a source
    wait the short delay and every later one the long delay, which
    [update_or_reschedule_inventory] tells apart by the membership test:
    the task's coroutine runs while the task is still registered under its
    id.  When the coroutine is done the task is dropped, unless a newer
    task has taken the id in the meantime.  Without a pending timer for
    [task_id] there is no such step. *)
Definition run_scheduled (task_id : string) (fetched : FetchOutcome) (s : DocCog)
    : option DocCog :=
  t ← scheduled_tasks (inventory_scheduler s) !! task_id;
  let '(api_package_name, base_url, inventory_url) := task_args t in
  s ← update_or_reschedule_inventory api_package_name base_url inventory_url fetched s;
  match scheduled_tasks (inventory_scheduler s) !! task_id with
  | Some t' =>
      if bool_decide (task_serial t' = task_serial t)
      then Some (with_inventory_scheduler (scheduler_cancel task_id) s)
      else Some s
  | None => Some s
  end.

(** The retries of one source: each expiry of its timer meets the next
    fetch outcome of the list. *)
Definition run_retries (task_id : string) (outcomes : list FetchOutcome) (s : DocCog)
    : option DocCog :=
  for_each (run_scheduled task_id) outcomes s.

(** The delay, in seconds, of the retry now pending for [task_id]. *)
Definition pending_delay (task_id : string) (s : DocCog) : option Z :=
  task_delay <$> scheduled_tasks (inventory_scheduler s) !! task_id.

(** [asyncio.gather] over one [update_or_reschedule_inventory] per
    configured package.  Each of these coroutines suspends once, at its
    fetch, and runs to its end when the fetch completes, so [packages]
    lists them in the order in which their fetches complete, each with
    what its fetch gave.  An exception that leaves one of them leaves the
    gather. *)
Definition gather (packages : list (string * string * string * FetchOutcome))
    (s : DocCog) : option DocCog :=
  for_each
    (λ '(package, base_url, inventory_url, fetched),
       update_or_reschedule_inventory package base_url inventory_url fetched)
    packages s.

(** The table side of [DocCog.refresh_inventories]: the retry timers are
    cancelled, the registry, the tables and the ledger are cleared, and
    the packages are fetched and merged.  The two events of the gate and
    the whitelist refresh are outside this model. *)
Definition refresh_inventories
    (packages : list (string * string * string * FetchOutcome)) (s : DocCog) : option DocCog :=
  let s := log_msg DEBUG "Refreshing documentation inventory..." s in
  let s := with_inventory_scheduler scheduler_cancel_all s in
  let s := with_base_urls (λ _, ∅) s in
  let s := with_doc_symbols_new (λ _, []) s in
  let s := with_renamed_symbols (λ _, ∅) s in
  s ← gather packages s;
  Some (log_msg DEBUG "Finished inventory refresh." s).

End cog.

(** ** Lookup *)

(** The name has a space in it. *)
Definition has_space (name : string) : Prop :=
  ∃ word rest, name = word +:+ " " +:+ rest.

(** [DocCog.get_symbol_item]. *)
Definition get_symbol_item (symbol_name : string) (s : DocCog) : string * option ref :=
  let doc_item := chain_get (doc_symbols_all s) symbol_name in
  if bool_decide (doc_item = None) && PyStr.contains_char " " symbol_name then
    let symbol_name := PyStr.split1_head " " symbol_name in
    (symbol_name, chain_get (doc_symbols_all s) symbol_name)
  else (symbol_name, doc_item).

(** ** Fuzzy autocompletion: the pass over the scores *)

Module Autocomplete.

(** A score of [rapidfuzz]: a float between 0 and 100, taken as the
    rational it denotes. *)
Definition Score := Q.

(** The loop that fills [tweak] in [_docs_autocomplete]; [query] is the
    stripped query and [fuzzed] the (name, score, index) triples that
    [rapidfuzz.process.extract] returned. *)
Definition tweak_of (query : string) (fuzzed : list (string * Score * nat))
    : list (string * Score) :=
  let lower_query := PyStr.lower query in
  (λ '(name, score, _),
     let lower := PyStr.lower name in
     let score := if bool_decide (lower = query) then (score + 50)%Q else score in
     let score := if PyStr.contains lower_query lower then (score + 20)%Q else score in
     (name, score)) <$> fuzzed.

(** [sorted(tweak, key=lambda v: v[1], reverse=True)]: a stable sort by
    descending score, as an insertion sort. *)
Fixpoint insert_desc (x : string * Score) (l : list (string * Score)) : list (string * Score) :=
  match l with
  | [] => [x]
  | y :: l' => if Qle_bool (snd y) (snd x) then x :: l else y :: insert_desc x l'
  end.

Definition sorted_desc (l : list (string * Score)) : list (string * Score) :=
  foldr insert_desc [] l.

(** The final loop: names are taken until the first score under the
    threshold. *)
Fixpoint take_until_below (threshold : Z) (tweak : list (string * Score)) : list string :=
  match tweak with
  | [] => []
  | (name, score) :: tweak' =>
      if negb (Qle_bool (inject_Z threshold) score) then []
      else name :: take_until_below threshold tweak'
  end.

(** Lines 759-781 of [_docs_autocomplete]. *)
Definition results (query : string) (fuzzed : list (string * Score * nat))
    (threshold : Z) (include_query : bool) : list string :=
  let tweak := sorted_desc (tweak_of query fuzzed) in
  (if include_query then [query] else []) ++ take_until_below threshold tweak.

End Autocomplete.

(** ** Vocabulary of the properties *)

(** The object that the flattened view holds under [name]. *)
Definition resolve (s : DocCog) (name : string) : option DocItem :=
  chain_get (doc_symbols_all s) name ≫= λ r, objects s !! r.

(** The ledger's list for a name ([defaultdict]: empty when absent). *)
Definition ledger (s : DocCog) (name : string) : list string :=
  default [] (renamed_symbols s !! name).

(** The table of one package (empty when the package has none). *)
Definition table (s : DocCog) (package_name : string) : gmap string ref :=
  default ∅ (PyDict.get (doc_symbols_new s) package_name).

(** The name is in the flattened view. *)
Definition in_view (s : DocCog) (name : string) : Prop :=
  is_Some (chain_get (doc_symbols_all s) name).

(** The alternate name for [symbol_name]: [prefix] before the name, or the
    fully qualified name of the renamed entry when the flattened view
    already has the prefixed name. *)
Definition alternate_name (s : DocCog) (prefix package_name group_name symbol_name : string)
    : string :=
  if in_doc_symbols_all s (prefix +:+ "." +:+ symbol_name)
  then package_name +:+ "." +:+ group_name +:+ "." +:+ symbol_name
  else prefix +:+ "." +:+ symbol_name.

(** The tables are those of a Python dict of dicts built by the cog: one
    table per package, holding live objects of that package. *)
Definition wf (s : DocCog) : Prop :=
  NoDup (PyDict.keys (doc_symbols_new s)) ∧
  ∀ pkg tbl name r,
    (pkg, tbl) ∈ doc_symbols_new s → (tbl : gmap string ref) !! name = Some r →
    ∃ item, objects s !! r = Some item ∧ package item = pkg.

(** Every group key of the inventory has the form [domain:role], so that
    [group.split(":")[1]] exists. *)
Definition well_keyed (inventory : InventoryDict) : Prop :=
  Forall (λ gi, is_Some (PyStr.split ":" gi.1 !! 1%nat)) inventory.

(** The (group key, entry) pairs of an inventory, in the order in which
    the two loops of [update_single] visit them. *)
Definition inventory_entries (inventory : InventoryDict)
    : list (string * (string * string)) :=
  inventory ≫= λ '(grp, items), pair grp <$> items.

(** How often an inventory proposes [name]. *)
Definition proposals (inventory : InventoryDict) (name : string) : nat :=
  length (filter (λ e, e.2.1 = name) (inventory_entries inventory)).

(** The object allocated by one turn of the loop of [update_single]. *)
Definition new_item (package_name base_url group_name relative_doc_url symbol_name : string)
    : DocItem :=
  mkDocItem package_name group_name base_url
            (PyStr.partition "#" relative_doc_url).1 (PyStr.partition "#" relative_doc_url).2
            symbol_name [].

(** The object [o] with [child] at the end of its [attributes]. *)
Definition with_child (o : DocItem) (child : ref) : DocItem :=
  mkDocItem (package o) (group o) (base_url o) (relative_url_path o) (symbol_id o)
            (symbol_name o) (attributes o ++ [child]).

(** What a successful [ensure_unique_symbol_name] did: nothing when the
    name was free; otherwise one alternate name went to the ledger, and
    either the incoming entry took it or the existing entry was stored
    under it as well. *)
Inductive resolution (s : DocCog) (p g n : string) : string → DocCog → Prop :=
  | res_free :
      chain_get (doc_symbols_all s) n = None →
      resolution s p g n n s
  | res_incoming r it pre :
      chain_get (doc_symbols_all s) n = Some r →
      objects s !! r = Some it →
      resolution s p g n (alternate_name s pre p g n)
                 (ledger_append n (alternate_name s pre p g n) s)
  | res_extant r it pre tbl :
      chain_get (doc_symbols_all s) n = Some r →
      objects s !! r = Some it →
      PyDict.get (doc_symbols_new s) (package it) = Some tbl →
      resolution s p g n n
        (with_doc_symbols_new
           (λ d, PyDict.set d (package it)
                   (<[alternate_name s pre (package it) (group it) n := r]> tbl))
           (ledger_append n (alternate_name s pre (package it) (group it) n) s)).

(** The state after one turn, in terms of the state [s0] that name
    resolution left and the canonical name [c] it returned. *)
Record stored (p url gname rel c : string) (bl : list Z) (s0 s' : DocCog) : Prop := {
  stored_tables :
    doc_symbols_new s' =
      PyDict.set (doc_symbols_new s0) p (<[c := length (objects s0)]> (table s0 p));
  stored_ledger : renamed_symbols s' = renamed_symbols s0;
  stored_urls : base_urls s' = base_urls s0;
  stored_blacklist : BLACKLIST s' = blacklist_add bl c (BLACKLIST s0);
  stored_scheduler : inventory_scheduler s' = inventory_scheduler s0;
  stored_log : log s' = log s0;
  stored_objects :
    let objs := objects s0 ++ [new_item p url gname rel c] in
    match table s' p !! PyStr.rsplit1_head "." c with
    | Some parent =>
        ∃ o, objs !! parent = Some o ∧
             objects s' = if bool_decide (package o = p)
                          then attributes_append parent (length (objects s0)) objs
                          else objs
    | None => objects s' = objs
    end
}.

(** A fetch that failed transiently: nothing usable came back. *)
Definition transient (o : FetchOutcome) : Prop :=
  ∃ package, o = FetchReturned package ∧ falsy package = true.

(** What holds between two attempts for a source that keeps failing. *)
Definition retry_pending (task_id : string) (delay : Z) (s : DocCog) : Prop :=
  ∃ t, scheduled_tasks (inventory_scheduler s) !! task_id = Some t ∧
       task_delay t = delay ∧
       (∃ base_url inventory_url, task_args t = (task_id, base_url, inventory_url)) ∧
       (task_serial t < next_serial (inventory_scheduler s))%nat.

(** The two states agree on everything but the log. *)
Definition same_tables (s t : DocCog) : Prop :=
  base_urls s = base_urls t ∧ doc_symbols_new s = doc_symbols_new t ∧
  renamed_symbols s = renamed_symbols t ∧ objects s = objects t ∧
  BLACKLIST s = BLACKLIST t ∧ inventory_scheduler s = inventory_scheduler t.

(** The state with [L] put before its log. *)
Definition prepend_log (L : list LogRecord) (s : DocCog) : DocCog :=
  mkDocCog (base_urls s) (doc_symbols_new s) (renamed_symbols s) (objects s)
           (BLACKLIST s) (inventory_scheduler s) (L ++ log s).

(** The state with an empty log. *)
Definition erase_log (s : DocCog) : DocCog :=
  mkDocCog (base_urls s) (doc_symbols_new s) (renamed_symbols s) (objects s)
           (BLACKLIST s) (inventory_scheduler s) [].

(** The warning that [update_or_reschedule_inventory] logs for a bad header. *)
Definition invalid_header_warning (inventory_url e : string) : LogRecord :=
  (WARNING, "Invalid inventory header at " +:+ inventory_url +:+ ". Reason: " +:+ e).

(** ** Scenarios *)

(** A source that documents the class [Widget]. *)
Definition widget_inventory : InventoryDict :=
  [("py:class", [("Widget", "api.html#Widget")])].

(** [gamma] documents the label [Foo]. *)
Definition label_inventory : InventoryDict := [("std:label", [("Foo", "a.html#foo")])].

(** [alpha] registers [Widget], then [beta] does; [prio] is the priority list. *)
Definition alpha_then_beta (prio : list string) : option DocCog :=
  update_single prio "alpha" "https://alpha.example/" widget_inventory [] init
  ≫= update_single prio "beta" "https://beta.example/" widget_inventory [].

(** [gamma] registers the label [Foo] twice. *)
Definition label_twice : option DocCog :=
  update_single [] "gamma" "https://gamma.example/"
    [("std:label", [("Foo", "a.html#foo"); ("Foo", "b.html#foo")])] [] init.


(** ** Vocabulary of the further properties *)

(** The group keys that the loops of [update_single] can take apart: a key
    matters only when its group has an entry. *)
Definition keyed_or_empty (inventory : InventoryDict) : Prop :=
  Forall (λ gi, gi.2 = [] ∨ is_Some (PyStr.split ":" gi.1 !! 1%nat)) inventory.

(** [alt] is [name] behind a dotted prefix. *)
Definition dotted_extension (name alt : string) : Prop :=
  ∃ prefix, alt = prefix +:+ "." +:+ name.

(** The objects of [objs] are still in [objs'], with the fields they had;
    their [attributes] have grown at the end only, by objects allocated
    since. *)
Definition extends (objs objs' : list DocItem) : Prop :=
  (length objs ≤ length objs')%nat ∧
  ∀ r o, objs !! r = Some o →
    ∃ o', objs' !! r = Some o' ∧
          package o' = package o ∧ group o' = group o ∧ base_url o' = base_url o ∧
          relative_url_path o' = relative_url_path o ∧ symbol_id o' = symbol_id o ∧
          symbol_name o' = symbol_name o ∧
          ∃ more, attributes o' = attributes o ++ more ∧
                  Forall (λ child, (length objs ≤ child)%nat) more.

(** The names that an inventory proposes, in the order of the loops. *)
Definition proposed_names (inventory : InventoryDict) : list string :=
  (λ e, e.2.1) <$> inventory_entries inventory.

(** ** Further methods of the cog *)

(** The link of a symbol, [f"{doc_item.url}#{doc_item.symbol_id}"]: the url
    of the embed that [create_symbol_embed] builds and of the link button
    that [DocView.set_link_button] sets. *)
Definition embed_url (d : DocItem) : string := url d +:+ "#" +:+ symbol_id d.

(** The set [to_exclude] of [DocCog.doc_symbols]: the union of the sets of
    the whitelist.  [whitelist] is [DocCog.whitelist]; the set of packages
    of a guild is given as the list of its elements in iteration order. *)
Definition to_exclude (whitelist : gmap Z (list string)) : gset string :=
  ⋃ (list_to_set <$> (map_to_list whitelist).*2).

(** [DocCog.doc_symbols], the value that the cached property computes:
    every table when there is no whitelist, otherwise the tables of the
    packages that no guild has on its whitelist. *)
Definition doc_symbols (whitelist : gmap Z (list string)) (s : DocCog)
    : list (gmap string ref) :=
  if bool_decide (whitelist = ∅) then PyDict.values (doc_symbols_new s)
  else PyDict.values (filter (λ kv, kv.1 ∉ to_exclude whitelist) (doc_symbols_new s)).

(** [DocCog.get_packages_for_guild]: for a guild with a whitelist, the
    tables of its packages before the default ones.  [cached] is what
    [self.doc_symbols] reads as: a cached property, computed by
    [doc_symbols] at the first access after the cache was dropped.  [None]
    is the [KeyError] of a whitelisted package without a table. *)
Definition get_packages_for_guild (whitelist : gmap Z (list string)) (guild_id : option Z)
    (cached : list (gmap string ref)) (s : DocCog) : option (list (gmap string ref)) :=
  match guild_id ≫= λ g, whitelist !! g with
  | Some packages =>
      maps ← mapM (PyDict.get (doc_symbols_new s)) packages;
      Some (maps ++ cached)
  | None => Some cached
  end.

(** [DocCog._get_link_from_inventories], with [cached] for
    [self.doc_symbols] as above; here [None] is the [None] that the method
    returns. *)
Definition _get_link_from_inventories (cached : list (gmap string ref)) (package : string)
    (s : DocCog) : option string :=
  match base_urls s !! package with
  | Some link => Some link
  | None => url <$> (chain_get cached package ≫= λ r, objects s !! r)
  end.

(** [BLACKLIST.get(guild_id)], as a set (empty when the guild has none). *)
Definition blacklisted (s : DocCog) (guild_id : Z) : gset string :=
  default ∅ (BLACKLIST s !! guild_id).

(** The score is at least the threshold. *)
Definition reaches (threshold : Z) (x : string * Autocomplete.Score) : Prop :=
  Qle_bool (inject_Z threshold) x.2 = true.

(** The score is [q]. *)
Definition scores (q : Autocomplete.Score) (x : string * Autocomplete.Score) : Prop :=
  Qeq_bool x.2 q = true.


#[global] Instance reaches_dec threshold x : Decision (reaches threshold x).
Proof. unfold reaches. apply _. Defined.

#[global] Instance scores_dec q x : Decision (scores q x).
Proof. unfold scores. apply _. Defined.

(** The packages of a refresh whose fetch gave an inventory that is not
    empty: the ones that [update_or_reschedule_inventory] hands to
    [update_single]. *)
Definition merged (packages : list (string * string * string * FetchOutcome)) : list string :=
  omap (λ '(package, _, _, fetched),
          match fetched with
          | FetchReturned inventory => if falsy inventory then None else Some package
          | FetchInvalidHeader _ => None
          end) packages.

(** What a refresh has built when the packages [done] have been merged. *)
Definition rebuilt (done : list string) (s : DocCog) : Prop :=
  wf s ∧
  (∀ p, is_Some (base_urls s !! p) ↔ p ∈ done) ∧
  (∀ p, p ∈ PyDict.keys (doc_symbols_new s) → p ∈ done) ∧
  (∀ name alt, alt ∈ ledger s name → in_view s alt).

(** ** The whitelist as it is stored *)

(** [sep.join(l)]. *)
Fixpoint join (sep : string) (l : list string) : string :=
  match l with
  | [] => EmptyString
  | x :: l' =>
      match l' with
      | [] => x
      | _ :: _ => x +:+ sep +:+ join sep l'
      end
  end.

(** [sorted(l)] on strings, as an insertion sort; strings compare by
    their characters' codes. *)
Fixpoint insert_asc (x : string) (l : list string) : list string :=
  match l with
  | [] => [x]
  | y :: l' => if String.leb x y then x :: l else y :: insert_asc x l'
  end.

Definition sorted_asc (l : list string) : list string := foldr insert_asc [] l.

(** The value that [whitelist_command] puts for one guild.  [stored] is
    the guild's value in the database, if it has one; [None] is the
    [continue] of a package that is on the guild's whitelist already, where
    nothing is put. *)
Definition whitelist_value (stored : option string) (package_name : string) : option string :=
  let encode value :=
    join "," (sorted_asc (filter (λ x, x ≠ EmptyString)
                                 (PyStr.split "," value ++ [package_name]))) in
  match stored with
  | Some value =>
      if bool_decide (package_name ∈ PyStr.split "," value) then None
      else Some (encode value)
  | None => Some (encode EmptyString)
  end.

(** The packages that [refresh_whitelist_and_blacklist] reads from a
    stored value, [set(value.split(","))], as the list that is made a set. *)
Definition whitelist_packages (value : string) : list string := PyStr.split "," value.

(** [a] comes before [b], or is [b]. *)
Definition str_le (a b : string) : Prop := String.leb a b = true.

(** ** The configured packages *)

Definition CONFIG_DOC_PREFIX : string := "global.documentation".
Definition CONFIG_DOC_INVENTORIES : string := CONFIG_DOC_PREFIX +:+ ".inventories".

(** [s[n:]]. *)
Fixpoint slice_from (n : nat) (s : string) : string :=
  match n, s with
  | O, _ => s
  | S n', String _ s' => slice_from n' s'
  | S _, EmptyString => EmptyString
  end.

(** One turn of the loop of [get_packages], the inner function of
    [refresh_inventories]: [packages.setdefault(k, {})[f] = v]. *)
Definition get_packages_step (packages : list (string * gmap string string))
    (item : string * string) : list (string * gmap string string) :=
  let '(pack, value) := item in
  let pack := slice_from (String.length CONFIG_DOC_INVENTORIES + 1) pack in
  match PyStr.find_first "." pack with
  | Some (spl0, spl1) =>
      PyDict.set packages spl0 (<[spl1 := value]> (default ∅ (PyDict.get packages spl0)))
  | None =>
      PyDict.set packages pack (<["package" := pack]> (default ∅ (PyDict.get packages pack)))
  end.

(** [get_packages], given the items of the dict [kv] that the database
    returned for the keys under [CONFIG_DOC_INVENTORIES]. *)
Definition get_packages (kv : list (string * string)) : list (gmap string string) :=
  PyDict.values (foldl get_packages_step [] kv).

(** The arguments of the calls of [update_or_reschedule_inventory] that
    [refresh_inventories] collects in [coros]; [None] is the [KeyError] of
    a package without one of the three keys. *)
Definition coros (kv : list (string * string)) : option (list (string * string * string)) :=
  mapM (λ package : gmap string string,
          api_package_name ← package !! "package";
          base_url ← package !! "base_url";
          inventory_url ← package !! "inventory_url";
          Some (api_package_name, base_url, inventory_url))
       (get_packages kv).

(** The items of [body], the keys that [set_command] puts for a package. *)
Definition set_command_body (package_name base_url inventory_url : string) : list (string * string) :=
  let prefix := CONFIG_DOC_INVENTORIES +:+ "." +:+ package_name in
  [(prefix, package_name);
   (prefix +:+ ".base_url", base_url);
   (prefix +:+ ".inventory_url", inventory_url)].

(** The package, the field and the value that a turn of the loop of
    [get_packages] reads from an item. *)
Definition decode (item : string * string) : string * string * string :=
  let pack := slice_from (String.length CONFIG_DOC_INVENTORIES + 1) item.1 in
  match PyStr.find_first "." pack with
  | Some (spl0, spl1) => (spl0, spl1, item.2)
  | None => (pack, "package", pack)
  end.

(** The turn of the loop on what [decode] read. *)
Definition field_step (packages : list (string * gmap string string))
    (t : string * string * string) : list (string * gmap string string) :=
  PyDict.set packages t.1.1 (<[t.1.2 := t.2]> (default ∅ (PyDict.get packages t.1.1))).

(** The three fields of a configured package. *)
Definition fields (e : string * string * string) : list (string * string * string) :=
  [(e.1.1, "package", e.1.1); (e.1.1, "base_url", e.1.2); (e.1.1, "inventory_url", e.2)].

(** The call that [coros] makes for a package dict, with the empty string
    for a missing key. *)
Definition call_of (package : gmap string string) : string * string * string :=
  (default EmptyString (package !! "package"),
   default EmptyString (package !! "base_url"),
   default EmptyString (package !! "inventory_url")).

(** * Properties *)

(** ** Strings *)

(** The string methods on the shapes of input that the cog meets. *)
Example split_group_key :
  PyStr.split ":" "py:class" = ["py"; "class"] ∧
  PyStr.split ":" "std:label:x" = ["std"; "label"; "x"] ∧
  PyStr.split ":" "label" = ["label"] ∧
  PyStr.split ":" "" = [""].
Proof. by repeat split. Qed.

Example partition_fragment :
  PyStr.partition "#" "api.html#Widget" = ("api.html", "Widget") ∧
  PyStr.partition "#" "a#b#c" = ("a", "b#c") ∧
  PyStr.partition "#" "api.html" = ("api.html", "").
Proof. by repeat split. Qed.

Example rsplit_parent_path :
  PyStr.rsplit1_head "." "pkg.Widget.size" = "pkg.Widget" ∧
  PyStr.rsplit1_head "." "Widget" = "Widget" ∧
  PyStr.rsplit1_head "." "Widget." = "Widget".
Proof. by repeat split. Qed.

Example split_first_word :
  PyStr.split1_head " " "Widget size of" = "Widget" ∧
  PyStr.split1_head " " " Widget" = "" ∧
  PyStr.split1_head " " "Widget" = "Widget".
Proof. by repeat split. Qed.

Example lower_and_contains :
  PyStr.lower "Widget_Factory2" = "widget_factory2" ∧
  PyStr.contains "widget" "widget_factory" = true ∧
  PyStr.contains "widget" "gadget" = false ∧
  PyStr.contains "" "gadget" = true.
Proof. by repeat split. Qed.

Example base_url_of_inventory :
  base_url_from_inventory_url "https://docs.example/3/objects.inv" = "https://docs.example/3/" ∧
  base_url_from_inventory_url "https://docs.example/3/" = "https://docs.example/".
Proof. by repeat split. Qed.

Lemma find_first_Some c s b r :
  PyStr.find_first c s = Some (b, r) →
  s = b +:+ String c r ∧ PyStr.contains_char c b = false.
Proof.
  revert b r. induction s as [|a s IH]; intros b r; simpl; [discriminate|].
  destruct (Ascii.eqb a c) eqn:E.
  - apply Ascii.eqb_eq in E. intros [= <- <-]. by subst.
  - destruct (PyStr.find_first c s) as [[b' r']|]; [|discriminate].
    intros [= <- <-]. destruct (IH _ _ eq_refl) as [-> Hb].
    split; [done|]. simpl. by rewrite E, Hb.
Qed.

Lemma find_first_None c s :
  PyStr.find_first c s = None → PyStr.contains_char c s = false.
Proof.
  induction s as [|a s IH]; simpl; [done|].
  destruct (Ascii.eqb a c); [discriminate|].
  destruct (PyStr.find_first c s) as [[??]|]; [discriminate|]. auto.
Qed.

Lemma contains_char_app c a b :
  PyStr.contains_char c (a +:+ String c b) = true.
Proof.
  induction a as [|x a IH]; simpl.
  - by rewrite Ascii.eqb_refl.
  - rewrite IH. apply orb_true_r.
Qed.

Lemma contains_char_has_space name :
  PyStr.contains_char " " name = true ↔ has_space name.
Proof.
  split.
  - intros H. destruct (PyStr.find_first " " name) as [[b r]|] eqn:E.
    + apply find_first_Some in E as [-> _]. by exists b, r.
    + apply find_first_None in E. congruence.
  - intros (w & r & ->). apply contains_char_app.
Qed.

Lemma lower_ascii_idemp a : PyStr.lower_ascii (PyStr.lower_ascii a) = PyStr.lower_ascii a.
Proof.
  destruct a as [[] [] [] [] [] [] [] []]; reflexivity.
Qed.

Lemma lower_idemp s : PyStr.lower (PyStr.lower s) = PyStr.lower s.
Proof.
  induction s as [|a s IH]; simpl; [done|]. by rewrite lower_ascii_idemp, IH.
Qed.

(** ** Lookup *)

(** C10. [get_symbol_item] looks the full name up in the unfiltered
    flattened view.  When that finds nothing and the name has a space, the
    answer is the first space-separated word with what the view holds for
    that word; when the name is found, or has no space, the answer is the
    name as given with the result of the direct lookup. *)
Theorem get_symbol_item_first_word (s : DocCog) (name : string) :
  (chain_get (doc_symbols_all s) name = None → has_space name →
   ∃ word rest,
     name = word +:+ " " +:+ rest ∧ ¬ has_space word ∧
     get_symbol_item name s = (word, chain_get (doc_symbols_all s) word))
  ∧ (is_Some (chain_get (doc_symbols_all s) name) ∨ ¬ has_space name →
     get_symbol_item name s = (name, chain_get (doc_symbols_all s) name)).
Proof.
  unfold get_symbol_item. split.
  - intros Hnone Hsp%contains_char_has_space.
    rewrite Hnone, Hsp, bool_decide_eq_true_2 by done. simpl.
    unfold PyStr.split1_head.
    destruct (PyStr.find_first " " name) as [[word rest]|] eqn:E.
    + apply find_first_Some in E as [-> Hw]. exists word, rest.
      split; [done|]. split; [|done].
      intros Hword%contains_char_has_space. congruence.
    + apply find_first_None in E. congruence.
  - intros [[r Hr]|Hsp].
    + by rewrite Hr, bool_decide_eq_false_2.
    + destruct (PyStr.contains_char " " name) eqn:E.
      * by apply contains_char_has_space in E.
      * by rewrite andb_false_r.
Qed.

(** ** Fuzzy autocompletion *)

Import Autocomplete.

(** C6. The exact-match test of [_docs_autocomplete] compares the
    lower-cased candidate with the query as typed, not with the lower-cased
    query: for a query that is not already in lower case no candidate gets
    the +50, and the only boost left is the +20 of the substring test. *)
Theorem exact_boost_lost_on_cased_query (query : string) (fuzzed : list (string * Score * nat)) :
  PyStr.lower query ≠ query →
  tweak_of query fuzzed =
    (λ '(name, score, _),
       (name, if PyStr.contains (PyStr.lower query) (PyStr.lower name)
              then (score + 20)%Q else score)) <$> fuzzed.
Proof.
  intros Hq. unfold tweak_of. apply list_fmap_ext.
  intros i [[name score] k] _. simpl.
  rewrite bool_decide_eq_false_2; [done|].
  intros E. apply Hq. by rewrite <- E, lower_idemp.
Qed.

(** The query "Widget" against the candidates of the ranking scenario,
    taken to have the base scores 100, 50 and 200/3: "Widget" ends at 120,
    not 170. *)
Lemma exact_boost_lost_on_cased_query_witness :
  PyStr.lower "Widget" ≠ "Widget" ∧
  tweak_of "Widget" [("Widget", 100%Q, 0%nat); ("widget_factory", 50%Q, 1%nat);
                     ("gadget", (200 # 3)%Q, 2%nat)]
  = [("Widget", 120%Q); ("widget_factory", 70%Q); ("gadget", (200 # 3)%Q)].
Proof.
  assert (H : PyStr.lower "Widget" ≠ "Widget") by (vm_compute; discriminate).
  split; [exact H|].
  rewrite (exact_boost_lost_on_cased_query "Widget" _ H). reflexivity.
Defined.

(** The ranking of the scenario at the default threshold of 45: the order
    is the expected one, by the +20 alone. *)
Example widget_ranking :
  results "Widget" [("Widget", 100%Q, 0%nat); ("widget_factory", 50%Q, 1%nat);
                    ("gadget", (200 # 3)%Q, 2%nat)] 45 false
  = ["Widget"; "widget_factory"; "gadget"].
Proof. reflexivity. Qed.

(** ** Retry controller *)

Lemma for_each_app {A} (body : A → DocCog → option DocCog) l1 l2 s :
  for_each body (l1 ++ l2) s = for_each body l1 s ≫= for_each body l2.
Proof.
  revert s. induction l1 as [|x l1 IH]; intros s; simpl; [done|].
  destruct (body x s) as [s'|]; simpl; [apply IH|done].
Qed.

Lemma first_attempt_pending prio gd gn pkg base_url inventory_url o s :
  transient o →
  scheduled_tasks (inventory_scheduler s) !! pkg = None →
  ∃ s1, update_or_reschedule_inventory prio gd gn pkg base_url inventory_url o s = Some s1 ∧
        retry_pending pkg (FETCH_RESCHEDULE_DELAY_first * 60) s1.
Proof.
  intros (package & -> & Hf) Hnone. unfold update_or_reschedule_inventory.
  rewrite Hf. unfold scheduler_contains.
  rewrite bool_decide_eq_false_2 by (rewrite Hnone; by intros [??]).
  eexists. split; [done|]. eexists. simpl.
  rewrite lookup_insert_eq. split; [done|]. simpl. split; [done|]. split; [eauto|lia].
Qed.

Lemma retry_pending_step prio gd gn pkg delay o s :
  transient o →
  retry_pending pkg delay s →
  ∃ s1, run_scheduled prio gd gn pkg o s = Some s1 ∧
        retry_pending pkg (FETCH_RESCHEDULE_DELAY_repeated * 60) s1.
Proof.
  intros (package & -> & Hf) (t & Ht & _ & (b & u & Hargs) & Hser).
  unfold run_scheduled. rewrite Ht. simpl. rewrite Hargs.
  unfold update_or_reschedule_inventory. rewrite Hf. unfold scheduler_contains.
  rewrite bool_decide_eq_true_2 by (rewrite Ht; eauto). simpl.
  rewrite lookup_insert_eq. simpl.
  rewrite bool_decide_eq_false_2 by lia.
  eexists. split; [done|]. eexists. simpl.
  rewrite lookup_insert_eq. split; [done|]. simpl. split; [done|]. split; [eauto|lia].
Qed.

Lemma retry_pending_steps prio gd gn pkg delay outcomes s :
  Forall transient outcomes → outcomes ≠ [] →
  retry_pending pkg delay s →
  ∃ s1, run_retries prio gd gn pkg outcomes s = Some s1 ∧
        retry_pending pkg (FETCH_RESCHEDULE_DELAY_repeated * 60) s1.
Proof.
  intros Hall. revert delay s.
  induction Hall as [|o outcomes Ho Hall IH]; intros delay s Hne Hp; [done|].
  destruct (retry_pending_step prio gd gn pkg delay o s Ho Hp) as (s1 & Hrun & Hp1).
  unfold run_retries in *. simpl. rewrite Hrun. simpl.
  destruct outcomes as [|o' outcomes'].
  - simpl. eauto.
  - eapply IH; [done|exact Hp1].
Qed.

(** C7. A source whose fetch comes back empty while no retry is pending
    for it (the state in which [refresh_inventories] makes the first
    attempt) gets its first retry after [FETCH_RESCHEDULE_DELAY.first]
    minutes, that is 2; after any further run of failed retries the retry
    that is pending waits [FETCH_RESCHEDULE_DELAY.repeated] minutes, that
    is 5. *)
Theorem retry_delays prio gd gn (pkg base_url inventory_url : string)
    (first_outcome : FetchOutcome) (s : DocCog) :
  transient first_outcome →
  scheduled_tasks (inventory_scheduler s) !! pkg = None →
  ∃ s1,
    update_or_reschedule_inventory prio gd gn pkg base_url inventory_url first_outcome s
      = Some s1 ∧
    pending_delay pkg s1 = Some (FETCH_RESCHEDULE_DELAY_first * 60)%Z ∧
    (FETCH_RESCHEDULE_DELAY_first * 60 = 120)%Z ∧
    ∀ outcomes, Forall transient outcomes → outcomes ≠ [] →
      ∃ s2, run_retries prio gd gn pkg outcomes s1 = Some s2 ∧
            pending_delay pkg s2 = Some (FETCH_RESCHEDULE_DELAY_repeated * 60)%Z ∧
            (FETCH_RESCHEDULE_DELAY_repeated * 60 = 300)%Z.
Proof.
  intros Ho Hnone.
  destruct (first_attempt_pending prio gd gn pkg base_url inventory_url _ s Ho Hnone)
    as (s1 & Hrun & Hp).
  exists s1. split; [exact Hrun|]. split.
  { destruct Hp as (t & Ht & Hd & _). unfold pending_delay. by rewrite Ht, <- Hd. }
  split; [done|]. intros outcomes Hall Hne.
  destruct (retry_pending_steps prio gd gn pkg _ outcomes s1 Hall Hne Hp) as (s2 & Hrun2 & Hp2).
  exists s2. split; [exact Hrun2|]. split; [|done].
  destruct Hp2 as (t & Ht & Hd & _). unfold pending_delay. by rewrite Ht, <- Hd.
Qed.

(** The first attempt of a refresh for "alpha" fails, then two retries fail. *)
Lemma retry_delays_witness :
  transient (FetchReturned None) ∧
  scheduled_tasks (inventory_scheduler init) !! "alpha" = None ∧
  ∃ s1,
    update_or_reschedule_inventory [] 1 2 "alpha" "" "https://alpha.example/objects.inv"
      (FetchReturned None) init = Some s1 ∧
    pending_delay "alpha" s1 = Some 120%Z ∧
    ∃ s2, run_retries [] 1 2 "alpha" [FetchReturned None; FetchReturned (Some [])] s1 = Some s2 ∧
          pending_delay "alpha" s2 = Some 300%Z.
Proof.
  assert (H1 : transient (FetchReturned None)) by (by exists None).
  assert (H2 : transient (FetchReturned (Some []))) by (by exists (Some [])).
  assert (H3 : scheduled_tasks (inventory_scheduler init) !! "alpha" = None) by reflexivity.
  split; [exact H1|]. split; [exact H3|].
  destruct (retry_delays [] 1 2 "alpha" "" "https://alpha.example/objects.inv" _ init H1 H3)
    as (s1 & Hrun & Hd & _ & Hnext).
  exists s1. split; [exact Hrun|]. split; [exact Hd|].
  destruct (Hnext [FetchReturned None; FetchReturned (Some [])]) as (s2 & Hrun2 & Hd2 & _).
  - by repeat constructor.
  - done.
  - exists s2. by split.
Defined.

(** ** Dictionaries and the flattened view *)

Section dict_lemmas.
Context {V : Type}.
Implicit Types d : list (string * V).

Lemma get_Some_elem d k v : PyDict.get d k = Some v → (k, v) ∈ d.
Proof.
  induction d as [|[k' v'] d IH]; simpl; [done|].
  destruct (decide (k' = k)) as [->|].
  - intros [= ->]. apply list_elem_of_here.
  - intros H. apply list_elem_of_further. auto.
Qed.

Lemma get_None_keys d k : PyDict.get d k = None → k ∉ PyDict.keys d.
Proof.
  induction d as [|[k' v'] d IH]; simpl.
  - intros _ H. inversion H.
  - destruct (decide (k' = k)); [done|].
    intros H [->|Hin]%elem_of_cons; [done|]. by apply IH.
Qed.

Lemma elem_keys d k v : (k, v) ∈ d → k ∈ PyDict.keys d.
Proof. intros H. apply list_elem_of_fmap. by exists (k, v). Qed.

Lemma elem_get d k v : NoDup (PyDict.keys d) → (k, v) ∈ d → PyDict.get d k = Some v.
Proof.
  induction d as [|[k' v'] d IH]; simpl.
  - intros _ H. inversion H.
  - intros [Hk Hnd]%NoDup_cons [[= -> ->]|Hin]%elem_of_cons.
    + by rewrite decide_True.
    + rewrite decide_False; [auto|]. intros ->. apply Hk. by eapply elem_keys.
Qed.

Lemma get_set_eq d k v : PyDict.get (PyDict.set d k v) k = Some v.
Proof.
  induction d as [|[k' v'] d IH]; simpl.
  - by rewrite decide_True.
  - destruct (decide (k' = k)); simpl.
    + by rewrite decide_True.
    + by rewrite decide_False.
Qed.

Lemma get_set_ne d k k' v : k ≠ k' → PyDict.get (PyDict.set d k v) k' = PyDict.get d k'.
Proof.
  intros Hne. induction d as [|[k0 v0] d IH]; simpl.
  - by rewrite decide_False.
  - destruct (decide (k0 = k)) as [->|]; simpl.
    + by rewrite !decide_False.
    + by rewrite IH.
Qed.

Lemma elem_set d k v k' v' :
  (k', v') ∈ PyDict.set d k v → (k' = k ∧ v' = v) ∨ (k' ≠ k ∧ (k', v') ∈ d) ∨
                                (k' = k ∧ (k', v') ∈ d).
Proof.
  induction d as [|[k0 v0] d IH]; simpl.
  - intros [[= -> ->]|H]%elem_of_cons; [by left|inversion H].
  - destruct (decide (k0 = k)) as [->|Hne].
    + intros [[= -> ->]|H]%elem_of_cons; [by left|].
      destruct (decide (k' = k)) as [->|].
      * right. right. split; [done|]. by apply list_elem_of_further.
      * right. left. split; [done|]. by apply list_elem_of_further.
    + intros [[= -> ->]|H]%elem_of_cons.
      * right. left. split; [done|]. apply list_elem_of_here.
      * destruct (IH H) as [?|[[??]|[??]]]; [by left| |].
        -- right. left. split; [done|]. by apply list_elem_of_further.
        -- right. right. split; [done|]. by apply list_elem_of_further.
Qed.

Lemma keys_set d k v :
  PyDict.keys (PyDict.set d k v) =
    if decide (k ∈ PyDict.keys d) then PyDict.keys d else PyDict.keys d ++ [k].
Proof.
  unfold PyDict.keys. induction d as [|[k0 v0] d IH].
  - rewrite decide_False; [done|]. intros H. inversion H.
  - cbn [PyDict.set]. destruct (decide (k0 = k)) as [->|Hne].
    + rewrite decide_True; [done|]. apply list_elem_of_here.
    + rewrite !fmap_cons, IH. cbn [fst].
      destruct (decide (k ∈ d.*1)) as [Hin|Hnin].
      * rewrite decide_True; [done|]. by apply list_elem_of_further.
      * rewrite decide_False; [done|].
        intros [->|?]%elem_of_cons; done.
Qed.

Lemma keys_set_NoDup d k v :
  NoDup (PyDict.keys d) → NoDup (PyDict.keys (PyDict.set d k v)).
Proof.
  intros Hnd. rewrite keys_set. destruct (decide (k ∈ PyDict.keys d)) as [Hin|Hnin]; [done|].
  apply NoDup_app. split; [done|]. split; [|apply NoDup_singleton].
  intros x Hx ->%list_elem_of_singleton. done.
Qed.
End dict_lemmas.

Lemma chain_get_Some (d : list (string * gmap string ref)) n r :
  chain_get (PyDict.values d) n = Some r →
  ∃ pkg tbl, (pkg, tbl) ∈ d ∧ tbl !! n = Some r.
Proof.
  induction d as [|[pkg tbl] d IH]; simpl; [done|].
  destruct (tbl !! n) as [r'|] eqn:E.
  - intros [= ->]. exists pkg, tbl. split; [apply list_elem_of_here|done].
  - intros (pkg' & tbl' & Hin & Hl)%IH. exists pkg', tbl'.
    split; [by apply list_elem_of_further|done].
Qed.

Lemma chain_get_is_Some (d : list (string * gmap string ref)) n :
  is_Some (chain_get (PyDict.values d) n) ↔
  ∃ pkg tbl, (pkg, tbl) ∈ d ∧ is_Some (tbl !! n).
Proof.
  split.
  - intros [r (pkg & tbl & ? & ?)%chain_get_Some]. exists pkg, tbl. eauto.
  - intros (pkg & tbl & Hin & Hsome).
    induction d as [|[pkg' tbl'] d IH]; simpl; [inversion Hin|].
    destruct (tbl' !! n) as [r'|] eqn:E; [eauto|].
    apply elem_of_cons in Hin as [[= -> ->]|Hin]; [|auto].
    rewrite E in Hsome. by destruct Hsome.
Qed.

Lemma wf_chain_get s n r :
  wf s → chain_get (doc_symbols_all s) n = Some r →
  ∃ item tbl, objects s !! r = Some item ∧
              PyDict.get (doc_symbols_new s) (package item) = Some tbl ∧
              tbl !! n = Some r.
Proof.
  intros [Hnd Hobj] (pkg & tbl & Hin & Hl)%chain_get_Some.
  destruct (Hobj _ _ _ _ Hin Hl) as (item & Hitem & <-).
  exists item, tbl. split; [done|]. split; [by apply elem_get|done].
Qed.

(** ** The disambiguator *)

Arguments rename : simpl never.
Arguments index : simpl never.

Lemma rename_incoming p g n it pre s :
  rename p g n it pre false s
  = Some (alternate_name s pre p g n, ledger_append n (alternate_name s pre p g n) s).
Proof. unfold rename, alternate_name. by destruct (in_doc_symbols_all s _). Qed.

Lemma rename_extant p g n it pre s r tbl :
  chain_get (doc_symbols_all s) n = Some r →
  objects s !! r = Some it →
  PyDict.get (doc_symbols_new s) (package it) = Some tbl →
  rename p g n it pre true s
  = Some (n, with_doc_symbols_new
               (λ d, PyDict.set d (package it)
                       (<[alternate_name s pre (package it) (group it) n := r]> tbl))
               (ledger_append n (alternate_name s pre (package it) (group it) n) s)).
Proof.
  intros Hr Hit Htbl. unfold rename, alternate_name.
  destruct (in_doc_symbols_all s _); simpl;
    change (doc_symbols_all (ledger_append ?a ?b s)) with (doc_symbols_all s);
    rewrite Hr; simpl; rewrite Hit; simpl; rewrite Htbl; done.
Qed.

Lemma rename_resolution p g n r it pre ext s name s' :
  chain_get (doc_symbols_all s) n = Some r →
  objects s !! r = Some it →
  rename p g n it pre ext s = Some (name, s') →
  resolution s p g n name s'.
Proof.
  intros Hr Hit. destruct ext.
  - destruct (PyDict.get (doc_symbols_new s) (package it)) as [tbl|] eqn:Htbl.
    + rewrite (rename_extant _ _ _ _ _ _ _ _ Hr Hit Htbl). intros [= <- <-].
      by eapply res_extant.
    + unfold rename.
      destruct (in_doc_symbols_all s _); simpl;
        change (doc_symbols_all (ledger_append ?a ?b s)) with (doc_symbols_all s);
        rewrite Hr; simpl; rewrite Hit; simpl; rewrite Htbl; done.
  - rewrite rename_incoming. intros [= <- <-]. by eapply res_incoming.
Qed.

Lemma ensure_unique_resolution prio p g n s name s' :
  ensure_unique_symbol_name prio p g n s = Some (name, s') →
  resolution s p g n name s'.
Proof.
  unfold ensure_unique_symbol_name.
  destruct (chain_get (doc_symbols_all s) n) as [r|] eqn:Hr.
  - destruct (objects s !! r) as [it|] eqn:Hit; [|done]. simpl.
    destruct (negb _).
    { destruct (bool_decide (p ∈ prio)); by apply rename_resolution with r. }
    destruct (bool_decide (g ∈ FORCE_PREFIX_GROUPS)); [|by apply rename_resolution with r].
    destruct (bool_decide (group it ∈ FORCE_PREFIX_GROUPS)); simpl.
    + destruct (index FORCE_PREFIX_GROUPS g); [|done]. simpl.
      destruct (index FORCE_PREFIX_GROUPS (group it)); [|done]. simpl.
      by apply rename_resolution with r.
    + by apply rename_resolution with r.
  - intros [= <- <-]. by apply res_free.
Qed.

Lemma resolution_objects s p g n name s' :
  resolution s p g n name s' → objects s' = objects s.
Proof. by destruct 1. Qed.

Lemma resolution_wf s p g n name s' :
  resolution s p g n name s' → wf s → wf s'.
Proof.
  destruct 1 as [|r it pre Hr Hit|r it pre tbl Hr Hit Htbl]; [done|done|].
  intros [Hnd Hobj]. split; simpl.
  - by apply keys_set_NoDup.
  - intros pkg tbl' name r' Hin Hl.
    apply elem_set in Hin as [[-> ->]|[[_ Hin]|[_ Hin]]]; [|by eapply Hobj..].
    apply lookup_insert_Some in Hl as [[_ <-]|[_ Hl]]; [by exists it|].
    eapply Hobj; [|exact Hl]. by apply get_Some_elem.
Qed.

(** Replacing a package's table by one that has at least its keys keeps
    every key of the flattened view. *)
Lemma set_view_mono (d : list (string * gmap string ref)) pkg (tbl' : gmap string ref) k :
  (∀ tbl0, PyDict.get d pkg = Some tbl0 → is_Some (tbl0 !! k) → is_Some (tbl' !! k)) →
  is_Some (chain_get (PyDict.values d) k) →
  is_Some (chain_get (PyDict.values (PyDict.set d pkg tbl')) k).
Proof.
  induction d as [|[q0 t0] d IH]; simpl; intros Hkeep.
  - by intros [??].
  - destruct (decide (q0 = pkg)) as [->|Hne]; simpl.
    + destruct (t0 !! k) as [r0|] eqn:E0.
      * destruct (Hkeep t0 eq_refl) as [r' ->]; eauto.
      * destruct (tbl' !! k); eauto.
    + destruct (t0 !! k); [eauto|]. by apply IH.
Qed.

Lemma set_view_new (d : list (string * gmap string ref)) pkg (tbl' : gmap string ref) k :
  is_Some (tbl' !! k) →
  is_Some (chain_get (PyDict.values (PyDict.set d pkg tbl')) k).
Proof.
  intros H. apply chain_get_is_Some. exists pkg, tbl'.
  split; [apply get_Some_elem, get_set_eq|done].
Qed.

Lemma resolution_view s p g n name s' k :
  resolution s p g n name s' →
  is_Some (chain_get (doc_symbols_all s) k) →
  is_Some (chain_get (doc_symbols_all s') k).
Proof.
  destruct 1 as [|r it pre Hr Hit|r it pre tbl Hr Hit Htbl]; [done|done|].
  unfold doc_symbols_all. simpl. apply set_view_mono.
  intros tbl0 Htbl0 [r0 Hk]. rewrite Htbl in Htbl0. injection Htbl0 as <-.
  destruct (decide (alternate_name s pre (package it) (group it) n = k)) as [->|Hne].
  - rewrite lookup_insert_eq. eauto.
  - rewrite lookup_insert_ne by done. eauto.
Qed.

(** ** One turn of the loop of [update_single] *)

Lemma attributes_append_eq parent child objs o :
  objs !! parent = Some o →
  attributes_append parent child objs !! parent = Some (with_child o child).
Proof.
  intros H. unfold attributes_append, with_child. rewrite H.
  apply list_lookup_insert_eq. by eapply lookup_lt_Some.
Qed.

Lemma attributes_append_ne parent child objs r :
  r ≠ parent → attributes_append parent child objs !! r = objs !! r.
Proof.
  intros H. unfold attributes_append. destruct (objs !! parent); [|done].
  by apply list_lookup_insert_ne.
Qed.

Lemma attributes_append_length parent child objs :
  length (attributes_append parent child objs) = length objs.
Proof.
  unfold attributes_append. destruct (objs !! parent); [|done]. apply length_insert.
Qed.

Lemma attributes_append_package parent child objs r :
  package <$> attributes_append parent child objs !! r = package <$> objs !! r.
Proof.
  destruct (decide (r = parent)) as [->|Hne].
  - destruct (objs !! parent) as [o|] eqn:E.
    + rewrite (attributes_append_eq _ _ _ _ E). reflexivity.
    + unfold attributes_append. by rewrite !E.
  - by rewrite attributes_append_ne.
Qed.

Lemma update_symbol_inv prio p url g bl n rel s s' :
  update_symbol prio p url g bl (n, rel) s = Some s' →
  ∃ gname c s0,
    PyStr.split ":" g !! 1%nat = Some gname ∧
    ensure_unique_symbol_name prio p gname n s = Some (c, s0) ∧
    stored p url gname rel c bl s0 s'.
Proof.
  unfold update_symbol.
  destruct (PyStr.split ":" g !! 1%nat) as [gname|]; simpl; [|done].
  destruct (ensure_unique_symbol_name prio p gname n s) as [[c s0]|] eqn:Hres; simpl; [|done].
  intros H. exists gname, c, s0. split; [done|]. split; [done|].
  unfold new_item. destruct (PyStr.partition "#" rel) as [path sid] eqn:Hpart.
  simpl in H. rewrite get_set_eq in H. simpl in H.
  change (default ∅ (PyDict.get (doc_symbols_new s0) p)) with (table s0 p) in H.
  assert (Htbl : ∀ f g,
    table (with_objects f (with_BLACKLIST g
             (with_doc_symbols_new
                (λ d, PyDict.set d p (<[c:=length (objects s0)]> (default ∅ (PyDict.get d p))))
                (with_objects (λ o, o ++ [mkDocItem p gname url path sid c []]) s0)))) p
    = <[c:=length (objects s0)]> (table s0 p)).
  { intros f g0. unfold table at 1. simpl. by rewrite get_set_eq. }
  destruct (<[c:=length (objects s0)]> (table s0 p) !! PyStr.rsplit1_head "." c)
    as [parent|] eqn:Hparent.
  - destruct ((objects s0 ++ [mkDocItem p gname url path sid c []]) !! parent)
      as [o|] eqn:Ho; [|done]. simpl in H.
    destruct (bool_decide (package o = p)) eqn:Hpkg; injection H as <-.
    + split; try done. intros objs. subst objs. unfold new_item.
      rewrite Hpart, Htbl, Hparent. simpl.
      exists o. split; [exact Ho|]. by rewrite Hpkg.
    + split; try done. intros objs. subst objs. unfold new_item. rewrite Hpart. simpl.
      rewrite <- (Htbl (λ o, o) (blacklist_add bl c)) in Hparent.
      unfold with_objects at 1 in Hparent. simpl in Hparent.
      unfold table at 1. simpl. unfold table in Hparent. simpl in Hparent.
      rewrite Hparent. exists o. split; [exact Ho|]. by rewrite Hpkg.
  - injection H as <-. split; try done. intros objs. subst objs. unfold new_item.
    rewrite Hpart. simpl.
    rewrite <- (Htbl (λ o, o) (blacklist_add bl c)) in Hparent.
    unfold table at 1. simpl. unfold table in Hparent. simpl in Hparent.
    by rewrite Hparent.
Qed.

Lemma stored_objects_package p url gname rel c bl s0 s' r :
  stored p url gname rel c bl s0 s' →
  package <$> objects s' !! r
  = package <$> (objects s0 ++ [new_item p url gname rel c]) !! r.
Proof.
  intros [_ _ _ _ _ _ Hobj]. simpl in Hobj.
  destruct (table s' p !! PyStr.rsplit1_head "." c) as [parent|].
  - destruct Hobj as (o & _ & ->). destruct (bool_decide (package o = p)); [|done].
    apply attributes_append_package.
  - by rewrite Hobj.
Qed.

Lemma stored_length p url gname rel c bl s0 s' :
  stored p url gname rel c bl s0 s' →
  length (objects s') = S (length (objects s0)).
Proof.
  intros [_ _ _ _ _ _ Hobj]. simpl in Hobj.
  assert (length (objects s0 ++ [new_item p url gname rel c]) = S (length (objects s0)))
    as Hlen by (rewrite length_app; simpl; lia).
  destruct (table s' p !! PyStr.rsplit1_head "." c) as [parent|].
  - destruct Hobj as (o & _ & ->). destruct (bool_decide (package o = p)); [|done].
    by rewrite attributes_append_length.
  - by rewrite Hobj.
Qed.

Lemma stored_wf p url gname rel c bl s0 s' :
  stored p url gname rel c bl s0 s' → wf s0 → wf s'.
Proof.
  intros Hst [Hnd Hobj]. split.
  - rewrite (stored_tables _ _ _ _ _ _ _ _ Hst). by apply keys_set_NoDup.
  - intros pkg tbl name r Hin Hl.
    assert (∃ item, (objects s0 ++ [new_item p url gname rel c]) !! r = Some item ∧
                    package item = pkg) as (item & Hitem & Hpkg).
    { assert (∀ pkg tbl, (pkg, tbl) ∈ doc_symbols_new s0 → tbl !! name = Some r →
                ∃ item, (objects s0 ++ [new_item p url gname rel c]) !! r = Some item ∧
                        package item = pkg) as Hold.
      { intros pkg0 tbl0 Hin0 Hl0. destruct (Hobj _ _ _ _ Hin0 Hl0) as (item & Hitem & <-).
        exists item. split; [|done]. rewrite lookup_app_l; [done|]. by eapply lookup_lt_Some. }
      rewrite (stored_tables _ _ _ _ _ _ _ _ Hst) in Hin.
      apply elem_set in Hin as [[-> ->]|[[_ Hin]|[_ Hin]]]; [|by eapply Hold..].
      apply lookup_insert_Some in Hl as [[_ <-]|[_ Hl]].
      - exists (new_item p url gname rel c). split; [|done].
        rewrite lookup_app_r by lia. by rewrite Nat.sub_diag.
      - unfold table in Hl.
        destruct (PyDict.get (doc_symbols_new s0) p) as [tbl0|] eqn:E; simpl in Hl.
        + eapply Hold; [|exact Hl]. by apply get_Some_elem.
        + by rewrite lookup_empty in Hl. }
    pose proof (stored_objects_package _ _ _ _ _ _ _ _ r Hst) as Hp.
    rewrite Hitem in Hp. simpl in Hp.
    destruct (objects s' !! r) as [item'|]; [|done].
    exists item'. split; [done|]. simpl in Hp. congruence.
Qed.

Lemma stored_view p url gname rel c bl s0 s' k :
  stored p url gname rel c bl s0 s' →
  is_Some (chain_get (doc_symbols_all s0) k) ∨ k = c →
  is_Some (chain_get (doc_symbols_all s') k).
Proof.
  intros Hst H. unfold doc_symbols_all. rewrite (stored_tables _ _ _ _ _ _ _ _ Hst).
  destruct H as [H| ->].
  - apply set_view_mono; [|done]. intros tbl0 Htbl0 [r0 Hk].
    unfold table. rewrite Htbl0. simpl.
    destruct (decide (c = k)) as [->|Hne].
    + rewrite lookup_insert_eq. eauto.
    + rewrite lookup_insert_ne by done. eauto.
  - apply set_view_new. rewrite lookup_insert_eq. eauto.
Qed.

Lemma update_symbol_wf prio p url g bl e s s' :
  update_symbol prio p url g bl e s = Some s' → wf s → wf s'.
Proof.
  destruct e as [n rel]. intros (gname & c & s0 & _ & Hres & Hst)%update_symbol_inv Hwf.
  eapply stored_wf; [exact Hst|].
  eapply resolution_wf; [|exact Hwf]. eapply ensure_unique_resolution, Hres.
Qed.

Lemma for_each_invariant {A} (P : DocCog → Prop) (body : A → DocCog → option DocCog) l :
  (∀ x s s', body x s = Some s' → P s → P s') →
  ∀ s s', for_each body l s = Some s' → P s → P s'.
Proof.
  intros Hbody. induction l as [|x l IH]; simpl; intros s s'.
  - by intros [= <-].
  - destruct (body x s) as [s1|] eqn:E; simpl; [|done].
    intros Hrest Hs. eapply IH; [exact Hrest|]. by eapply Hbody.
Qed.

Lemma update_single_wf prio p url inv bl s s' :
  update_single prio p url inv bl s = Some s' → wf s → wf s'.
Proof.
  unfold update_single. intros H Hwf.
  destruct (for_each _ inv _) as [s1|] eqn:E; simpl in H; [|done].
  injection H as <-.
  assert (wf s1) as Hwf1; [|exact Hwf1].
  eapply (for_each_invariant wf); [|exact E|exact Hwf].
  intros [grp items] t t' Ht. eapply for_each_invariant; [|exact Ht].
  intros e u u'. apply update_symbol_wf.
Qed.

Lemma wf_init : wf init.
Proof.
  split; [constructor|]. intros pkg tbl name r Hin. inversion Hin.
Qed.

(** ** The precedence rules of the disambiguator *)

Lemma index_is_Some l x : x ∈ l → is_Some (index l x).
Proof.
  induction l as [|y l IH]; [by intros H; inversion H|].
  unfold index; fold index. destruct (decide (y = x)); [eauto|].
  intros [->|Hin]%elem_of_cons; [done|]. destruct (IH Hin) as [i ->]. simpl. eauto.
Qed.

Lemma index_Some_elem l x i : index l x = Some i → x ∈ l.
Proof.
  revert i. induction l as [|y l IH]; intros i; [done|].
  unfold index; fold index. destruct (decide (y = x)) as [->|]; [intros; apply list_elem_of_here|].
  destruct (index l x) as [j|] eqn:E; [|done]. intros _.
  apply list_elem_of_further. by eapply IH.
Qed.

Lemma ensure_unique_cross_source prio s p g n r item :
  wf s →
  chain_get (doc_symbols_all s) n = Some r →
  objects s !! r = Some item →
  p ≠ package item →
  ∃ tbl, PyDict.get (doc_symbols_new s) (package item) = Some tbl ∧
    ensure_unique_symbol_name prio p g n s =
      if bool_decide (p ∈ prio)
      then Some (n, with_doc_symbols_new
                      (λ d, PyDict.set d (package item)
                              (<[alternate_name s (package item) (package item) (group item) n
                                 := r]> tbl))
                      (ledger_append n
                         (alternate_name s (package item) (package item) (group item) n) s))
      else Some (alternate_name s p p g n, ledger_append n (alternate_name s p p g n) s).
Proof.
  intros Hwf Hr Hit Hne.
  destruct (wf_chain_get _ _ _ Hwf Hr) as (item' & tbl & Hit' & Htbl & _).
  rewrite Hit in Hit'. injection Hit' as <-. exists tbl. split; [done|].
  unfold ensure_unique_symbol_name. rewrite Hr. simpl. rewrite Hit. simpl.
  rewrite bool_decide_eq_false_2 by done. simpl.
  destruct (bool_decide (p ∈ prio)).
  - by apply rename_extant.
  - apply rename_incoming.
Qed.

Lemma ensure_unique_same_source prio s p g n r item :
  wf s →
  chain_get (doc_symbols_all s) n = Some r →
  objects s !! r = Some item →
  p = package item →
  ∃ tbl, PyDict.get (doc_symbols_new s) p = Some tbl ∧
    ensure_unique_symbol_name prio p g n s =
      let extant :=
        Some (n, with_doc_symbols_new
                   (λ d, PyDict.set d p
                           (<[alternate_name s (group item) p (group item) n := r]> tbl))
                   (ledger_append n (alternate_name s (group item) p (group item) n) s)) in
      let incoming :=
        Some (alternate_name s g p g n, ledger_append n (alternate_name s g p g n) s) in
      match index FORCE_PREFIX_GROUPS g with
      | Some i =>
          match index FORCE_PREFIX_GROUPS (group item) with
          | Some j => if bool_decide (i < j)%nat then extant else incoming
          | None => incoming
          end
      | None => extant
      end.
Proof.
  intros Hwf Hr Hit ->.
  destruct (wf_chain_get _ _ _ Hwf Hr) as (item' & tbl & Hit' & Htbl & _).
  rewrite Hit in Hit'. injection Hit' as <-. exists tbl. split; [done|].
  unfold ensure_unique_symbol_name. rewrite Hr. simpl. rewrite Hit. simpl.
  rewrite bool_decide_eq_true_2 by done. simpl.
  destruct (index FORCE_PREFIX_GROUPS g) as [i|] eqn:Ei.
  all: try (rewrite bool_decide_eq_true_2 by (by eapply index_Some_elem)).
  all: try (rewrite bool_decide_eq_false_2
              by (intros [? Hx]%index_is_Some; rewrite Hx in Ei; discriminate)).
  all: try (by apply rename_extant).
  all: destruct (index FORCE_PREFIX_GROUPS (group item)) as [j|] eqn:Ej.
  all: try (rewrite bool_decide_eq_true_2 by (by eapply index_Some_elem)).
  all: try (rewrite bool_decide_eq_false_2
              by (intros [? Hx]%index_is_Some; rewrite Hx in Ej; discriminate)).
  all: simpl; try rewrite Ei; simpl; try rewrite Ej; simpl.
  all: try (destruct (bool_decide (i < j)%nat); [by apply rename_extant|]).
  all: apply rename_incoming.
Qed.

Lemma ensure_unique_total prio p g n s :
  wf s → is_Some (ensure_unique_symbol_name prio p g n s).
Proof.
  intros Hwf. destruct (chain_get (doc_symbols_all s) n) as [r|] eqn:Hr.
  - destruct (wf_chain_get _ _ _ Hwf Hr) as (item & tbl & Hit & _).
    destruct (decide (p = package item)) as [Heq|Hne].
    + destruct (ensure_unique_same_source prio s p g n r item Hwf Hr Hit Heq) as (? & _ & ->).
      simpl. repeat case_match; eauto.
    + destruct (ensure_unique_cross_source prio s p g n r item Hwf Hr Hit Hne) as (? & _ & ->).
      case_match; eauto.
  - unfold ensure_unique_symbol_name. rewrite Hr. eauto.
Qed.




(** C4, as amended. A proposed name [n] of source [p], in a group [g] of
    [FORCE_PREFIX_GROUPS], that the flattened view resolves to an entry
    [item] of the same source.  The existing entry is the one renamed
    (stored under its own group prefixed to [n] as well, the incoming
    entry keeping [n]) only when its group is in the tuple too, at a
    strictly later position than [g].  In every other case, that is when
    [g] is the later one, when the two positions are equal, and when the
    group of the existing entry is not in the tuple, the incoming entry is
    renamed, with [g] as the prefix.  When the view already has the
    prefixed name, the fully qualified name of the renamed entry is used.
    The alternate name goes to the end of the ledger's list for [n]. *)
Theorem same_source_group_precedence prio (s : DocCog) (p g n : string) (r : ref)
    (item : DocItem) (i : nat) :
  wf s →
  chain_get (doc_symbols_all s) n = Some r →
  objects s !! r = Some item →
  p = package item →
  index FORCE_PREFIX_GROUPS g = Some i →
  ∃ name s',
    ensure_unique_symbol_name prio p g n s = Some (name, s') ∧
    objects s' = objects s ∧
    ((∃ j, index FORCE_PREFIX_GROUPS (group item) = Some j ∧ (i < j)%nat) →
       name = n ∧
       table s' p = <[alternate_name s (group item) p (group item) n := r]> (table s p) ∧
       (∀ q, q ≠ p → PyDict.get (doc_symbols_new s') q = PyDict.get (doc_symbols_new s) q) ∧
       renamed_symbols s'
         = <[n := ledger s n ++ [alternate_name s (group item) p (group item) n]]>
             (renamed_symbols s)) ∧
    ((∀ j, index FORCE_PREFIX_GROUPS (group item) = Some j → (j ≤ i)%nat) →
       name = alternate_name s g p g n ∧
       doc_symbols_new s' = doc_symbols_new s ∧
       renamed_symbols s' = <[n := ledger s n ++ [name]]> (renamed_symbols s)).
Proof.
  intros Hwf Hr Hit Hp Hi.
  destruct (ensure_unique_same_source prio s p g n r item Hwf Hr Hit Hp)
    as (tbl & Htbl & ->).
  rewrite Hi. simpl.
  destruct (index FORCE_PREFIX_GROUPS (group item)) as [j|] eqn:Hj.
  - destruct (decide (i < j)%nat) as [Hlt|Hge].
    + rewrite bool_decide_eq_true_2 by done. eexists _, _. split; [done|].
      split; [done|]. split.
      * intros _. split; [done|]. unfold table. simpl. rewrite get_set_eq, Htbl.
        split; [done|]. split; [|done]. intros q Hq. apply get_set_ne. congruence.
      * intros Hle. specialize (Hle j eq_refl). lia.
    + rewrite bool_decide_eq_false_2 by done. eexists _, _. split; [done|].
      split; [done|]. split; [|done]. intros (j' & [= <-] & Hlt). lia.
  - eexists _, _. split; [done|]. split; [done|]. split; [|done].
    intros (j' & [=] & _).
Qed.

(** The label [Foo] of [gamma] is in the table; [gamma] proposes [Foo]
    again, once more as a label. *)
Lemma same_source_group_precedence_witness :
  ∃ s, update_single [] "gamma" "https://gamma.example/"
         [("std:label", [("Foo", "a.html#foo")])] [] init = Some s ∧
       wf s ∧
       chain_get (doc_symbols_all s) "Foo" = Some 0%nat ∧
       (∃ item, objects s !! 0%nat = Some item ∧ "gamma" = package item) ∧
       index FORCE_PREFIX_GROUPS "label" = Some 1%nat ∧
       ∃ s', ensure_unique_symbol_name [] "gamma" "label" "Foo" s
               = Some ("label.Foo", s') ∧
             doc_symbols_new s' = doc_symbols_new s ∧
             ledger s' "Foo" = ["label.Foo"].
Proof.
  destruct (update_single [] "gamma" "https://gamma.example/"
              [("std:label", [("Foo", "a.html#foo")])] [] init)
    as [s|] eqn:Hs; [|vm_compute in Hs; discriminate].
  exists s. split; [done|].
  assert (Hwf : wf s) by (eapply update_single_wf; [exact Hs|apply wf_init]).
  split; [exact Hwf|].
  assert (Hr : chain_get (doc_symbols_all s) "Foo" = Some 0%nat).
  { vm_compute in Hs. injection Hs as <-. reflexivity. }
  split; [exact Hr|].
  assert (∃ item, objects s !! 0%nat = Some item ∧ "gamma" = package item)
    as (item & Hit & Hpkg).
  { vm_compute in Hs. injection Hs as <-. eexists. split; reflexivity. }
  split; [by exists item|].
  assert (Hi : index FORCE_PREFIX_GROUPS "label" = Some 1%nat) by reflexivity.
  split; [exact Hi|].
  destruct (same_source_group_precedence [] s "gamma" "label" "Foo" 0%nat item 1%nat
              Hwf Hr Hit Hpkg Hi) as (name & s' & Hrun & _ & _ & Hincoming).
  assert (Hgrp : group item = "label").
  { vm_compute in Hs. injection Hs as <-. vm_compute in Hit. by injection Hit as <-. }
  destruct Hincoming as (Hname & Htbl & Hledger).
  { intros j. rewrite Hgrp. intros [= <-]. lia. }
  assert (Halt : alternate_name s "label" "gamma" "label" "Foo" = "label.Foo").
  { vm_compute in Hs. injection Hs as <-. reflexivity. }
  rewrite Halt in Hname. subst name.
  exists s'. split; [exact Hrun|]. split; [exact Htbl|].
  unfold ledger. rewrite Hledger. vm_compute in Hs. injection Hs as <-. reflexivity.
Defined.

(** C4, as stated, fails on a tie: [gamma] registers the label [Foo]
    twice.  The claim has the existing entry renamed; the code leaves it
    under [Foo] alone and stores the incoming entry under [label.Foo]. *)
Lemma same_source_group_precedence_counterexample :
  ∃ s, label_twice = Some s ∧
       table s "gamma" = {["Foo" := 0%nat; "label.Foo" := 1%nat]} ∧
       symbol_name <$> objects s !! 1%nat = Some "label.Foo" ∧
       producers s "label.Foo" = [("gamma", 1%nat)] ∧
       renamed_symbols s = {["Foo" := ["label.Foo"]]}.
Proof.
  eexists. split; [vm_compute; reflexivity|]. by vm_compute.
Qed.

(** ** The loop of [update_single] returns *)

Lemma stored_table p url gname rel c bl s0 s' :
  stored p url gname rel c bl s0 s' →
  table s' p = <[c := length (objects s0)]> (table s0 p).
Proof.
  intros Hst. unfold table at 1. rewrite (stored_tables _ _ _ _ _ _ _ _ Hst).
  by rewrite get_set_eq.
Qed.

Lemma wf_table_lookup s p k r :
  wf s → table s p !! k = Some r → is_Some (objects s !! r).
Proof.
  intros [_ Hobj] Hl. unfold table in Hl.
  destruct (PyDict.get (doc_symbols_new s) p) as [tbl|] eqn:E; simpl in Hl.
  - destruct (Hobj p tbl k r) as (item & -> & _); [by apply get_Some_elem|done|eauto].
  - by rewrite lookup_empty in Hl.
Qed.

Lemma update_symbol_total prio p url g gname bl n rel s :
  wf s → PyStr.split ":" g !! 1%nat = Some gname →
  is_Some (update_symbol prio p url g bl (n, rel) s).
Proof.
  intros Hwf Hg. unfold update_symbol. rewrite Hg. simpl.
  destruct (ensure_unique_total prio p gname n s Hwf) as [[c s0] Hres].
  rewrite Hres. simpl.
  assert (Hwf0 : wf s0).
  { eapply resolution_wf; [|exact Hwf]. eapply ensure_unique_resolution, Hres. }
  destruct (PyStr.partition "#" rel) as [path sid]. simpl.
  rewrite get_set_eq. simpl.
  change (default ∅ (PyDict.get (doc_symbols_new s0) p)) with (table s0 p).
  destruct (<[c:=length (objects s0)]> (table s0 p) !! PyStr.rsplit1_head "." c)
    as [parent|] eqn:Hparent; [|eauto].
  assert (is_Some ((objects s0 ++ [mkDocItem p gname url path sid c []]) !! parent))
    as [o Ho].
  { apply lookup_insert_Some in Hparent as [[_ <-]|[_ Hl]].
    - rewrite lookup_app_r by lia. rewrite Nat.sub_diag. eauto.
    - destruct (wf_table_lookup _ _ _ _ Hwf0 Hl) as [o Ho].
      exists o. rewrite lookup_app_l; [done|]. by eapply lookup_lt_Some. }
  rewrite Ho. simpl. destruct (bool_decide (package o = p)); eauto.
Qed.

Lemma for_each_total {A} (P : DocCog → Prop) (Q : A → Prop)
    (body : A → DocCog → option DocCog) l :
  (∀ x s, Q x → P s → ∃ s', body x s = Some s' ∧ P s') →
  Forall Q l →
  ∀ s, P s → ∃ s', for_each body l s = Some s' ∧ P s'.
Proof.
  intros Hbody Hl. induction Hl as [|x l Hx Hl IH]; intros s Hs; simpl; [eauto|].
  destruct (Hbody x s Hx Hs) as (s1 & -> & Hs1). simpl. by apply IH.
Qed.

Lemma update_single_total prio p url inv bl s :
  wf s → well_keyed inv →
  ∃ s', update_single prio p url inv bl s = Some s' ∧ wf s'.
Proof.
  intros Hwf Hinv. unfold update_single.
  destruct (for_each_total wf (λ gi, is_Some (PyStr.split ":" gi.1 !! 1%nat))
              (λ '(grp, items),
                 for_each (update_symbol prio p url grp bl) items) inv) with
    (s := with_base_urls (λ m, <[p := url]> m) s) as (s1 & Hs1 & Hwf1); [|exact Hinv|exact Hwf|].
  - intros [grp items] t [gname Hg] Ht. simpl in Hg.
    apply (for_each_total wf (λ _, True)); [|by apply Forall_true|exact Ht].
    intros [n rel] u _ Hu.
    destruct (update_symbol_total prio p url grp gname bl n rel u Hu Hg) as [u' Hu'].
    exists u'. split; [done|]. by eapply update_symbol_wf.
  - rewrite Hs1. simpl. eauto.
Qed.

(** ** The [attributes] lists *)

Lemma find_last_None c s :
  PyStr.contains_char c s = false → PyStr.find_last c s = None.
Proof.
  induction s as [|a s IH]; simpl; [done|].
  intros [Ha Hs]%orb_false_elim. by rewrite (IH Hs), Ha.
Qed.

Lemma rsplit1_head_undotted c s :
  PyStr.contains_char c s = false → PyStr.rsplit1_head c s = s.
Proof. intros H. unfold PyStr.rsplit1_head. by rewrite find_last_None. Qed.

Lemma stored_children p url gname rel c bl s0 s' :
  stored p url gname rel c bl s0 s' →
  let new := length (objects s0) in
  (∃ item, objects s' !! new = Some item ∧ package item = p ∧ symbol_name item = c ∧
           (PyStr.contains_char "." c = false → new ∈ attributes item)) ∧
  (∀ parent o child,
     objects s' !! parent = Some o → child ∈ attributes o →
     (∃ o0, objects s0 !! parent = Some o0 ∧ child ∈ attributes o0) ∨
     (child = new ∧ package o = p ∧
      table s' p !! PyStr.rsplit1_head "." c = Some parent)) ∧
  (∀ parent o,
     table s' p !! PyStr.rsplit1_head "." c = Some parent →
     objects s' !! parent = Some o → package o = p → new ∈ attributes o).
Proof.
  intros Hst new.
  pose proof (stored_table _ _ _ _ _ _ _ _ Hst) as Htbl.
  pose proof (stored_objects _ _ _ _ _ _ _ _ Hst) as Hobj. simpl in Hobj.
  set (objs := objects s0 ++ [new_item p url gname rel c]) in *.
  assert (Hnew : objs !! new = Some (new_item p url gname rel c)).
  { unfold objs, new. rewrite lookup_app_r by lia. by rewrite Nat.sub_diag. }
  assert (Hold : ∀ r o, objs !! r = Some o → r ≠ new → objects s0 !! r = Some o).
  { intros r o Hr Hne. unfold objs in Hr. apply lookup_app_Some in Hr as [Hr|[Hge Hr]]; [done|].
    apply list_lookup_singleton_Some in Hr as [Hz _]. unfold new in Hne. lia. }
  assert (Hplain : objects s' = objs →
    (∃ item, objects s' !! new = Some item ∧ package item = p ∧ symbol_name item = c) ∧
    ∀ parent o child, objects s' !! parent = Some o → child ∈ attributes o →
      ∃ o0, objects s0 !! parent = Some o0 ∧ child ∈ attributes o0).
  { intros ->. split; [by exists (new_item p url gname rel c)|].
    intros parent o child Ho Hch. destruct (decide (parent = new)) as [->|Hne].
    - rewrite Hnew in Ho. injection Ho as <-. simpl in Hch. inversion Hch.
    - exists o. split; [by apply Hold|done]. }
  destruct (table s' p !! PyStr.rsplit1_head "." c) as [parent|] eqn:Hparent.
  - destruct Hobj as (o & Ho & Hobjs).
    destruct (bool_decide (package o = p)) eqn:Hpkg.
    + apply bool_decide_eq_true in Hpkg.
      assert (Hat : objects s' !! parent = Some (with_child o new)).
      { rewrite Hobjs. by apply attributes_append_eq. }
      assert (Hother : ∀ r, r ≠ parent → objects s' !! r = objs !! r).
      { intros r Hr. rewrite Hobjs. by apply attributes_append_ne. }
      split; [|split].
      * destruct (decide (new = parent)) as [Heq|Hne].
        -- rewrite <- Heq in Hat, Ho. rewrite Hnew in Ho. injection Ho as <-.
           eexists. split; [exact Hat|]. split; [done|]. split; [done|].
           intros _. simpl. apply list_elem_of_here.
        -- exists (new_item p url gname rel c). rewrite (Hother _ Hne).
           split; [done|]. split; [done|]. split; [done|]. intros Hdot.
           rewrite (rsplit1_head_undotted _ _ Hdot), Htbl, lookup_insert_eq in Hparent.
           injection Hparent as Hparent. done.
      * intros r o' child Hr Hch. destruct (decide (r = parent)) as [->|Hne].
        -- rewrite Hat in Hr. injection Hr as <-. simpl in Hch.
           apply elem_of_app in Hch as [Hch| ->%list_elem_of_singleton].
           ++ left. destruct (decide (parent = new)) as [->|Hne].
              ** rewrite Hnew in Ho. injection Ho as <-. inversion Hch.
              ** exists o. split; [by apply Hold|done].
           ++ right. done.
        -- left. rewrite (Hother _ Hne) in Hr. destruct (decide (r = new)) as [->|Hne'].
           ++ rewrite Hnew in Hr. injection Hr as <-. inversion Hch.
           ++ exists o'. split; [by apply Hold|done].
      * intros r o' [= <-] Hr _. rewrite Hat in Hr. injection Hr as <-. simpl.
        apply elem_of_app. right. apply list_elem_of_here.
    + apply bool_decide_eq_false in Hpkg. destruct (Hplain Hobjs) as [(item & ? & ? & ?) Hch].
      split; [|split].
      * exists item. split; [done|]. split; [done|]. split; [done|]. intros Hdot.
        rewrite (rsplit1_head_undotted _ _ Hdot), Htbl, lookup_insert_eq in Hparent.
        injection Hparent as Hparent. fold new in Hparent. subst parent.
        rewrite Hnew in Ho. injection Ho as <-. done.
      * intros r o' child Hr Hc. left. by eapply Hch.
      * intros r o' [= <-] Hr Hp. rewrite Hobjs, Ho in Hr. injection Hr as <-. done.
  - destruct (Hplain Hobj) as [(item & ? & ? & ?) Hch]. split; [|split].
    + exists item. split; [done|]. split; [done|]. split; [done|]. intros Hdot.
      by rewrite (rsplit1_head_undotted _ _ Hdot), Htbl, lookup_insert_eq in Hparent.
    + intros r o' child Hr Hc. left. by eapply Hch.
    + done.
Qed.

(** C9, as amended. One turn of the loop of [update_single] on a
    well-formed table allocates one entry and stores it under its
    canonical name [c].  Every membership of an [attributes] list that the
    turn creates is the new entry in the list of an entry of its own
    package, namely the one that the package's table holds under [c] cut
    before its last dot; and whenever that table holds an entry of the
    package there, the new entry is appended to it.  For a name without a
    dot the cut name is [c] itself, so the new entry lands in its own
    [attributes]. *)
Theorem attributes_rule prio (p url g gname : string) (bl : list Z) (n rel : string)
    (s : DocCog) :
  wf s →
  PyStr.split ":" g !! 1%nat = Some gname →
  ∃ s' item,
    update_symbol prio p url g bl (n, rel) s = Some s' ∧
    objects s' !! length (objects s) = Some item ∧
    package item = p ∧
    (∀ parent o child,
       objects s' !! parent = Some o → child ∈ attributes o →
       (∃ o0, objects s !! parent = Some o0 ∧ child ∈ attributes o0) ∨
       (child = length (objects s) ∧ package o = package item ∧
        table s' p !! PyStr.rsplit1_head "." (symbol_name item) = Some parent)) ∧
    (∀ parent o,
       table s' p !! PyStr.rsplit1_head "." (symbol_name item) = Some parent →
       objects s' !! parent = Some o → package o = p →
       length (objects s) ∈ attributes o) ∧
    (PyStr.contains_char "." (symbol_name item) = false →
     length (objects s) ∈ attributes item).
Proof.
  intros Hwf Hg.
  destruct (update_symbol_total prio p url g gname bl n rel s Hwf Hg) as [s' Hrun].
  destruct (update_symbol_inv _ _ _ _ _ _ _ _ _ Hrun) as (gname' & c & s0 & _ & Hres & Hst).
  apply ensure_unique_resolution, resolution_objects in Hres.
  destruct (stored_children _ _ _ _ _ _ _ _ Hst) as ((item & Hitem & Hp & Hc & Hself) & Hin & Happ).
  rewrite Hres in *. exists s', item. subst c.
  split; [done|]. split; [done|]. split; [done|]. split; [|split; [done|done]].
  intros parent o child Ho Hch. destruct (Hin parent o child Ho Hch) as [?|(? & ? & ?)].
  - by left.
  - right. split; [done|]. split; [congruence|done].
Qed.

(** [alpha] registers [Widget] in an empty table. *)
Lemma attributes_rule_witness :
  wf init ∧ PyStr.split ":" "py:class" !! 1%nat = Some "class" ∧
  ∃ s' item,
    update_symbol [] "alpha" "https://alpha.example/" "py:class" []
                  ("Widget", "api.html#Widget") init = Some s' ∧
    objects s' !! 0%nat = Some item ∧
    0%nat ∈ attributes item.
Proof.
  assert (Hg : PyStr.split ":" "py:class" !! 1%nat = Some "class") by reflexivity.
  split; [apply wf_init|]. split; [exact Hg|].
  destruct (attributes_rule [] "alpha" "https://alpha.example/" "py:class" "class" []
              "Widget" "api.html#Widget" init wf_init Hg)
    as (s' & item & Hrun & Hitem & _ & _ & _ & Hself).
  exists s', item. split; [exact Hrun|]. split; [exact Hitem|].
  apply Hself. vm_compute in Hrun. injection Hrun as <-.
  vm_compute in Hitem. by injection Hitem as <-.
Defined.

(** C9, as stated, fails for every name without a dot: after [alpha] has
    registered [Widget], the entry is a member of its own [attributes],
    although [Widget] is no dotted path. *)
Lemma attributes_rule_counterexample :
  ∃ s item,
    update_single [] "alpha" "https://alpha.example/" widget_inventory [] init = Some s ∧
    objects s !! 0%nat = Some item ∧
    symbol_name item = "Widget" ∧
    PyStr.contains_char "." (symbol_name item) = false ∧
    attributes item = [0%nat].
Proof.
  eexists _, _. split; [vm_compute; reflexivity|]. by vm_compute.
Qed.

(** ** Registering a source again *)

Arguments update_symbol : simpl never.

Lemma for_each_entries (body : string → string * string → DocCog → option DocCog) inv s :
  for_each (λ '(grp, items), for_each (body grp) items) inv s
  = for_each (λ e, body e.1 e.2) (inventory_entries inv) s.
Proof.
  revert s. induction inv as [|[grp items] inv IH]; intros s; [done|].
  unfold inventory_entries. rewrite bind_cons, for_each_app. simpl.
  assert (for_each (body grp) items s
          = for_each (λ e, body e.1 e.2) (pair grp <$> items) s) as ->.
  { clear. revert s. induction items as [|e items IH]; intros s; simpl; [done|].
    destruct (body grp e s); simpl; [apply IH|done]. }
  destruct (for_each _ (pair grp <$> items) s); simpl; [apply IH|done].
Qed.

Lemma resolution_ledger s p g n name s' :
  resolution s p g n name s' →
  (¬ in_view s n ∧ renamed_symbols s' = renamed_symbols s) ∨
  (in_view s n ∧ ∃ alt, renamed_symbols s' = <[n := ledger s n ++ [alt]]> (renamed_symbols s)).
Proof.
  unfold in_view.
  destruct 1 as [Hr|r it pre Hr Hit|r it pre tbl Hr Hit Htbl]; rewrite Hr.
  - left. split; [by intros [??]|done].
  - right. split; [eauto|]. by eexists.
  - right. split; [eauto|]. by eexists.
Qed.

(** One turn: the view keeps its names and gains the proposed one; the
    ledger grows by one name exactly when the proposed name was taken. *)
Lemma update_symbol_ledger prio p url g bl n rel s s' :
  update_symbol prio p url g bl (n, rel) s = Some s' →
  (∀ k, in_view s k → in_view s' k) ∧ in_view s' n ∧
  ∀ m, ∃ added,
    ledger s' m = ledger s m ++ added ∧
    length added = if decide (in_view s n ∧ n = m) then 1%nat else 0%nat.
Proof.
  intros (gname & c & s0 & _ & Hres%ensure_unique_resolution & Hst)%update_symbol_inv.
  assert (Hmono : ∀ k, in_view s k → in_view s' k).
  { intros k Hk. eapply stored_view; [exact Hst|]. left. by eapply resolution_view. }
  split; [exact Hmono|]. split.
  - destruct Hres as [Hr|r it pre Hr Hit|r it pre tbl Hr Hit Htbl].
    + eapply stored_view; [exact Hst|]. by right.
    + apply Hmono. unfold in_view. rewrite Hr. eauto.
    + apply Hmono. unfold in_view. rewrite Hr. eauto.
  - intros m. unfold ledger. rewrite (stored_ledger _ _ _ _ _ _ _ _ Hst).
    destruct (resolution_ledger _ _ _ _ _ _ Hres) as [[Hfree ->]|[Htaken [alt ->]]].
    + exists []. rewrite app_nil_r. split; [done|].
      rewrite decide_False; [done|]. by intros [? _].
    + destruct (decide (n = m)) as [->|Hne].
      * exists [alt]. rewrite lookup_insert_eq. simpl. split; [done|].
        by rewrite decide_True.
      * exists []. rewrite lookup_insert_ne by done. rewrite app_nil_r. split; [done|].
        rewrite decide_False; [done|]. by intros [_ ?].
Qed.

Lemma pass_view prio p url bl entries s s' :
  for_each (λ e, update_symbol prio p url e.1 bl e.2) entries s = Some s' →
  (∀ k, in_view s k → in_view s' k) ∧ ∀ e, e ∈ entries → in_view s' e.2.1.
Proof.
  revert s. induction entries as [|[g [n rel]] entries IH]; intros s; simpl.
  - intros [= <-]. split; [done|]. intros e He. inversion He.
  - destruct (update_symbol prio p url g bl (n, rel) s) as [s1|] eqn:E; simpl; [|done].
    intros Hrest. destruct (update_symbol_ledger _ _ _ _ _ _ _ _ _ E) as (Hmono & Hn & _).
    destruct (IH _ Hrest) as [Hmono' Hall]. split; [auto|].
    intros e [->|He]%elem_of_cons; [|auto]. simpl. auto.
Qed.

Lemma pass_ledger prio p url bl entries s s' :
  (∀ e, e ∈ entries → in_view s e.2.1) →
  for_each (λ e, update_symbol prio p url e.1 bl e.2) entries s = Some s' →
  ∀ m, ∃ added,
    ledger s' m = ledger s m ++ added ∧
    length added = length (filter (λ e, e.2.1 = m) entries).
Proof.
  revert s. induction entries as [|[g [n rel]] entries IH]; intros s Hview; simpl.
  - intros [= <-] m. exists []. by rewrite app_nil_r.
  - destruct (update_symbol prio p url g bl (n, rel) s) as [s1|] eqn:E; simpl; [|done].
    intros Hrest m.
    destruct (update_symbol_ledger _ _ _ _ _ _ _ _ _ E) as (Hmono & _ & Hled).
    destruct (Hled m) as (a1 & Ha1 & Hl1).
    destruct (IH s1) with (m := m) as (a2 & Ha2 & Hl2); [|exact Hrest|].
    { intros e He. apply Hmono, Hview. by apply list_elem_of_further. }
    exists (a1 ++ a2). rewrite Ha2, Ha1, app_assoc. split; [done|].
    rewrite length_app, Hl1, Hl2.
    assert (in_view s n) as Hn by (apply (Hview (g, (n, rel))), list_elem_of_here).
    destruct (decide (n = m)) as [->|Hne].
    + rewrite decide_True by done. by rewrite filter_cons_True.
    + rewrite decide_False by (by intros [_ ?]). by rewrite filter_cons_False.
Qed.

(** C3, as amended. Registering a source a second time with the same
    inventory returns, but it is no repetition of the first time: by then
    the flattened view has every proposed name, so every entry of the
    inventory runs into a conflict, and the ledger's list for each name
    grows by one alternate name per entry that proposes the name. *)
Theorem reregistration_extends_ledger prio (p url : string) (inv : InventoryDict)
    (bl : list Z) (s : DocCog) :
  wf s → well_keyed inv →
  ∃ s1 s2,
    update_single prio p url inv bl s = Some s1 ∧
    update_single prio p url inv bl s1 = Some s2 ∧
    (∀ name, (0 < proposals inv name)%nat → in_view s1 name) ∧
    ∀ name, ∃ added,
      ledger s2 name = ledger s1 name ++ added ∧
      length added = proposals inv name.
Proof.
  intros Hwf Hinv.
  destruct (update_single_total prio p url inv bl s Hwf Hinv) as (s1 & Hs1 & Hwf1).
  destruct (update_single_total prio p url inv bl s1 Hwf1 Hinv) as (s2 & Hs2 & _).
  exists s1, s2. split; [done|]. split; [done|].
  unfold update_single in Hs1, Hs2. rewrite for_each_entries in Hs1, Hs2.
  destruct (for_each _ (inventory_entries inv) (with_base_urls _ s)) as [t1|] eqn:E1;
    simpl in Hs1; [|done]. injection Hs1 as <-.
  destruct (for_each _ (inventory_entries inv) (with_base_urls _ (log_msg _ _ t1)))
    as [t2|] eqn:E2; simpl in Hs2; [|done]. injection Hs2 as <-.
  destruct (pass_view _ _ _ _ _ _ _ E1) as [_ Hall].
  assert (Hview : ∀ e, e ∈ inventory_entries inv → in_view t1 e.2.1) by exact Hall.
  split.
  - intros name Hpos. unfold proposals in Hpos.
    destruct (filter (λ e, e.2.1 = name) (inventory_entries inv)) as [|e l] eqn:Ef;
      [simpl in Hpos; lia|].
    assert (e ∈ filter (λ e, e.2.1 = name) (inventory_entries inv)) as Hin
      by (rewrite Ef; apply list_elem_of_here).
    apply list_elem_of_filter in Hin as [<- Hin]. by apply Hview.
  - intros name. refine (pass_ledger _ _ _ _ _ _ _ _ E2 name). exact Hview.
Qed.

(** [alpha] registers [Widget] twice, starting from an empty table. *)
Lemma reregistration_extends_ledger_witness :
  wf init ∧ well_keyed widget_inventory ∧
  ∃ s1 s2,
    update_single [] "alpha" "https://alpha.example/" widget_inventory [] init = Some s1 ∧
    update_single [] "alpha" "https://alpha.example/" widget_inventory [] s1 = Some s2 ∧
    length (ledger s2 "Widget") = S (length (ledger s1 "Widget")).
Proof.
  assert (Hk : well_keyed widget_inventory).
  { repeat constructor. simpl. eauto. }
  split; [apply wf_init|]. split; [exact Hk|].
  destruct (reregistration_extends_ledger [] "alpha" "https://alpha.example/"
              widget_inventory [] init wf_init Hk) as (s1 & s2 & H1 & H2 & _ & Hled).
  exists s1, s2. split; [exact H1|]. split; [exact H2|].
  destruct (Hled "Widget") as (added & -> & Hlen).
  rewrite length_app, Hlen.
  assert (proposals widget_inventory "Widget" = 1%nat) as -> by reflexivity. lia.
Defined.

(** C3, as stated, fails.  When [alpha] registers [Widget] a second time
    the ledger, empty before, gets [Widget → [class.Widget]].  When
    [gamma] registers the label [Foo] a second time, the entry that was
    [Foo] the first time is [label.Foo] the second time. *)
Lemma reregistration_extends_ledger_counterexample :
  (∃ s1 s2,
     update_single [] "alpha" "https://alpha.example/" widget_inventory [] init = Some s1 ∧
     update_single [] "alpha" "https://alpha.example/" widget_inventory [] s1 = Some s2 ∧
     renamed_symbols s1 = ∅ ∧
     renamed_symbols s2 = {["Widget" := ["class.Widget"]]} ∧
     renamed_symbols s2 ≠ renamed_symbols s1)
  ∧ (∃ s1 s2,
       update_single [] "gamma" "https://gamma.example/" label_inventory [] init = Some s1 ∧
       update_single [] "gamma" "https://gamma.example/" label_inventory [] s1 = Some s2 ∧
       symbol_name <$> objects s1 !! 0%nat = Some "Foo" ∧
       symbol_name <$> objects s2 !! 1%nat = Some "label.Foo").
Proof.
  split.
  - eexists _, _. split; [vm_compute; reflexivity|].
    split; [vm_compute; reflexivity|]. split; [by vm_compute|].
    split; [by vm_compute|]. vm_compute. discriminate.
  - eexists _, _. split; [vm_compute; reflexivity|].
    split; [vm_compute; reflexivity|]. by vm_compute.
Qed.

(** ** A bad header stays local *)

(** Nothing that the cog does depends on what was logged before. *)
Lemma rename_prepend_log L p g n it pre ext s :
  rename p g n it pre ext (prepend_log L s)
  = (λ '(nm, t), (nm, prepend_log L t)) <$> rename p g n it pre ext s.
Proof.
  unfold rename.
  change (in_doc_symbols_all (prepend_log L s)) with (in_doc_symbols_all s).
  destruct ext; [|done].
  change (doc_symbols_all (ledger_append ?a ?b (prepend_log L s))) with (doc_symbols_all s).
  change (doc_symbols_all (ledger_append ?a ?b s)) with (doc_symbols_all s).
  destruct (chain_get (doc_symbols_all s) n) as [r|]; [|done]. simpl.
  destruct (objects s !! r) as [c|]; [|done]. simpl.
  destruct (PyDict.get (doc_symbols_new s) (package c)); done.
Qed.

Lemma ensure_unique_prepend_log prio L p g n s :
  ensure_unique_symbol_name prio p g n (prepend_log L s)
  = (λ '(nm, t), (nm, prepend_log L t)) <$> ensure_unique_symbol_name prio p g n s.
Proof.
  unfold ensure_unique_symbol_name.
  change (doc_symbols_all (prepend_log L s)) with (doc_symbols_all s).
  change (objects (prepend_log L s)) with (objects s).
  destruct (chain_get (doc_symbols_all s) n) as [r|]; [|done].
  destruct (objects s !! r) as [it|]; [|done]. simpl.
  destruct (negb _).
  { destruct (bool_decide (p ∈ prio)); apply rename_prepend_log. }
  destruct (bool_decide (g ∈ FORCE_PREFIX_GROUPS)); [|apply rename_prepend_log].
  destruct (bool_decide (group it ∈ FORCE_PREFIX_GROUPS)); simpl.
  - destruct (index FORCE_PREFIX_GROUPS g); [|done]. simpl.
    destruct (index FORCE_PREFIX_GROUPS (group it)); [|done]. simpl.
    apply rename_prepend_log.
  - apply rename_prepend_log.
Qed.

Lemma update_symbol_prepend_log prio L p url g bl e s :
  update_symbol prio p url g bl e (prepend_log L s)
  = prepend_log L <$> update_symbol prio p url g bl e s.
Proof.
  destruct e as [n rel]. unfold update_symbol.
  destruct (PyStr.split ":" g !! 1%nat) as [gname|]; simpl; [|done].
  rewrite ensure_unique_prepend_log.
  destruct (ensure_unique_symbol_name prio p gname n s) as [[c s0]|]; simpl; [|done].
  destruct (PyStr.partition "#" rel) as [path sid]. simpl.
  rewrite !get_set_eq. simpl.
  destruct (<[c:=length (objects s0)]> (default ∅ (PyDict.get (doc_symbols_new s0) p))
              !! PyStr.rsplit1_head "." c) as [parent|]; [|done].
  destruct ((objects s0 ++ [mkDocItem p gname url path sid c []]) !! parent) as [o|];
    simpl; [|done].
  destruct (bool_decide (package o = p)); done.
Qed.

Lemma for_each_prepend_log {A} (body : A → DocCog → option DocCog) L l s :
  (∀ x t, body x (prepend_log L t) = prepend_log L <$> body x t) →
  for_each body l (prepend_log L s) = prepend_log L <$> for_each body l s.
Proof.
  intros Hbody. revert s. induction l as [|x l IH]; intros s; simpl; [done|].
  rewrite Hbody. destruct (body x s) as [s1|]; simpl; [apply IH|done].
Qed.

Lemma log_msg_prepend_log L lvl msg s :
  log_msg lvl msg (prepend_log L s) = prepend_log L (log_msg lvl msg s).
Proof. unfold log_msg, prepend_log. simpl. by rewrite app_assoc. Qed.

Lemma update_single_prepend_log prio L p url inv bl s :
  update_single prio p url inv bl (prepend_log L s)
  = prepend_log L <$> update_single prio p url inv bl s.
Proof.
  unfold update_single.
  change (with_base_urls ?f (prepend_log L s)) with (prepend_log L (with_base_urls f s)).
  rewrite for_each_prepend_log.
  - destruct (for_each _ inv _) as [s1|]; simpl; [|done]. by rewrite log_msg_prepend_log.
  - intros [grp items] t. apply for_each_prepend_log. intros e u.
    apply update_symbol_prepend_log.
Qed.

Lemma update_or_reschedule_prepend_log prio gd gn L pkg b u fetched s :
  update_or_reschedule_inventory prio gd gn pkg b u fetched (prepend_log L s)
  = prepend_log L <$> update_or_reschedule_inventory prio gd gn pkg b u fetched s.
Proof.
  unfold update_or_reschedule_inventory. destruct fetched as [e|package].
  - simpl. by rewrite log_msg_prepend_log.
  - destruct (falsy package).
    + change (inventory_scheduler (prepend_log L s)) with (inventory_scheduler s).
      destruct (scheduler_contains pkg (inventory_scheduler s)); simpl;
        unfold with_inventory_scheduler, log_msg, prepend_log; simpl;
        by rewrite app_assoc.
    + apply update_single_prepend_log.
Qed.

Lemma gather_prepend_log prio gd gn L packages s :
  gather prio gd gn packages (prepend_log L s)
  = prepend_log L <$> gather prio gd gn packages s.
Proof.
  unfold gather. apply for_each_prepend_log.
  intros [[[pkg b] u] fetched] t. apply update_or_reschedule_prepend_log.
Qed.

Lemma same_tables_prepend_erase s : s = prepend_log (log s) (erase_log s).
Proof. destruct s. unfold prepend_log, erase_log. simpl. by rewrite app_nil_r. Qed.

Lemma same_tables_prepend L1 L2 s : same_tables (prepend_log L1 s) (prepend_log L2 s).
Proof. by repeat split. Qed.

Lemma gather_same_tables prio gd gn packages s t :
  same_tables s t →
  match gather prio gd gn packages s, gather prio gd gn packages t with
  | Some s', Some t' => same_tables s' t'
  | None, None => True
  | _, _ => False
  end.
Proof.
  intros (H1 & H2 & H3 & H4 & H5 & H6).
  assert (erase_log s = erase_log t) as He.
  { unfold erase_log. by rewrite H1, H2, H3, H4, H5, H6. }
  rewrite (same_tables_prepend_erase s), (same_tables_prepend_erase t), He.
  rewrite !gather_prepend_log.
  destruct (gather prio gd gn packages (erase_log t)); simpl; [|done].
  apply same_tables_prepend.
Qed.

Lemma gather_app prio gd gn l1 l2 s :
  gather prio gd gn (l1 ++ l2) s = gather prio gd gn l1 s ≫= gather prio gd gn l2.
Proof. apply for_each_app. Qed.

(** C8. When the fetch of a source raises [InvalidHeaderError],
    [update_or_reschedule_inventory] returns with one more warning in the
    log and nothing else changed: neither the tables, the ledger and the
    registry nor the retry timers.  Within a refresh the other sources are
    merged as if the failing source were not configured: the refresh with
    it raises exactly when the refresh without it does, and otherwise the
    two end in states that differ in the log alone. *)
Theorem invalid_header_is_isolated prio gd gn (package_name base_url inventory_url e : string)
    (before after : list (string * string * string * FetchOutcome)) (s : DocCog) :
  (∃ s', update_or_reschedule_inventory prio gd gn package_name base_url inventory_url
           (FetchInvalidHeader e) s = Some s' ∧
         same_tables s s' ∧
         log s' = log s ++ [invalid_header_warning inventory_url e])
  ∧ match refresh_inventories prio gd gn
            (before ++ (package_name, base_url, inventory_url, FetchInvalidHeader e) :: after) s,
          refresh_inventories prio gd gn (before ++ after) s with
    | Some t, Some t' =>
        same_tables t t' ∧ In (invalid_header_warning inventory_url e) (log t)
    | None, None => True
    | _, _ => False
    end.
Proof.
  split.
  - eexists. split; [reflexivity|]. split; [by repeat split|done].
  - unfold refresh_inventories. rewrite !gather_app.
    set (s0 := with_renamed_symbols _ _).
    destruct (gather prio gd gn before s0) as [s1|] eqn:E1; [|done].
    set (s1' := log_msg WARNING (invalid_header_warning inventory_url e).2 s1).
    change (Some s1 ≫= gather prio gd gn
              ((package_name, base_url, inventory_url, FetchInvalidHeader e) :: after))
      with (gather prio gd gn after s1').
    change (Some s1 ≫= gather prio gd gn after) with (gather prio gd gn after s1).
    assert (Hst : same_tables s1' s1) by (by repeat split).
    pose proof (gather_same_tables prio gd gn after _ _ Hst) as Hg.
    assert (Hlog : s1' = prepend_log (log s1 ++ [invalid_header_warning inventory_url e])
                                     (erase_log s1)).
    { unfold s1', log_msg, prepend_log, erase_log. simpl. by rewrite app_nil_r. }
    assert (Hin : ∀ t, gather prio gd gn after s1' = Some t →
                       In (invalid_header_warning inventory_url e) (log t)).
    { intros t Ht. rewrite Hlog, gather_prepend_log in Ht.
      destruct (gather prio gd gn after (erase_log s1)) as [t0|]; simpl in Ht; [|done].
      injection Ht as <-. simpl. apply in_or_app. left. apply in_or_app. right.
      by left. }
    destruct (gather prio gd gn after s1') as [t|],
             (gather prio gd gn after s1) as [t'|]; simpl; try done.
    split; [|apply in_or_app; left; by apply Hin].
    destruct Hg as (? & ? & ? & ? & ? & ?). by repeat split.
Qed.

(** ** Uniqueness is lost in the priority branch *)

(** [beta] is a priority source and registers [Widget] after [alpha] did:
    the flattened view has [Widget] from two tables, and the lookup
    answers with the entry of [alpha], which hides the one of the priority
    source. *)
Lemma alpha_then_priority_beta :
  ∃ s, alpha_then_beta ["beta"] = Some s ∧
       producers s "Widget" = [("alpha", 0%nat); ("beta", 1%nat)] ∧
       producers s "alpha.Widget" = [("alpha", 0%nat)] ∧
       package <$> resolve s "Widget" = Some "alpha".
Proof.
  eexists. split; [vm_compute; reflexivity|]. by vm_compute.
Qed.

Lemma elem_of_producers s name pkg r :
  (pkg, r) ∈ producers s name ↔
  ∃ tbl : gmap string ref, (pkg, tbl) ∈ doc_symbols_new s ∧ tbl !! name = Some r.
Proof.
  unfold producers. rewrite list_elem_of_omap. split.
  - intros ([pkg' tbl] & Hin & Hf). destruct (tbl !! name) as [r'|] eqn:E; [|done].
    simpl in Hf. injection Hf as <- <-. eauto.
  - intros (tbl & Hin & Hl). exists (pkg, tbl). split; [done|]. by rewrite Hl.
Qed.

Lemma elem_set_other {V} (d : list (string * V)) k v k' v' :
  (k', v') ∈ d → k' ≠ k → (k', v') ∈ PyDict.set d k v.
Proof.
  intros Hin Hne. induction d as [|[k0 v0] d IH]; [inversion Hin|]. simpl.
  apply elem_of_cons in Hin as [[= <- <-]|Hin].
  - rewrite decide_False by done. apply list_elem_of_here.
  - destruct (decide (k0 = k)); apply list_elem_of_further; auto.
Qed.

(** C1. Where the claim fails: source [p] is a priority source and
    proposes a name [n] that the flattened view resolves to an entry [r]
    of another source.  After the turn of [update_single] the existing
    entry is still stored under [n] in the table of its own source, next
    to the incoming entry stored under [n] in the table of [p]: the
    flattened view has [n] from two entries. *)
Theorem priority_rename_keeps_old_key prio (p url g gname : string) (bl : list Z)
    (n rel : string) (s : DocCog) (r : ref) (item : DocItem) :
  wf s →
  PyStr.split ":" g !! 1%nat = Some gname →
  chain_get (doc_symbols_all s) n = Some r →
  objects s !! r = Some item →
  p ≠ package item →
  p ∈ prio →
  ∃ s', update_symbol prio p url g bl (n, rel) s = Some s' ∧
        (package item, r) ∈ producers s' n ∧
        (p, length (objects s)) ∈ producers s' n ∧
        r ≠ length (objects s).
Proof.
  intros Hwf Hg Hr Hit Hne Hp.
  destruct (update_symbol_total prio p url g gname bl n rel s Hwf Hg) as [s' Hrun].
  exists s'. split; [done|].
  destruct (update_symbol_inv _ _ _ _ _ _ _ _ _ Hrun) as (gname' & c & s0 & Hg' & Hres & Hst).
  rewrite Hg in Hg'. injection Hg' as <-.
  destruct (wf_chain_get _ _ _ Hwf Hr) as (item' & tbl' & Hit' & Htbl' & Hn).
  rewrite Hit in Hit'. injection Hit' as <-.
  destruct (ensure_unique_cross_source prio s p gname n r item Hwf Hr Hit Hne)
    as (tbl & Htbl & Hrun0).
  rewrite Htbl' in Htbl. injection Htbl as <-.
  rewrite Hres, bool_decide_eq_true_2 in Hrun0 by done. injection Hrun0 as -> ->.
  pose proof (stored_tables _ _ _ _ _ _ _ _ Hst) as Htables. simpl in Htables.
  split; [|split].
  - apply elem_of_producers.
    exists (<[alternate_name s (package item) (package item) (group item) n := r]> tbl').
    split.
    + rewrite Htables. apply elem_set_other; [|done]. apply get_Some_elem, get_set_eq.
    + destruct (decide (alternate_name s (package item) (package item) (group item) n = n))
        as [->|Hd]; [by rewrite lookup_insert_eq|by rewrite lookup_insert_ne].
  - apply elem_of_producers. eexists. split.
    + rewrite Htables. apply get_Some_elem, get_set_eq.
    + by rewrite lookup_insert_eq.
  - apply lookup_lt_Some in Hit. lia.
Qed.

(** The entry of [alpha] is in the table; [beta], a priority source,
    registers [Widget]. *)
Lemma priority_rename_keeps_old_key_witness :
  ∃ s, update_single ["beta"] "alpha" "https://alpha.example/" widget_inventory [] init
         = Some s ∧
       wf s ∧
       PyStr.split ":" "py:class" !! 1%nat = Some "class" ∧
       chain_get (doc_symbols_all s) "Widget" = Some 0%nat ∧
       (∃ item, objects s !! 0%nat = Some item ∧ "beta" ≠ package item ∧
                package item = "alpha") ∧
       "beta" ∈ ["beta"] ∧
       ∃ s', update_symbol ["beta"] "beta" "https://beta.example/" "py:class" []
                           ("Widget", "api.html#Widget") s = Some s' ∧
             ("alpha", 0%nat) ∈ producers s' "Widget" ∧
             ("beta", 1%nat) ∈ producers s' "Widget".
Proof.
  destruct (update_single ["beta"] "alpha" "https://alpha.example/" widget_inventory [] init)
    as [s|] eqn:Hs; [|vm_compute in Hs; discriminate].
  exists s. split; [done|].
  assert (Hwf : wf s) by (eapply update_single_wf; [exact Hs|apply wf_init]).
  split; [exact Hwf|].
  assert (Hg : PyStr.split ":" "py:class" !! 1%nat = Some "class") by reflexivity.
  split; [exact Hg|].
  assert (Hr : chain_get (doc_symbols_all s) "Widget" = Some 0%nat).
  { vm_compute in Hs. injection Hs as <-. reflexivity. }
  split; [exact Hr|].
  assert (∃ item, objects s !! 0%nat = Some item ∧ "beta" ≠ package item ∧
                  package item = "alpha") as (item & Hit & Hne & Hpkg).
  { vm_compute in Hs. injection Hs as <-. eexists. split; [reflexivity|]. by vm_compute. }
  split; [by exists item|].
  assert (Hp : "beta" ∈ ["beta"]) by apply list_elem_of_here.
  split; [exact Hp|].
  destruct (priority_rename_keeps_old_key ["beta"] "beta" "https://beta.example/" "py:class"
              "class" [] "Widget" "api.html#Widget" s 0%nat item Hwf Hg Hr Hit Hne Hp)
    as (s' & Hrun & Hold & Hnew & _).
  exists s'. split; [exact Hrun|]. rewrite Hpkg in Hold. split; [exact Hold|].
  assert (length (objects s) = 1%nat) as Hlen.
  { vm_compute in Hs. injection Hs as <-. reflexivity. }
  by rewrite Hlen in Hnew.
Defined.

(** * Further properties of the builder *)

(** ** When [update_single] returns *)

Lemma update_symbol_unkeyed prio p url g bl e s :
  PyStr.split ":" g !! 1%nat = None → update_symbol prio p url g bl e s = None.
Proof. intros Hg. destruct e as [n rel]. unfold update_symbol. by rewrite Hg. Qed.

Lemma items_loop_returns prio p url g bl items s :
  wf s → items = [] ∨ is_Some (PyStr.split ":" g !! 1%nat) →
  ∃ s', for_each (update_symbol prio p url g bl) items s = Some s' ∧ wf s'.
Proof.
  intros Hwf [->|[gname Hg]]; [by exists s|].
  apply (for_each_total wf (λ _, True)); [|by apply Forall_true|exact Hwf].
  intros [n rel] u _ Hu.
  destruct (update_symbol_total prio p url g gname bl n rel u Hu Hg) as [u' Hu'].
  exists u'. split; [done|]. by eapply update_symbol_wf.
Qed.

Lemma items_loop_raises prio p url g bl items s :
  items ≠ [] → PyStr.split ":" g !! 1%nat = None →
  for_each (update_symbol prio p url g bl) items s = None.
Proof.
  intros Hne Hg. destruct items as [|e items]; [done|]. simpl.
  by rewrite update_symbol_unkeyed.
Qed.

Lemma groups_loop_returns prio p url bl inv s :
  wf s →
  (is_Some (for_each (λ '(g, items), for_each (update_symbol prio p url g bl) items) inv s)
   ↔ keyed_or_empty inv)
  ∧ ∀ s', for_each (λ '(g, items), for_each (update_symbol prio p url g bl) items) inv s
            = Some s' → wf s'.
Proof.
  revert s. induction inv as [|[g items] inv IH]; intros s Hwf.
  - split; [|by intros s' [= <-]]. split; [by constructor|eauto].
  - simpl. destruct (decide (items = [] ∨ is_Some (PyStr.split ":" g !! 1%nat))) as [Hok|Hbad].
    + destruct (items_loop_returns prio p url g bl items s Hwf Hok) as (s1 & -> & Hwf1).
      simpl. destruct (IH s1 Hwf1) as [Hiff Hwf'].
      split; [|exact Hwf']. rewrite Hiff. unfold keyed_or_empty.
      rewrite Forall_cons. simpl. tauto.
    + rewrite items_loop_raises.
      * simpl. split; [|done]. split; [by intros [??]|].
        intros [Hhd _]%Forall_cons. by destruct Hbad.
      * intros ->. apply Hbad. by left.
      * destruct (PyStr.split ":" g !! 1%nat) eqn:E; [|done].
        destruct Hbad. right. eauto.
Qed.

(** X1. On a well-formed table [update_single] returns exactly when every
    group that has an entry has a key with a colon in it (otherwise
    [group.split(":")[1]] raises); a group without entries is skipped
    whatever its key.  It never fails on a lookup, and the table it leaves
    is well formed again. *)
Theorem update_single_returns prio (p url : string) (inv : InventoryDict) (bl : list Z)
    (s : DocCog) :
  wf s →
  (is_Some (update_single prio p url inv bl s) ↔ keyed_or_empty inv) ∧
  ∀ s', update_single prio p url inv bl s = Some s' → wf s'.
Proof.
  intros Hwf. unfold update_single.
  destruct (groups_loop_returns prio p url bl inv
              (with_base_urls (λ m, <[p := url]> m) s) Hwf) as [Hiff Hwf'].
  split.
  - rewrite <- Hiff.
    destruct (for_each _ inv _) as [s1|]; simpl; split; intros [??]; eauto; done.
  - intros s' H. destruct (for_each _ inv _) as [s1|]; simpl in H; [|done].
    injection H as <-. by apply (Hwf' s1).
Qed.

(** A group without entries and without a colon is harmless, one with an
    entry is not. *)
Lemma update_single_returns_witness :
  wf init ∧
  is_Some (update_single [] "alpha" "https://alpha.example/"
             [("broken", []); ("py:class", [("Widget", "api.html#Widget")])] [] init) ∧
  update_single [] "alpha" "https://alpha.example/"
    [("py:class", [("Widget", "api.html#Widget")]); ("broken", [("x", "y")])] [] init = None.
Proof.
  split; [apply wf_init|]. split.
  - apply (proj1 (update_single_returns [] "alpha" "https://alpha.example/" _ [] init wf_init)).
    apply Forall_cons. split; [by left|].
    apply Forall_cons. split; [right; simpl; eauto|constructor].
  - destruct (update_single [] "alpha" "https://alpha.example/" _ [] init) as [s'|] eqn:E;
      [|done].
    assert (is_Some (update_single [] "alpha" "https://alpha.example/"
              [("py:class", [("Widget", "api.html#Widget")]); ("broken", [("x", "y")])]
              [] init)) as H by (rewrite E; eauto).
    apply (proj1 (update_single_returns [] "alpha" "https://alpha.example/" _ [] init wf_init))
      in H.
    apply Forall_cons in H as [_ [[H|[? H]] _]%Forall_cons]; simpl in H; discriminate.
Defined.

(** ** What one turn of the loop keeps *)

Lemma append_assoc (a b c : string) : (a +:+ b) +:+ c = a +:+ b +:+ c.
Proof.
  induction a as [|x a IH]; [done|].
  change (String x ((a +:+ b) +:+ c) = String x (a +:+ b +:+ c)). by f_equal.
Qed.

Lemma alternate_name_dotted s pre pk gr n : dotted_extension n (alternate_name s pre pk gr n).
Proof.
  unfold alternate_name. destruct (in_doc_symbols_all s _).
  - exists (pk +:+ "." +:+ gr). by rewrite !append_assoc.
  - by exists pre.
Qed.

Lemma get_Some_keys {V} (d : list (string * V)) k v :
  PyDict.get d k = Some v → k ∈ PyDict.keys d.
Proof. intros H%get_Some_elem. by eapply elem_keys. Qed.

Lemma get_is_Some_keys {V} (d : list (string * V)) k :
  k ∈ PyDict.keys d → is_Some (PyDict.get d k).
Proof.
  intros H. destruct (PyDict.get d k) eqn:E; [eauto|]. by apply get_None_keys in E.
Qed.

Lemma resolution_keys s p g n c s0 :
  resolution s p g n c s0 → PyDict.keys (doc_symbols_new s0) = PyDict.keys (doc_symbols_new s).
Proof.
  destruct 1 as [|r it pre Hr Hit|r it pre tbl Hr Hit Htbl]; [done|done|].
  simpl. rewrite keys_set. rewrite decide_True; [done|]. by eapply get_Some_keys.
Qed.

Lemma stored_keys p url gname rel c bl s0 s' :
  stored p url gname rel c bl s0 s' →
  PyDict.keys (doc_symbols_new s') =
    if decide (p ∈ PyDict.keys (doc_symbols_new s0))
    then PyDict.keys (doc_symbols_new s0) else PyDict.keys (doc_symbols_new s0) ++ [p].
Proof. intros Hst. rewrite (stored_tables _ _ _ _ _ _ _ _ Hst). apply keys_set. Qed.

Lemma stored_other_tables p url gname rel c bl s0 s' q :
  stored p url gname rel c bl s0 s' → q ≠ p →
  PyDict.get (doc_symbols_new s') q = PyDict.get (doc_symbols_new s0) q.
Proof.
  intros Hst Hq. rewrite (stored_tables _ _ _ _ _ _ _ _ Hst). by apply get_set_ne.
Qed.

(** Outside the priority branch name resolution writes to the table of the
    incoming source only. *)
Lemma ensure_unique_other_tables prio p g n s c s0 q :
  ensure_unique_symbol_name prio p g n s = Some (c, s0) →
  p ∉ prio → q ≠ p →
  PyDict.get (doc_symbols_new s0) q = PyDict.get (doc_symbols_new s) q.
Proof.
  intros Hrun Hp Hq. unfold ensure_unique_symbol_name in Hrun.
  destruct (chain_get (doc_symbols_all s) n) as [r|] eqn:Hr; [|by injection Hrun as <- <-].
  destruct (objects s !! r) as [it|] eqn:Hit; [|done]. simpl in Hrun.
  assert (∀ pre, rename p g n it pre false s = Some (c, s0) →
                 PyDict.get (doc_symbols_new s0) q = PyDict.get (doc_symbols_new s) q) as Hin.
  { intros pre. rewrite rename_incoming. by intros [= <- <-]. }
  assert (∀ pre, p = package it → rename p g n it pre true s = Some (c, s0) →
                 PyDict.get (doc_symbols_new s0) q = PyDict.get (doc_symbols_new s) q) as Hex.
  { intros pre Hpkg Hren.
    destruct (PyDict.get (doc_symbols_new s) (package it)) as [tbl|] eqn:Htbl.
    - rewrite (rename_extant _ _ _ _ _ _ _ _ Hr Hit Htbl) in Hren. injection Hren as <- <-.
      simpl. apply get_set_ne. congruence.
    - apply (rename_resolution _ _ _ _ _ _ _ _ _ _ Hr Hit) in Hren.
      destruct Hren as [| |r' it' pre' tbl' Hr' Hit' Htbl']; [done|done|].
      rewrite Hr in Hr'. injection Hr' as <-. rewrite Hit in Hit'. injection Hit' as <-.
      congruence. }
  destruct (bool_decide (p = package it)) eqn:Hsame; simpl in Hrun.
  - apply bool_decide_eq_true in Hsame.
    destruct (bool_decide (g ∈ FORCE_PREFIX_GROUPS)); [|by eapply Hex].
    destruct (bool_decide (group it ∈ FORCE_PREFIX_GROUPS)); simpl in Hrun.
    + destruct (index FORCE_PREFIX_GROUPS g); [|done]. simpl in Hrun.
      destruct (index FORCE_PREFIX_GROUPS (group it)); [|done]. simpl in Hrun.
      destruct (bool_decide _); [by eapply Hex|by eapply Hin].
    + by eapply Hin.
  - rewrite bool_decide_eq_false_2 in Hrun by done. by eapply Hin.
Qed.

Lemma extends_refl objs : extends objs objs.
Proof.
  split; [done|]. intros r o Ho. exists o. repeat split; try done.
  exists []. by rewrite app_nil_r.
Qed.

Lemma extends_trans objs1 objs2 objs3 :
  extends objs1 objs2 → extends objs2 objs3 → extends objs1 objs3.
Proof.
  intros [Hl1 H1] [Hl2 H2]. split; [lia|]. intros r o Ho.
  destruct (H1 r o Ho) as (o2 & Ho2 & ? & ? & ? & ? & ? & ? & m1 & Hm1 & Hf1).
  destruct (H2 r o2 Ho2) as (o3 & Ho3 & ? & ? & ? & ? & ? & ? & m2 & Hm2 & Hf2).
  exists o3. split; [done|]. repeat split; try congruence.
  exists (m1 ++ m2). split; [by rewrite Hm2, Hm1, app_assoc|].
  apply Forall_app. split; [done|]. eapply Forall_impl; [exact Hf2|]. simpl. lia.
Qed.

Lemma stored_extends p url gname rel c bl s0 s' :
  stored p url gname rel c bl s0 s' → extends (objects s0) (objects s').
Proof.
  intros Hst. split; [rewrite (stored_length _ _ _ _ _ _ _ _ Hst); lia|].
  intros r o Ho.
  pose proof (stored_objects _ _ _ _ _ _ _ _ Hst) as Hobj. simpl in Hobj.
  set (objs := objects s0 ++ [new_item p url gname rel c]) in *.
  assert (Hr : objs !! r = Some o).
  { unfold objs. rewrite lookup_app_l; [done|]. by eapply lookup_lt_Some. }
  assert (Hplain : objects s' = objs → ∃ o', objects s' !! r = Some o' ∧
            package o' = package o ∧ group o' = group o ∧ base_url o' = base_url o ∧
            relative_url_path o' = relative_url_path o ∧ symbol_id o' = symbol_id o ∧
            symbol_name o' = symbol_name o ∧
            ∃ more, attributes o' = attributes o ++ more ∧
                    Forall (λ child, (length (objects s0) ≤ child)%nat) more).
  { intros ->. exists o. repeat split; try done. exists []. by rewrite app_nil_r. }
  destruct (table s' p !! PyStr.rsplit1_head "." c) as [parent|]; [|by apply Hplain].
  destruct Hobj as (o0 & Ho0 & Hobjs).
  destruct (bool_decide (package o0 = p)); [|by apply Hplain].
  destruct (decide (r = parent)) as [->|Hne].
  - rewrite Hr in Ho0. injection Ho0 as <-.
    exists (with_child o (length (objects s0))). split.
    + rewrite Hobjs. by apply attributes_append_eq.
    + repeat split; try done. exists [length (objects s0)]. split; [done|].
      by repeat constructor.
  - exists o. split; [rewrite Hobjs; by rewrite attributes_append_ne|].
    repeat split; try done. exists []. by rewrite app_nil_r.
Qed.

Lemma update_symbol_frame prio p url g bl n rel s s' :
  update_symbol prio p url g bl (n, rel) s = Some s' →
  extends (objects s) (objects s') ∧
  length (objects s') = S (length (objects s)) ∧
  PyDict.keys (doc_symbols_new s') =
    (if decide (p ∈ PyDict.keys (doc_symbols_new s))
     then PyDict.keys (doc_symbols_new s) else PyDict.keys (doc_symbols_new s) ++ [p]) ∧
  (p ∉ prio → ∀ q, q ≠ p →
     PyDict.get (doc_symbols_new s') q = PyDict.get (doc_symbols_new s) q) ∧
  ∀ m, ∃ added,
    ledger s' m = ledger s m ++ added ∧
    Forall (λ alt, dotted_extension m alt ∧ in_view s' alt) added.
Proof.
  intros (gname & c & s0 & _ & Hrun & Hst)%update_symbol_inv.
  pose proof (ensure_unique_resolution _ _ _ _ _ _ _ Hrun) as Hres.
  pose proof (resolution_objects _ _ _ _ _ _ Hres) as Hobjs.
  split; [rewrite <- Hobjs; by eapply stored_extends|].
  split; [rewrite <- Hobjs; by eapply stored_length|].
  split; [rewrite (stored_keys _ _ _ _ _ _ _ _ Hst); by rewrite (resolution_keys _ _ _ _ _ _ Hres)|].
  split.
  { intros Hp q Hq. rewrite (stored_other_tables _ _ _ _ _ _ _ _ q Hst Hq).
    by eapply ensure_unique_other_tables. }
  intros m. unfold ledger. rewrite (stored_ledger _ _ _ _ _ _ _ _ Hst).
  destruct Hres as [Hr|r it pre Hr Hit|r it pre tbl Hr Hit Htbl].
  - exists []. by rewrite app_nil_r.
  - simpl. destruct (decide (n = m)) as [->|Hne].
    + rewrite lookup_insert_eq. simpl. eexists [_]. split; [done|].
      constructor; [|done]. split; [apply alternate_name_dotted|].
      eapply stored_view; [exact Hst|]. by right.
    + rewrite lookup_insert_ne by done. exists []. by rewrite app_nil_r.
  - simpl. destruct (decide (n = m)) as [->|Hne].
    + rewrite lookup_insert_eq. simpl. eexists [_]. split; [done|].
      constructor; [|done]. split; [apply alternate_name_dotted|].
      eapply stored_view; [exact Hst|]. left.
      unfold doc_symbols_all. simpl. apply set_view_new. rewrite lookup_insert_eq. eauto.
    + rewrite lookup_insert_ne by done. exists []. by rewrite app_nil_r.
Qed.

Lemma pass_frame prio p url bl entries s s' :
  for_each (λ e, update_symbol prio p url e.1 bl e.2) entries s = Some s' →
  extends (objects s) (objects s') ∧
  length (objects s') = (length (objects s) + length entries)%nat ∧
  PyDict.keys (doc_symbols_new s') =
    (if decide (p ∈ PyDict.keys (doc_symbols_new s) ∨ entries = [])
     then PyDict.keys (doc_symbols_new s) else PyDict.keys (doc_symbols_new s) ++ [p]) ∧
  (p ∉ prio → ∀ q, q ≠ p →
     PyDict.get (doc_symbols_new s') q = PyDict.get (doc_symbols_new s) q) ∧
  ∀ m, ∃ added,
    ledger s' m = ledger s m ++ added ∧
    Forall (λ alt, dotted_extension m alt ∧ in_view s' alt) added.
Proof.
  revert s. induction entries as [|[g [n rel]] entries IH]; intros s; simpl.
  - intros [= <-]. split; [apply extends_refl|]. split; [lia|]. split.
    { rewrite decide_True; [done|by right]. }
    split; [done|]. intros m. exists []. by rewrite app_nil_r.
  - destruct (update_symbol prio p url g bl (n, rel) s) as [s1|] eqn:E; simpl; [|done].
    intros Hrest.
    destruct (update_symbol_frame _ _ _ _ _ _ _ _ _ E) as (Hx1 & Hl1 & Hk1 & Ht1 & Hled1).
    destruct (IH _ Hrest) as (Hx2 & Hl2 & Hk2 & Ht2 & Hled2).
    destruct (pass_view _ _ _ _ _ _ _ Hrest) as [Hmono _].
    split; [by eapply extends_trans|]. split; [lia|]. split.
    { assert (p ∈ PyDict.keys (doc_symbols_new s1)) as Hin1.
      { rewrite Hk1. destruct (decide (p ∈ PyDict.keys (doc_symbols_new s))); [done|].
        apply elem_of_app. right. apply list_elem_of_here. }
      rewrite Hk2, decide_True by (by left). rewrite Hk1.
      destruct (decide (p ∈ PyDict.keys (doc_symbols_new s))) as [Hin|Hnin].
      - rewrite decide_True; [done|by left].
      - rewrite decide_False; [done|]. by intros [?|?]. }
    split.
    { intros Hp q Hq. rewrite (Ht2 Hp q Hq). by apply Ht1. }
    intros m. destruct (Hled1 m) as (a1 & Ha1 & Hf1). destruct (Hled2 m) as (a2 & Ha2 & Hf2).
    exists (a1 ++ a2). split; [by rewrite Ha2, Ha1, app_assoc|].
    apply Forall_app. split; [|done]. eapply Forall_impl; [exact Hf1|].
    intros alt [? ?]. split; [done|]. by apply Hmono.
Qed.

(** ** What [update_single] keeps *)

Lemma update_single_entries prio p url inv bl s s' :
  update_single prio p url inv bl s = Some s' →
  ∃ t, for_each (λ e, update_symbol prio p url e.1 bl e.2) (inventory_entries inv)
         (with_base_urls (λ m, <[p := url]> m) s) = Some t ∧
       s' = log_msg TRACE ("Fetched inventory for " +:+ p +:+ ".") t.
Proof.
  unfold update_single. rewrite for_each_entries.
  destruct (for_each _ (inventory_entries inv) _) as [t|]; simpl; [|done].
  intros [= <-]. by exists t.
Qed.

(** X2. [update_single] never takes a name out of the flattened view, and
    when it has returned every name that its inventory proposes is in the
    view, under that name or shadowed by an entry that had it before. *)
Theorem update_single_view prio (p url : string) (inv : InventoryDict) (bl : list Z)
    (s s' : DocCog) :
  update_single prio p url inv bl s = Some s' →
  (∀ name, in_view s name → in_view s' name) ∧
  (∀ grp items name rel, (grp, items) ∈ inv → (name, rel) ∈ items → in_view s' name).
Proof.
  intros (t & Ht & ->)%update_single_entries.
  destruct (pass_view _ _ _ _ _ _ _ Ht) as [Hmono Hall]. split; [exact Hmono|].
  intros grp items name rel Hg Hi. apply (Hall (grp, (name, rel))).
  unfold inventory_entries. apply list_elem_of_bind. exists (grp, items). split; [|done].
  apply list_elem_of_fmap. by exists (name, rel).
Qed.

(** [beta] registers [Widget] after [alpha]: the name stays in the view. *)
Lemma update_single_view_witness :
  ∃ s s',
    update_single [] "alpha" "https://alpha.example/" widget_inventory [] init = Some s ∧
    update_single [] "beta" "https://beta.example/" widget_inventory [] s = Some s' ∧
    in_view s "Widget" ∧ in_view s' "Widget".
Proof.
  destruct (update_single [] "alpha" "https://alpha.example/" widget_inventory [] init)
    as [s|] eqn:Hs; [|vm_compute in Hs; discriminate].
  destruct (update_single [] "beta" "https://beta.example/" widget_inventory [] s)
    as [s'|] eqn:Hs'.
  - exists s, s'. split; [done|]. split; [done|].
    destruct (update_single_view _ _ _ _ _ _ _ Hs) as [_ H1].
    destruct (update_single_view _ _ _ _ _ _ _ Hs') as [H2 _].
    assert (in_view s "Widget") as Hin.
    { apply (H1 "py:class" [("Widget", "api.html#Widget")] "Widget" "api.html#Widget");
        apply list_elem_of_here. }
    split; [exact Hin|]. by apply H2.
  - exfalso. vm_compute in Hs. injection Hs as <-. vm_compute in Hs'. discriminate.
Defined.

(** X3. The lists of the rename ledger only grow, at their end; every
    alternate name that [update_single] adds for a name is that name
    behind a dotted prefix and is a key of the flattened view when
    [update_single] has returned. *)
Theorem update_single_ledger prio (p url : string) (inv : InventoryDict) (bl : list Z)
    (s s' : DocCog) :
  update_single prio p url inv bl s = Some s' →
  ∀ name, ∃ added,
    ledger s' name = ledger s name ++ added ∧
    Forall (λ alt, dotted_extension name alt ∧ in_view s' alt) added.
Proof.
  intros (t & Ht & ->)%update_single_entries name.
  destruct (pass_frame _ _ _ _ _ _ _ Ht) as (_ & _ & _ & _ & Hled). exact (Hled name).
Qed.

(** [alpha], then [beta], register [Widget]: the ledger goes from nothing
    to [beta.Widget]. *)
Lemma update_single_ledger_witness :
  ∃ s s',
    update_single [] "alpha" "https://alpha.example/" widget_inventory [] init = Some s ∧
    update_single [] "beta" "https://beta.example/" widget_inventory [] s = Some s' ∧
    ledger s "Widget" = [] ∧ ledger s' "Widget" = ["beta.Widget"] ∧
    ∃ added, ledger s' "Widget" = ledger s "Widget" ++ added ∧
             Forall (λ alt, dotted_extension "Widget" alt ∧ in_view s' alt) added.
Proof.
  destruct (update_single [] "alpha" "https://alpha.example/" widget_inventory [] init)
    as [s|] eqn:Hs; [|vm_compute in Hs; discriminate].
  destruct (update_single [] "beta" "https://beta.example/" widget_inventory [] s)
    as [s'|] eqn:Hs'.
  - exists s, s'. split; [done|]. split; [done|].
    pose proof (update_single_ledger _ _ _ _ _ _ _ Hs' "Widget") as H.
    vm_compute in Hs. injection Hs as <-. vm_compute in Hs'. injection Hs' as <-.
    split; [reflexivity|]. split; [reflexivity|]. exact H.
  - exfalso. vm_compute in Hs. injection Hs as <-. vm_compute in Hs'. discriminate.
Defined.

(** X4. [update_single] allocates one object for each entry of the
    inventory.  The objects that were there keep their package, group,
    urls, fragment and name; their [attributes] only gain, at the end,
    references to objects allocated by this call. *)
Theorem update_single_objects prio (p url : string) (inv : InventoryDict) (bl : list Z)
    (s s' : DocCog) :
  update_single prio p url inv bl s = Some s' →
  length (objects s') = (length (objects s) + length (inventory_entries inv))%nat ∧
  extends (objects s) (objects s').
Proof.
  intros (t & Ht & ->)%update_single_entries.
  destruct (pass_frame _ _ _ _ _ _ _ Ht) as (Hx & Hl & _). by split.
Qed.

(** [alpha] registers [Widget] and its attribute [Widget.size]: two
    objects, the second a child of the first. *)
Lemma update_single_objects_witness :
  ∃ s',
    update_single [] "alpha" "https://alpha.example/"
      [("py:class", [("Widget", "api.html#Widget")]);
       ("py:attribute", [("Widget.size", "api.html#Widget.size")])] [] init = Some s' ∧
    length (objects s') = 2%nat ∧ extends (objects init) (objects s') ∧
    attributes <$> objects s' !! 0%nat = Some [0%nat; 1%nat].
Proof.
  destruct (update_single [] "alpha" "https://alpha.example/"
              [("py:class", [("Widget", "api.html#Widget")]);
               ("py:attribute", [("Widget.size", "api.html#Widget.size")])] [] init)
    as [s'|] eqn:Hs; [|vm_compute in Hs; discriminate].
  exists s'. split; [done|].
  destruct (update_single_objects _ _ _ _ _ _ _ Hs) as [Hlen Hext].
  split; [exact Hlen|]. split; [exact Hext|].
  vm_compute in Hs. by injection Hs as <-.
Defined.

(** X5. [update_single] keeps the packages in their lookup order: a
    package that has a table keeps its place, and the table of a new
    package goes last (it is created by the first entry, so an inventory
    without entries creates none).  A source that is not a priority source
    writes to no table but its own. *)
Theorem update_single_tables prio (p url : string) (inv : InventoryDict) (bl : list Z)
    (s s' : DocCog) :
  update_single prio p url inv bl s = Some s' →
  PyDict.keys (doc_symbols_new s') =
    (if decide (p ∈ PyDict.keys (doc_symbols_new s) ∨ inventory_entries inv = [])
     then PyDict.keys (doc_symbols_new s) else PyDict.keys (doc_symbols_new s) ++ [p]) ∧
  (p ∉ prio → ∀ q, q ≠ p →
     PyDict.get (doc_symbols_new s') q = PyDict.get (doc_symbols_new s) q).
Proof.
  intros (t & Ht & ->)%update_single_entries.
  destruct (pass_frame _ _ _ _ _ _ _ Ht) as (_ & _ & Hk & Hot & _). by split.
Qed.

(** [beta], not a priority source, registers [Widget] after [alpha]. *)
Lemma update_single_tables_witness :
  ∃ s s',
    update_single [] "alpha" "https://alpha.example/" widget_inventory [] init = Some s ∧
    update_single [] "beta" "https://beta.example/" widget_inventory [] s = Some s' ∧
    PyDict.keys (doc_symbols_new s') = ["alpha"; "beta"] ∧
    PyDict.get (doc_symbols_new s') "alpha" = PyDict.get (doc_symbols_new s) "alpha".
Proof.
  destruct (update_single [] "alpha" "https://alpha.example/" widget_inventory [] init)
    as [s|] eqn:Hs; [|vm_compute in Hs; discriminate].
  destruct (update_single [] "beta" "https://beta.example/" widget_inventory [] s)
    as [s'|] eqn:Hs'.
  - exists s, s'. split; [done|]. split; [done|].
    destruct (update_single_tables _ _ _ _ _ _ _ Hs') as [Hk Hot]. split.
    + rewrite Hk. vm_compute in Hs. injection Hs as <-. reflexivity.
    + apply Hot; [|done]. intros H. inversion H.
  - exfalso. vm_compute in Hs. injection Hs as <-. vm_compute in Hs'. discriminate.
Defined.

(** ** Registering names that are free *)

Lemma set_view_inv (d : list (string * gmap string ref)) pkg (tbl' : gmap string ref) k :
  is_Some (chain_get (PyDict.values (PyDict.set d pkg tbl')) k) →
  is_Some (chain_get (PyDict.values d) k) ∨ is_Some (tbl' !! k).
Proof.
  rewrite !chain_get_is_Some. intros (q & tbl & Hin & Hk).
  apply elem_set in Hin as [[-> ->]|[[_ Hin]|[_ Hin]]]; [by right|left; eauto..].
Qed.

Lemma table_in_view s p k : is_Some (table s p !! k) → in_view s k.
Proof.
  unfold table, in_view, doc_symbols_all.
  destruct (PyDict.get (doc_symbols_new s) p) as [tbl|] eqn:E; simpl.
  - intros H. apply chain_get_is_Some. exists p, tbl. split; [by apply get_Some_elem|done].
  - rewrite lookup_empty. by intros [??].
Qed.

Lemma update_symbol_fresh prio p url g gname bl n rel s :
  wf s → PyStr.split ":" g !! 1%nat = Some gname → ¬ in_view s n →
  ∃ s', update_symbol prio p url g bl (n, rel) s = Some s' ∧ wf s' ∧
        renamed_symbols s' = renamed_symbols s ∧
        table s' p = <[n := length (objects s)]> (table s p) ∧
        (∀ q, q ≠ p → PyDict.get (doc_symbols_new s') q = PyDict.get (doc_symbols_new s) q) ∧
        (∀ k, in_view s' k ↔ in_view s k ∨ k = n) ∧
        ∃ o, objects s' !! length (objects s) = Some o ∧ symbol_name o = n ∧ package o = p.
Proof.
  intros Hwf Hg Hfree.
  destruct (update_symbol_total prio p url g gname bl n rel s Hwf Hg) as [s' Hrun].
  exists s'. split; [done|]. split; [by eapply update_symbol_wf|].
  destruct (update_symbol_inv _ _ _ _ _ _ _ _ _ Hrun) as (gname' & c & s0 & _ & Hres & Hst).
  assert (c = n ∧ s0 = s) as [-> ->].
  { unfold ensure_unique_symbol_name in Hres.
    destruct (chain_get (doc_symbols_all s) n) as [r|] eqn:Hr.
    - destruct Hfree. unfold in_view. rewrite Hr. eauto.
    - by injection Hres as <- <-. }
  split; [by rewrite (stored_ledger _ _ _ _ _ _ _ _ Hst)|].
  split; [by eapply stored_table|].
  split; [intros q Hq; by eapply stored_other_tables|].
  split.
  - intros k. split.
    + unfold in_view, doc_symbols_all. rewrite (stored_tables _ _ _ _ _ _ _ _ Hst).
      intros [H|H]%set_view_inv; [by left|].
      destruct (decide (n = k)) as [->|Hne]; [by right|].
      rewrite lookup_insert_ne in H by done. left. by eapply table_in_view.
    + intros [H| ->]; eapply stored_view; eauto.
  - destruct (stored_children _ _ _ _ _ _ _ _ Hst) as ((o & Ho & Hp & Hc & _) & _).
    by exists o.
Qed.

Lemma pass_fresh prio p url bl entries s :
  wf s →
  Forall (λ e, is_Some (PyStr.split ":" e.1 !! 1%nat)) entries →
  NoDup ((λ e, e.2.1) <$> entries) →
  (∀ name, name ∈ (λ e, e.2.1) <$> entries → ¬ in_view s name) →
  ∃ s', for_each (λ e, update_symbol prio p url e.1 bl e.2) entries s = Some s' ∧
        renamed_symbols s' = renamed_symbols s ∧
        (∀ i e, entries !! i = Some e →
           table s' p !! e.2.1 = Some (length (objects s) + i)%nat ∧
           ∃ o, objects s' !! (length (objects s) + i)%nat = Some o ∧
                symbol_name o = e.2.1 ∧ package o = p) ∧
        (∀ k, k ∉ (λ e, e.2.1) <$> entries → table s' p !! k = table s p !! k) ∧
        (∀ q, q ≠ p → PyDict.get (doc_symbols_new s') q = PyDict.get (doc_symbols_new s) q) ∧
        (∀ k, in_view s' k ↔ in_view s k ∨ k ∈ (λ e, e.2.1) <$> entries).
Proof.
  revert s. induction entries as [|[g [n rel]] entries IH]; intros s Hwf Hkeys Hnd Hfree.
  - exists s. split; [done|]. split; [done|]. split; [by intros i e H|].
    split; [done|]. split; [done|]. intros k. split; [by left|].
    intros [?|H]; [done|inversion H].
  - apply Forall_cons in Hkeys as [[gname Hg] Hkeys]. simpl in Hg.
    rewrite fmap_cons in Hnd. apply NoDup_cons in Hnd as [Hn Hnd]. simpl in Hn.
    destruct (update_symbol_fresh prio p url g gname bl n rel s Hwf Hg)
      as (s1 & Hrun & Hwf1 & Hled1 & Htbl1 & Hot1 & Hview1 & o & Ho & Hname & Hpkg).
    { apply Hfree. rewrite fmap_cons. apply list_elem_of_here. }
    destruct (IH s1 Hwf1 Hkeys Hnd)
      as (s' & Hrest & Hled & Hstored & Hkeep & Hot & Hview).
    { intros name Hin [H| ->]%Hview1; [|done].
      eapply Hfree; [|exact H]. rewrite fmap_cons. by apply list_elem_of_further. }
    assert (length (objects s1) = S (length (objects s))) as Hlen.
    { by destruct (update_symbol_frame _ _ _ _ _ _ _ _ _ Hrun) as (_ & -> & _). }
    exists s'. simpl. rewrite Hrun. simpl. split; [done|]. split; [congruence|].
    split; [|split; [|split]].
    + intros [|i] e He; simpl in He.
      * injection He as <-. simpl. rewrite Nat.add_0_r. split.
        -- rewrite (Hkeep n Hn), Htbl1. by rewrite lookup_insert_eq.
        -- destruct (pass_frame _ _ _ _ _ _ _ Hrest) as ([_ Hext] & _).
           destruct (Hext _ _ Ho) as (o' & Ho' & Hp' & _ & _ & _ & _ & Hn' & _).
           exists o'. split; [done|]. split; congruence.
      * destruct (Hstored i e He) as [Ht Hobj]. rewrite Hlen in Ht, Hobj.
        by replace (length (objects s) + S i)%nat with (S (length (objects s)) + i)%nat by lia.
    + intros k Hk. apply not_elem_of_cons in Hk as [Hk1 Hk2].
      rewrite (Hkeep k Hk2), Htbl1. by rewrite lookup_insert_ne.
    + intros q Hq. rewrite (Hot q Hq). by apply Hot1.
    + intros k. rewrite Hview, Hview1, elem_of_cons. tauto.
Qed.

Lemma keyed_entries inv :
  keyed_or_empty inv →
  Forall (λ e, is_Some (PyStr.split ":" e.1 !! 1%nat)) (inventory_entries inv).
Proof.
  induction 1 as [|[g items] inv Hhd Htl IH]; [constructor|].
  unfold inventory_entries. rewrite bind_cons. apply Forall_app. split; [|exact IH].
  simpl in Hhd. destruct Hhd as [->|Hg]; [constructor|].
  apply Forall_fmap. by apply Forall_true.
Qed.

(** X6. Registering names that are all free.  When the names that the
    inventory proposes are pairwise distinct and none of them is in the
    flattened view of a well-formed table, [update_single] is a plain
    insertion: it returns, the ledger is as it was, the i-th entry is a new
    object of the package stored under its own name in the table of the
    package, no other key of that table and no other table changes, and
    the view gains exactly the proposed names. *)
Theorem update_single_fresh prio (p url : string) (inv : InventoryDict) (bl : list Z)
    (s : DocCog) :
  wf s → keyed_or_empty inv →
  NoDup (proposed_names inv) →
  (∀ name, name ∈ proposed_names inv → ¬ in_view s name) →
  ∃ s', update_single prio p url inv bl s = Some s' ∧
        renamed_symbols s' = renamed_symbols s ∧
        (∀ i e, inventory_entries inv !! i = Some e →
           table s' p !! e.2.1 = Some (length (objects s) + i)%nat ∧
           ∃ o, objects s' !! (length (objects s) + i)%nat = Some o ∧
                symbol_name o = e.2.1 ∧ package o = p) ∧
        (∀ k, k ∉ proposed_names inv → table s' p !! k = table s p !! k) ∧
        (∀ q, q ≠ p → PyDict.get (doc_symbols_new s') q = PyDict.get (doc_symbols_new s) q) ∧
        (∀ k, in_view s' k ↔ in_view s k ∨ k ∈ proposed_names inv).
Proof.
  intros Hwf Hkeys Hnd Hfree.
  destruct (pass_fresh prio p url bl (inventory_entries inv)
              (with_base_urls (λ m, <[p := url]> m) s) Hwf (keyed_entries _ Hkeys) Hnd Hfree)
    as (t & Ht & Hrest).
  exists (log_msg TRACE ("Fetched inventory for " +:+ p +:+ ".") t). split; [|exact Hrest].
  unfold update_single. rewrite for_each_entries, Ht. done.
Qed.

(** [alpha] registers [Widget] and [Gadget] in an empty table. *)
Lemma update_single_fresh_witness :
  wf init ∧
  keyed_or_empty [("py:class", [("Widget", "api.html#Widget"); ("Gadget", "api.html#Gadget")])] ∧
  ∃ s', update_single [] "alpha" "https://alpha.example/"
          [("py:class", [("Widget", "api.html#Widget"); ("Gadget", "api.html#Gadget")])]
          [] init = Some s' ∧
        renamed_symbols s' = ∅ ∧
        table s' "alpha" !! "Gadget" = Some 1%nat ∧
        (in_view s' "Gadget" ↔ in_view init "Gadget" ∨
           "Gadget" ∈ proposed_names
             [("py:class", [("Widget", "api.html#Widget"); ("Gadget", "api.html#Gadget")])]).
Proof.
  set (inv := [("py:class", [("Widget", "api.html#Widget"); ("Gadget", "api.html#Gadget")])]).
  assert (Hk : keyed_or_empty inv).
  { apply Forall_cons. split; [right; simpl; eauto|constructor]. }
  assert (Hnd : NoDup (proposed_names inv)).
  { apply NoDup_cons. split; [|apply NoDup_singleton].
    intros H%list_elem_of_singleton. discriminate. }
  assert (Hfree : ∀ name, name ∈ proposed_names inv → ¬ in_view init name).
  { intros name _ [r Hr]. discriminate. }
  split; [apply wf_init|]. split; [exact Hk|].
  destruct (update_single_fresh [] "alpha" "https://alpha.example/" inv [] init
              wf_init Hk Hnd Hfree) as (s' & Hrun & Hled & Hst & _ & _ & Hview).
  exists s'. split; [exact Hrun|]. split; [exact Hled|]. split.
  - exact (proj1 (Hst 1%nat ("py:class", ("Gadget", "api.html#Gadget")) eq_refl)).
  - apply Hview.
Defined.

(** ** The objects that a turn allocates *)

Lemma partition_spec c s :
  if PyStr.contains_char c s
  then s = (PyStr.partition c s).1 +:+ String c (PyStr.partition c s).2 ∧
       PyStr.contains_char c (PyStr.partition c s).1 = false
  else PyStr.partition c s = (s, "").
Proof.
  unfold PyStr.partition. destruct (PyStr.find_first c s) as [[a b]|] eqn:E.
  - destruct (find_first_Some _ _ _ _ E) as [-> Ha]. by rewrite contains_char_app.
  - by rewrite (find_first_None _ _ E).
Qed.

Lemma stored_new_fields p url gname rel c bl s0 s' :
  stored p url gname rel c bl s0 s' →
  ∃ o, objects s' !! length (objects s0) = Some o ∧
       package o = p ∧ group o = gname ∧ base_url o = url ∧
       relative_url_path o = (PyStr.partition "#" rel).1 ∧
       symbol_id o = (PyStr.partition "#" rel).2 ∧ symbol_name o = c.
Proof.
  intros Hst.
  pose proof (stored_objects _ _ _ _ _ _ _ _ Hst) as Hobj. simpl in Hobj.
  set (objs := objects s0 ++ [new_item p url gname rel c]) in *.
  assert (Hnew : objs !! length (objects s0) = Some (new_item p url gname rel c)).
  { unfold objs. rewrite lookup_app_r by lia. by rewrite Nat.sub_diag. }
  assert (Hplain : objects s' = objs → ∃ o, objects s' !! length (objects s0) = Some o ∧
            package o = p ∧ group o = gname ∧ base_url o = url ∧
            relative_url_path o = (PyStr.partition "#" rel).1 ∧
            symbol_id o = (PyStr.partition "#" rel).2 ∧ symbol_name o = c).
  { intros ->. by exists (new_item p url gname rel c). }
  destruct (table s' p !! PyStr.rsplit1_head "." c) as [parent|]; [|by apply Hplain].
  destruct Hobj as (o0 & Ho0 & Hobjs).
  destruct (bool_decide (package o0 = p)); [|by apply Hplain].
  destruct (decide (length (objects s0) = parent)) as [<-|Hne].
  - exists (with_child (new_item p url gname rel c) (length (objects s0))).
    split; [|done]. rewrite Hobjs. by apply attributes_append_eq.
  - exists (new_item p url gname rel c). split; [|done].
    rewrite Hobjs. by rewrite attributes_append_ne.
Qed.

(** X7. The entry that a turn of [update_single] allocates has the package,
    the group name and the base url of the call, and its link leads back
    to the url of the inventory: the embed url, which joins the page and
    the fragment that [partition("#")] took apart, is the base url
    followed by the relative url of the inventory entry, with a [#] at its
    end when that url had no fragment. *)
Theorem allocated_entry_link prio (p base g : string) (bl : list Z) (n rel : string)
    (s s' : DocCog) :
  update_symbol prio p base g bl (n, rel) s = Some s' →
  ∃ o, objects s' !! length (objects s) = Some o ∧
       package o = p ∧ base_url o = base ∧
       PyStr.split ":" g !! 1%nat = Some (group o) ∧
       PyStr.contains_char "#" (relative_url_path o) = false ∧
       embed_url o = if PyStr.contains_char "#" rel
                     then base +:+ rel else base +:+ rel +:+ "#".
Proof.
  intros (gname & c & s0 & Hg & Hres & Hst)%update_symbol_inv.
  apply ensure_unique_resolution, resolution_objects in Hres. rewrite <- Hres.
  destruct (stored_new_fields _ _ _ _ _ _ _ _ Hst)
    as (o & Ho & Hp & Hgr & Hb & Hpath & Hid & _).
  exists o. split; [done|]. split; [done|]. split; [done|]. split; [by rewrite Hgr|].
  unfold embed_url, url. rewrite Hb, Hpath, Hid.
  pose proof (partition_spec "#" rel) as Hpart.
  destruct (PyStr.contains_char "#" rel) eqn:Hc.
  - destruct Hpart as [Hrel Hno]. split; [done|]. rewrite append_assoc.
    by rewrite Hrel at 3.
  - rewrite Hpart. simpl. split; [done|]. by rewrite append_assoc.
Qed.

(** [alpha] registers [Widget] at [api.html#Widget]. *)
Lemma allocated_entry_link_witness :
  ∃ s' o,
    update_symbol [] "alpha" "https://alpha.example/" "py:class" []
                  ("Widget", "api.html#Widget") init = Some s' ∧
    objects s' !! 0%nat = Some o ∧
    embed_url o = "https://alpha.example/api.html#Widget".
Proof.
  destruct (update_symbol [] "alpha" "https://alpha.example/" "py:class" []
              ("Widget", "api.html#Widget") init) as [s'|] eqn:Hs;
    [|vm_compute in Hs; discriminate].
  destruct (allocated_entry_link _ _ _ _ _ _ _ _ _ Hs) as (o & Ho & _ & _ & _ & _ & Hlink).
  exists s', o. split; [done|]. split; [exact Ho|]. exact Hlink.
Defined.

(** ** The blacklist *)

Lemma blacklist_add_lookup bl c (B : gmap Z (gset string)) guild :
  (guild ∉ bl → blacklist_add bl c B !! guild = B !! guild) ∧
  default ∅ (blacklist_add bl c B !! guild)
  = default ∅ (B !! guild) ∪ (if decide (guild ∈ bl) then {[c]} else ∅).
Proof.
  unfold blacklist_add. revert B. induction bl as [|g bl IH]; intros B; cbn [foldl].
  - split; [done|]. rewrite decide_False by (intros H; inversion H).
    by rewrite union_empty_r_L.
  - destruct (IH (<[g := default ∅ (B !! g) ∪ {[c]}]> B)) as [IH1 IH2]. split.
    + intros [Hne Hnin]%not_elem_of_cons. rewrite (IH1 Hnin). by rewrite lookup_insert_ne.
    + rewrite IH2. destruct (decide (g = guild)) as [->|Hne].
      * rewrite lookup_insert_eq. simpl.
        rewrite (decide_True (P := guild ∈ guild :: bl)) by apply list_elem_of_here.
        destruct (decide (guild ∈ bl)).
        -- by rewrite <- union_assoc_L, union_idemp_L.
        -- by rewrite union_empty_r_L.
      * rewrite lookup_insert_ne by done.
        destruct (decide (guild ∈ bl)) as [Hin|Hnin].
        -- rewrite decide_True; [done|]. by apply list_elem_of_further.
        -- rewrite decide_False; [done|]. intros [?|?]%elem_of_cons; done.
Qed.

Lemma update_symbol_blacklist prio p url g bl n rel s s' guild :
  update_symbol prio p url g bl (n, rel) s = Some s' →
  (guild ∉ bl → BLACKLIST s' !! guild = BLACKLIST s !! guild) ∧
  blacklisted s guild ⊆ blacklisted s' guild ∧
  ∃ o, objects s' !! length (objects s) = Some o ∧
       (guild ∈ bl → symbol_name o ∈ blacklisted s' guild).
Proof.
  intros (gname & c & s0 & _ & Hres & Hst)%update_symbol_inv.
  apply ensure_unique_resolution in Hres.
  assert (BLACKLIST s0 = BLACKLIST s) as HB by (by destruct Hres).
  pose proof (resolution_objects _ _ _ _ _ _ Hres) as Hobjs.
  destruct (blacklist_add_lookup bl c (BLACKLIST s0) guild) as [H1 H2].
  unfold blacklisted. rewrite (stored_blacklist _ _ _ _ _ _ _ _ Hst), H2.
  rewrite HB in *.
  split; [exact H1|]. split; [apply union_subseteq_l|].
  destruct (stored_new_fields _ _ _ _ _ _ _ _ Hst) as (o & Ho & _ & _ & _ & _ & _ & Hc).
  exists o. rewrite <- Hobjs. split; [done|]. intros Hin.
  rewrite decide_True by done. apply elem_of_union. right.
  by apply elem_of_singleton.
Qed.

Lemma pass_blacklist prio p url bl entries s s' guild :
  for_each (λ e, update_symbol prio p url e.1 bl e.2) entries s = Some s' →
  (guild ∉ bl → BLACKLIST s' !! guild = BLACKLIST s !! guild) ∧
  blacklisted s guild ⊆ blacklisted s' guild ∧
  (guild ∈ bl → ∀ r o, (length (objects s) ≤ r)%nat → objects s' !! r = Some o →
                       symbol_name o ∈ blacklisted s' guild).
Proof.
  revert s. induction entries as [|[g [n rel]] entries IH]; intros s; simpl.
  - intros [= <-]. split; [done|]. split; [done|]. intros _ r o Hr Ho.
    apply lookup_lt_Some in Ho. lia.
  - destruct (update_symbol prio p url g bl (n, rel) s) as [s1|] eqn:E; simpl; [|done].
    intros Hrest.
    destruct (update_symbol_blacklist _ _ _ _ _ _ _ _ _ guild E) as (Hk1 & Hs1 & o1 & Ho1 & Hn1).
    destruct (update_symbol_frame _ _ _ _ _ _ _ _ _ E) as (_ & Hl1 & _).
    destruct (IH _ Hrest) as (Hk2 & Hs2 & Hn2).
    destruct (pass_frame _ _ _ _ _ _ _ Hrest) as ([_ Hext] & _).
    split; [intros Hnin; rewrite (Hk2 Hnin); by apply Hk1|]. split; [by etrans|].
    intros Hin r o Hr Ho. destruct (decide (r = length (objects s))) as [->|Hne].
    + destruct (Hext _ _ Ho1) as (o' & Ho' & _ & _ & _ & _ & _ & Hname & _).
      rewrite Ho in Ho'. injection Ho' as <-. rewrite Hname. apply Hs2. by apply Hn1.
    + apply (Hn2 Hin r o); [lia|done].
Qed.

(** X8. [update_single] with a list of blacklist guilds puts the canonical
    name of every entry that it allocates on the blacklist of each of
    these guilds.  It removes nothing from any blacklist and leaves the
    guilds that are not in the list as they were. *)
Theorem update_single_blacklist prio (p url : string) (inv : InventoryDict) (bl : list Z)
    (s s' : DocCog) (guild : Z) :
  update_single prio p url inv bl s = Some s' →
  (guild ∉ bl → BLACKLIST s' !! guild = BLACKLIST s !! guild) ∧
  blacklisted s guild ⊆ blacklisted s' guild ∧
  (guild ∈ bl → ∀ r o, (length (objects s) ≤ r)%nat → objects s' !! r = Some o →
                       symbol_name o ∈ blacklisted s' guild).
Proof.
  intros (t & Ht & ->)%update_single_entries.
  exact (pass_blacklist _ _ _ _ _ _ _ guild Ht).
Qed.

(** [beta] registers [Widget] after [alpha], for the blacklist of guild 7:
    it is the canonical name [beta.Widget] that is blacklisted. *)
Lemma update_single_blacklist_witness :
  ∃ s s',
    update_single [] "alpha" "https://alpha.example/" widget_inventory [] init = Some s ∧
    update_single [] "beta" "https://beta.example/" widget_inventory [7%Z] s = Some s' ∧
    blacklisted s' 7 = {["beta.Widget"]} ∧
    (7%Z ∈ [7%Z] → ∀ r o, (length (objects s) ≤ r)%nat → objects s' !! r = Some o →
                          symbol_name o ∈ blacklisted s' 7).
Proof.
  destruct (update_single [] "alpha" "https://alpha.example/" widget_inventory [] init)
    as [s|] eqn:Hs; [|vm_compute in Hs; discriminate].
  destruct (update_single [] "beta" "https://beta.example/" widget_inventory [7%Z] s)
    as [s'|] eqn:Hs'.
  - exists s, s'. split; [done|]. split; [done|].
    destruct (update_single_blacklist _ _ _ _ _ _ _ 7%Z Hs') as (_ & _ & H).
    split; [|exact H].
    vm_compute in Hs. injection Hs as <-. vm_compute in Hs'. by injection Hs' as <-.
  - exfalso. vm_compute in Hs. injection Hs as <-. vm_compute in Hs'. discriminate.
Defined.

(** ** The base url of an inventory *)

Lemma removesuffix_plain c s :
  PyStr.contains_char c s = false → PyStr.removesuffix_char c s = s.
Proof.
  induction s as [|a s IH]; [done|]. simpl.
  intros [Ha Hs]%orb_false_elim. destruct s as [|b s]; [by rewrite Ha|].
  by rewrite (IH Hs).
Qed.

Lemma removesuffix_app c a s :
  s ≠ "" → PyStr.removesuffix_char c (a +:+ s) = a +:+ PyStr.removesuffix_char c s.
Proof.
  intros Hs. induction a as [|x a IH]; [done|].
  change (String x a +:+ s) with (String x (a +:+ s)).
  change (String x a +:+ PyStr.removesuffix_char c s)
    with (String x (a +:+ PyStr.removesuffix_char c s)).
  rewrite <- IH. simpl. destruct (a +:+ s) eqn:E; [|done].
  destruct a; [by destruct Hs|discriminate].
Qed.

Lemma removesuffix_last c s : PyStr.removesuffix_char c (s +:+ String c "") = s.
Proof.
  induction s as [|x s IH]; [simpl; by rewrite Ascii.eqb_refl|].
  change (String x s +:+ String c "") with (String x (s +:+ String c "")).
  simpl. destruct (s +:+ String c "") eqn:E; [by destruct s|]. by rewrite IH.
Qed.

Lemma find_last_app c base file :
  PyStr.contains_char c file = false →
  PyStr.find_last c (base +:+ String c file) = Some (base, file).
Proof.
  intros Hf. induction base as [|x base IH].
  - simpl. by rewrite (find_last_None _ _ Hf), Ascii.eqb_refl.
  - change (String x base +:+ String c file) with (String x (base +:+ String c file)).
    simpl. by rewrite IH.
Qed.

(** X9. [base_url_from_inventory_url] cuts the last path segment off and
    keeps the slash before it; one slash at the very end of the url is
    ignored.  A url without any slash comes back with a slash added. *)
Theorem base_url_cuts_last_segment (base file : string) :
  file ≠ "" → PyStr.contains_char "/" file = false →
  base_url_from_inventory_url (base +:+ "/" +:+ file) = base +:+ "/" ∧
  base_url_from_inventory_url (base +:+ "/" +:+ file +:+ "/") = base +:+ "/" ∧
  base_url_from_inventory_url file = file +:+ "/".
Proof.
  intros Hne Hf. unfold base_url_from_inventory_url, PyStr.rsplit1_head.
  assert (PyStr.removesuffix_char "/" (base +:+ "/" +:+ file) = base +:+ "/" +:+ file) as H1.
  { rewrite <- append_assoc. rewrite removesuffix_app by done.
    by rewrite removesuffix_plain. }
  assert (PyStr.removesuffix_char "/" (base +:+ "/" +:+ file +:+ "/") = base +:+ "/" +:+ file)
    as H2.
  { replace (base +:+ "/" +:+ file +:+ "/") with ((base +:+ "/" +:+ file) +:+ String "/" "")
      by (by rewrite !append_assoc).
    apply removesuffix_last. }
  split; [|split].
  - rewrite H1. change (base +:+ "/" +:+ file) with (base +:+ String "/" file).
    by rewrite find_last_app.
  - rewrite H2. change (base +:+ "/" +:+ file) with (base +:+ String "/" file).
    by rewrite find_last_app.
  - rewrite removesuffix_plain by done. by rewrite find_last_None.
Qed.

(** The inventory of a documentation site, with and without a fragment of
    path behind it. *)
Lemma base_url_cuts_last_segment_witness :
  "objects.inv" ≠ "" ∧ PyStr.contains_char "/" "objects.inv" = false ∧
  base_url_from_inventory_url "https://docs.example/3/objects.inv" = "https://docs.example/3/" ∧
  base_url_from_inventory_url "objects.inv" = "objects.inv/".
Proof.
  assert (H1 : "objects.inv" ≠ "") by discriminate.
  assert (H2 : PyStr.contains_char "/" "objects.inv" = false) by reflexivity.
  destruct (base_url_cuts_last_segment "https://docs.example/3" "objects.inv" H1 H2)
    as (Ha & _ & Hc).
  split; [exact H1|]. split; [exact H2|]. split; [exact Ha|exact Hc].
Defined.

(** ** The registry of base urls *)

Lemma update_symbol_urls prio p url g bl e s s' :
  update_symbol prio p url g bl e s = Some s' → base_urls s' = base_urls s.
Proof.
  destruct e as [n rel].
  intros (gname & c & s0 & _ & Hres%ensure_unique_resolution & Hst)%update_symbol_inv.
  rewrite (stored_urls _ _ _ _ _ _ _ _ Hst). by destruct Hres.
Qed.

Lemma update_single_urls prio p url inv bl s s' :
  update_single prio p url inv bl s = Some s' →
  base_urls s' = <[p := url]> (base_urls s).
Proof.
  intros (t & Ht & ->)%update_single_entries.
  change (base_urls (log_msg TRACE ("Fetched inventory for " +:+ p +:+ ".") t))
    with (base_urls t).
  change (<[p := url]> (base_urls s))
    with (base_urls (with_base_urls (λ m, <[p := url]> m) s)).
  revert Ht. generalize (with_base_urls (λ m, <[p := url]> m) s).
  induction (inventory_entries inv) as [|e l IH]; intros u; simpl.
  - by intros [= <-].
  - destruct (update_symbol prio p url e.1 bl e.2 u) as [u1|] eqn:E; simpl; [|done].
    intros Hrest. rewrite (IH _ Hrest). by eapply update_symbol_urls.
Qed.

(** X10. When a fetch gave an inventory and [update_or_reschedule_inventory]
    has merged it, the package is in the registry, and
    [_get_link_from_inventories] answers for the package, whatever the
    cached view, with the base url that was configured, or, when none was,
    with the inventory url cut before its last segment.  The registry
    entries of the other packages are as they were. *)
Theorem merged_package_link prio gd gn (pkg base inventory_url : string)
    (inv : InventoryDict) (cached : list (gmap string ref)) (s s' : DocCog) :
  inv ≠ [] →
  update_or_reschedule_inventory prio gd gn pkg base inventory_url
    (FetchReturned (Some inv)) s = Some s' →
  _get_link_from_inventories cached pkg s'
    = Some (if bool_decide (base = "") then base_url_from_inventory_url inventory_url
            else base) ∧
  ∀ q, q ≠ pkg → base_urls s' !! q = base_urls s !! q.
Proof.
  intros Hinv Hrun. unfold update_or_reschedule_inventory in Hrun.
  destruct inv as [|gi inv]; [done|]. simpl in Hrun.
  apply update_single_urls in Hrun. unfold _get_link_from_inventories.
  rewrite Hrun. split.
  - by rewrite lookup_insert_eq.
  - intros q Hq. by rewrite lookup_insert_ne.
Qed.

(** The fetch for [alpha] gave an inventory; no base url was configured. *)
Lemma merged_package_link_witness :
  ∃ s',
    widget_inventory ≠ [] ∧
    update_or_reschedule_inventory [] 1 2 "alpha" "" "https://alpha.example/objects.inv"
      (FetchReturned (Some widget_inventory)) init = Some s' ∧
    _get_link_from_inventories [] "alpha" s' = Some "https://alpha.example/".
Proof.
  destruct (update_or_reschedule_inventory [] 1 2 "alpha" "" "https://alpha.example/objects.inv"
              (FetchReturned (Some widget_inventory)) init) as [s'|] eqn:Hs;
    [|vm_compute in Hs; discriminate].
  assert (Hne : widget_inventory ≠ []) by discriminate.
  exists s'. split; [exact Hne|]. split; [done|].
  exact (proj1 (merged_package_link [] 1 2 "alpha" "" "https://alpha.example/objects.inv"
                  widget_inventory [] init s' Hne Hs)).
Defined.

(** ** The boosts of autocompletion *)




(** ** The ranking of autocompletion *)













(** ** A refresh starts afresh *)

Lemma update_or_reschedule_rebuilt prio gd gn p url inventory_url fetched done s s' :
  rebuilt done s →
  update_or_reschedule_inventory prio gd gn p url inventory_url fetched s = Some s' →
  rebuilt (done ++ merged [(p, url, inventory_url, fetched)]) s'.
Proof.
  intros (Hwf & Hurls & Hkeys & Hled) Hrun. unfold update_or_reschedule_inventory in Hrun.
  destruct fetched as [e|inventory].
  { injection Hrun as <-. simpl. rewrite app_nil_r. done. }
  simpl. destruct (falsy inventory) eqn:Hf.
  { rewrite app_nil_r.
    destruct (scheduler_contains p (inventory_scheduler s)); injection Hrun as <-; done. }
  pose proof (update_single_wf _ _ _ _ _ _ _ Hrun Hwf) as Hwf'.
  pose proof (update_single_urls _ _ _ _ _ _ _ Hrun) as Hu.
  apply update_single_entries in Hrun as (t & Ht & ->).
  destruct (pass_frame _ _ _ _ _ _ _ Ht) as (_ & _ & Hk & _ & Hl).
  destruct (pass_view _ _ _ _ _ _ _ Ht) as [Hmono _].
  split; [exact Hwf'|]. split; [|split].
  - intros q. rewrite Hu, elem_of_app, list_elem_of_singleton.
    destruct (decide (q = p)) as [->|Hq].
    + rewrite lookup_insert_eq. split; [by right|by eexists].
    + rewrite lookup_insert_ne by done. rewrite Hurls. split; [by left|]. by intros [?|?].
  - intros q Hq. change (doc_symbols_new (log_msg _ _ t)) with (doc_symbols_new t) in Hq.
    rewrite Hk in Hq. rewrite elem_of_app, list_elem_of_singleton.
    destruct (decide _); [left; by apply Hkeys|].
    apply elem_of_app in Hq as [Hq|Hq%list_elem_of_singleton]; [left; by apply Hkeys|by right].
  - intros name alt Halt.
    change (alt ∈ ledger t name) in Halt. change (in_view t alt).
    destruct (Hl name) as (added & Hadd & Hall). rewrite Hadd in Halt.
    apply elem_of_app in Halt as [Halt|Halt].
    + apply Hmono. by apply (Hled name).
    + rewrite Forall_forall in Hall. by apply Hall.
Qed.

Lemma gather_rebuilt prio gd gn packages done s s' :
  rebuilt done s → gather prio gd gn packages s = Some s' →
  rebuilt (done ++ merged packages) s'.
Proof.
  revert done s. induction packages as [|[[[p url] inventory_url] fetched] packages IH];
    intros done s Hs Hrun.
  { injection Hrun as <-. simpl. by rewrite app_nil_r. }
  unfold gather in Hrun. simpl in Hrun.
  destruct (update_or_reschedule_inventory prio gd gn p url inventory_url fetched s)
    as [s1|] eqn:E1; [|done].
  pose proof (update_or_reschedule_rebuilt _ _ _ _ _ _ _ _ _ _ Hs E1) as H1.
  specialize (IH _ _ H1 Hrun).
  replace (merged ((p, url, inventory_url, fetched) :: packages))
    with (merged [(p, url, inventory_url, fetched)] ++ merged packages).
  - by rewrite app_assoc.
  - unfold merged. simpl. by destruct fetched as [|inventory]; [|destruct (falsy inventory)].
Qed.

(** X14. Whatever state [refresh_inventories] starts from, when it returns
    the registry holds exactly the packages whose fetch gave an inventory,
    every table belongs to one of them, every name of the flattened view
    resolves to an object of one of them, and every alternate name in the
    ledger is in the view: nothing of a package that was dropped from the
    configuration, or whose fetch failed, is left. *)
Theorem refresh_starts_afresh prio gd gn
    (packages : list (string * string * string * FetchOutcome)) (s s' : DocCog) :
  refresh_inventories prio gd gn packages s = Some s' →
  (∀ p, is_Some (base_urls s' !! p) ↔ p ∈ merged packages) ∧
  (∀ p, p ∈ PyDict.keys (doc_symbols_new s') → p ∈ merged packages) ∧
  (∀ name o, resolve s' name = Some o → package o ∈ merged packages) ∧
  (∀ name alt, alt ∈ ledger s' name → in_view s' alt).
Proof.
  unfold refresh_inventories. set (s0 := with_renamed_symbols _ _).
  destruct (gather prio gd gn packages s0) as [t|] eqn:Ht; [|done]. intros [= <-].
  assert (rebuilt [] s0) as H0.
  { split; [|split; [|split]].
    - split; [constructor|]. intros ???? H. inversion H.
    - intros p. simpl. rewrite lookup_empty. split; [by intros [? ?]|]. intros H. inversion H.
    - intros p H. inversion H.
    - intros name alt H. unfold ledger in H. simpl in H. rewrite lookup_empty in H.
      inversion H. }
  destruct (gather_rebuilt _ _ _ _ _ _ _ H0 Ht) as (Hwf & Hu & Hk & Hl). simpl in *.
  split; [exact Hu|]. split; [exact Hk|]. split; [|exact Hl].
  intros name o Hres. unfold resolve in Hres.
  change (doc_symbols_all (log_msg _ _ t)) with (doc_symbols_all t) in Hres.
  change (objects (log_msg _ _ t)) with (objects t) in Hres.
  destruct (chain_get (doc_symbols_all t) name) as [r|] eqn:Hr; [|done]. simpl in Hres.
  destruct (wf_chain_get _ _ _ Hwf Hr) as (item & tbl & Hitem & Htbl & _).
  assert (item = o) as -> by congruence.
  by apply Hk, get_Some_keys with tbl.
Qed.

(** A refresh of a cog that knew [alpha]: [beta] answers, [gamma] fails. *)
Lemma refresh_starts_afresh_witness :
  ∃ s s',
    update_single [] "alpha" "https://alpha.example/" widget_inventory [] init = Some s ∧
    refresh_inventories [] 1 2
      [("beta", "https://beta.example/", "https://beta.example/objects.inv",
        FetchReturned (Some widget_inventory));
       ("gamma", "", "https://gamma.example/objects.inv", FetchReturned None)] s = Some s' ∧
    (∀ p, is_Some (base_urls s' !! p) ↔ p ∈ ["beta"]) ∧
    ∀ name o, resolve s' name = Some o → package o ∈ ["beta"].
Proof.
  destruct (update_single [] "alpha" "https://alpha.example/" widget_inventory [] init)
    as [s|] eqn:Hs; [|vm_compute in Hs; discriminate].
  destruct (refresh_inventories [] 1 2
      [("beta", "https://beta.example/", "https://beta.example/objects.inv",
        FetchReturned (Some widget_inventory));
       ("gamma", "", "https://gamma.example/objects.inv", FetchReturned None)] s)
    as [s'|] eqn:Hs'.
  - exists s, s'. split; [done|]. split; [done|].
    destruct (refresh_starts_afresh _ _ _ _ _ _ Hs') as (Hu & _ & Hr & _). by split.
  - exfalso. vm_compute in Hs. injection Hs as <-. vm_compute in Hs'. discriminate.
Defined.

(** ** The views of a guild *)

Lemma elem_of_to_exclude (whitelist : gmap Z (list string)) p :
  p ∈ to_exclude whitelist ↔ ∃ g pkgs, whitelist !! g = Some pkgs ∧ p ∈ pkgs.
Proof.
  unfold to_exclude. rewrite elem_of_union_list. split.
  - intros (X & HX & Hp). apply list_elem_of_fmap in HX as (pkgs & -> & Hpk).
    apply list_elem_of_fmap in Hpk as ([g pkgs'] & -> & Hin).
    apply elem_of_map_to_list in Hin. exists g, pkgs'. split; [done|].
    by apply elem_of_list_to_set in Hp.
  - intros (g & pkgs & Hg & Hp). exists (list_to_set pkgs). split.
    + apply list_elem_of_fmap. exists pkgs. split; [done|].
      apply list_elem_of_fmap. exists (g, pkgs). split; [done|].
      by apply elem_of_map_to_list.
    + by apply elem_of_list_to_set.
Qed.

Lemma doc_symbols_filter (whitelist : gmap Z (list string)) s :
  doc_symbols whitelist s
  = PyDict.values (filter (λ kv, kv.1 ∉ to_exclude whitelist) (doc_symbols_new s)).
Proof.
  unfold doc_symbols. case_bool_decide as Hw; [|done]. subst whitelist.
  f_equal. symmetry. induction (doc_symbols_new s) as [|kv d IH]; [done|].
  rewrite filter_cons, decide_True; [by rewrite IH|].
  intros (g & pkgs & Hg & _)%elem_of_to_exclude. by rewrite lookup_empty in Hg.
Qed.

Lemma chain_get_app maps1 maps2 k :
  chain_get (maps1 ++ maps2) k =
    match chain_get maps1 k with Some r => Some r | None => chain_get maps2 k end.
Proof.
  induction maps1 as [|m maps1 IH]; simpl; [done|]. by destruct (m !! k).
Qed.

(** X15. The default view that [doc_symbols] computes leaves out every
    package that some guild has on its whitelist: a name that it resolves
    is resolved to an entry of the table of a package on no whitelist, and
    every name in the table of such a package is resolved. *)
Theorem default_view_skips_whitelisted (whitelist : gmap Z (list string)) (s : DocCog) :
  wf s →
  (∀ name r, chain_get (doc_symbols whitelist s) name = Some r →
     ∃ o, objects s !! r = Some o ∧ table s (package o) !! name = Some r ∧
          ∀ g pkgs, whitelist !! g = Some pkgs → package o ∉ pkgs) ∧
  (∀ p name, is_Some (table s p !! name) →
     (∀ g pkgs, whitelist !! g = Some pkgs → p ∉ pkgs) →
     is_Some (chain_get (doc_symbols whitelist s) name)).
Proof.
  intros [Hnd Hwf]. rewrite doc_symbols_filter. split.
  - intros name r (p & tbl & [Hex Hin]%list_elem_of_filter & Hr)%chain_get_Some.
    destruct (Hwf _ _ _ _ Hin Hr) as (o & Ho & <-). exists o. split; [done|]. split.
    + unfold table. by rewrite (elem_get _ _ _ Hnd Hin).
    + intros g pkgs Hg Hp. apply Hex, elem_of_to_exclude. by exists g, pkgs.
  - intros p name Hn Hfree. apply chain_get_is_Some. unfold table in Hn.
    destruct (PyDict.get (doc_symbols_new s) p) as [tbl|] eqn:Hp;
      [|simpl in Hn; rewrite lookup_empty in Hn; by destruct Hn].
    exists p, tbl. split; [|done]. apply list_elem_of_filter. split.
    + intros (g & pkgs & Hg & Hin)%elem_of_to_exclude. by apply (Hfree g pkgs).
    + by apply get_Some_elem.
Qed.

(** [alpha] registered [Widget] before [beta], whose entry went under
    [beta.Widget]; guild 7 has [alpha] on its whitelist, so the default
    view has the entry of [beta] only. *)
Lemma default_view_skips_whitelisted_witness :
  ∃ s r o,
    wf s ∧
    chain_get (doc_symbols {[ 7%Z := ["alpha"] ]} s) "beta.Widget" = Some r ∧
    objects s !! r = Some o ∧ package o = "beta".
Proof.
  destruct (update_single [] "alpha" "https://alpha.example/" widget_inventory [] init)
    as [s0|] eqn:Hs0; [|vm_compute in Hs0; discriminate].
  destruct (update_single [] "beta" "https://beta.example/" widget_inventory [] s0)
    as [s|] eqn:Hs;
    [|exfalso; vm_compute in Hs0; injection Hs0 as <-; vm_compute in Hs; discriminate].
  assert (Hwf : wf s).
  { eapply update_single_wf; [exact Hs|]. eapply update_single_wf; [exact Hs0|].
    exact wf_init. }
  destruct (chain_get (doc_symbols {[ 7%Z := ["alpha"] ]} s) "beta.Widget") as [r|] eqn:Hr;
    [|exfalso; vm_compute in Hs0; injection Hs0 as <-; vm_compute in Hs;
      injection Hs as <-; vm_compute in Hr; discriminate].
  destruct (proj1 (default_view_skips_whitelisted {[ 7%Z := ["alpha"] ]} s Hwf) _ _ Hr)
    as (o & Ho & Ht & Hfree).
  exists s, r, o. split; [done|]. split; [done|]. split; [done|].
  vm_compute in Hs0. injection Hs0 as <-. vm_compute in Hs. injection Hs as <-.
  vm_compute in Hr. injection Hr as <-.
  vm_compute in Ho. injection Ho as <-. reflexivity.
Defined.

Lemma mapM_get_tables s pkgs maps :
  mapM (PyDict.get (doc_symbols_new s)) pkgs = Some maps → maps = table s <$> pkgs.
Proof.
  intros H%mapM_Some. induction H as [|p m pkgs maps Hp _ IH]; [done|].
  simpl. unfold table at 1. rewrite Hp. simpl. by f_equal.
Qed.

(** X16. For a guild with a whitelist, [get_packages_for_guild] raises
    [KeyError] unless every package on the whitelist has a table; when it
    returns, a name is looked up in the tables of the guild's packages, in
    the order of the whitelist, before the default view is asked. *)
Theorem guild_view_shadows_default (whitelist : gmap Z (list string)) (g : Z)
    (pkgs : list string) (cached : list (gmap string ref)) (s : DocCog) :
  whitelist !! g = Some pkgs →
  (is_Some (get_packages_for_guild whitelist (Some g) cached s) ↔
     ∀ p, p ∈ pkgs → p ∈ PyDict.keys (doc_symbols_new s)) ∧
  ∀ maps, get_packages_for_guild whitelist (Some g) cached s = Some maps →
    ∀ name, chain_get maps name =
      match chain_get (table s <$> pkgs) name with
      | Some r => Some r
      | None => chain_get cached name
      end.
Proof.
  intros Hg. unfold get_packages_for_guild. simpl. rewrite Hg. split.
  - destruct (mapM (PyDict.get (doc_symbols_new s)) pkgs) as [maps|] eqn:Hm; simpl.
    + split; [|by eexists]. intros _ p Hp.
      assert (is_Some (mapM (PyDict.get (doc_symbols_new s)) pkgs)) as H by by eexists.
      apply mapM_is_Some in H. rewrite Forall_forall in H.
      destruct (H p Hp) as [tbl Htbl]. by apply get_Some_keys with tbl.
    + split; [by intros [? ?]|]. intros H. exfalso.
      assert (is_Some (mapM (PyDict.get (doc_symbols_new s)) pkgs)) as [? ?]; [|congruence].
      apply mapM_is_Some, Forall_forall. intros p Hp. apply get_is_Some_keys. by apply H.
  - intros maps Hm name.
    destruct (mapM (PyDict.get (doc_symbols_new s)) pkgs) as [maps'|] eqn:Hm'; [|done].
    simpl in Hm. injection Hm as <-. apply mapM_get_tables in Hm' as ->.
    apply chain_get_app.
Qed.

(** Guild 7 has [alpha] on its whitelist and [alpha] has a table: the
    lookup returns, and the empty default view is asked last. *)
Lemma guild_view_shadows_default_witness :
  ∃ s,
    update_single [] "alpha" "https://alpha.example/" widget_inventory [] init = Some s ∧
    ({[ 7%Z := ["alpha"] ]} : gmap Z (list string)) !! 7%Z = Some ["alpha"] ∧
    (is_Some (get_packages_for_guild {[ 7%Z := ["alpha"] ]} (Some 7%Z) [] s) ↔
       ∀ p, p ∈ ["alpha"] → p ∈ PyDict.keys (doc_symbols_new s)).
Proof.
  destruct (update_single [] "alpha" "https://alpha.example/" widget_inventory [] init)
    as [s|] eqn:Hs; [|vm_compute in Hs; discriminate].
  assert (Hg : ({[ 7%Z := ["alpha"] ]} : gmap Z (list string)) !! 7%Z = Some ["alpha"])
    by reflexivity.
  exists s. split; [done|]. split; [exact Hg|].
  exact (proj1 (guild_view_shadows_default {[ 7%Z := ["alpha"] ]} 7%Z ["alpha"] [] s Hg)).
Defined.

(** ** The whitelist as it is stored *)

Lemma split_plain c x : PyStr.contains_char c x = false → PyStr.split c x = [x].
Proof.
  induction x as [|a x IH]; simpl; [done|].
  intros [Ha Hx]%orb_false_iff. rewrite Ha. by rewrite (IH Hx).
Qed.

Lemma split_sep c x rest :
  PyStr.contains_char c x = false →
  PyStr.split c (x +:+ String c rest) = x :: PyStr.split c rest.
Proof.
  induction x as [|a x IH]; intros Hx.
  - change (EmptyString +:+ String c rest) with (String c rest). simpl.
    by rewrite Ascii.eqb_refl.
  - simpl in Hx. apply orb_false_iff in Hx as [Ha Hx].
    change (String a x +:+ String c rest) with (String a (x +:+ String c rest)).
    simpl. rewrite Ha. by rewrite (IH Hx).
Qed.

Lemma split_plain_parts c s : Forall (λ x, PyStr.contains_char c x = false) (PyStr.split c s).
Proof.
  induction s as [|a s IH]; simpl; [by repeat constructor|].
  destruct (Ascii.eqb a c) eqn:Ha; [by constructor|].
  destruct (PyStr.split c s) as [|h t]; [by repeat constructor; simpl; rewrite Ha|].
  inversion IH; subst. constructor; [|done]. simpl. by rewrite Ha.
Qed.

Lemma split_join c l :
  l ≠ [] → Forall (λ x, PyStr.contains_char c x = false) l →
  PyStr.split c (join (String c EmptyString) l) = l.
Proof.
  induction l as [|x l IH]; [done|]. intros _ Hall.
  inversion Hall as [|? ? Hx Hl]; subst. destruct l as [|y l].
  - by apply split_plain.
  - change (join (String c EmptyString) (x :: y :: l))
      with (x +:+ String c EmptyString +:+ join (String c EmptyString) (y :: l)).
    change (String c EmptyString +:+ join (String c EmptyString) (y :: l))
      with (String c (join (String c EmptyString) (y :: l))).
    rewrite split_sep by done. f_equal. by apply IH.
Qed.

Lemma insert_asc_perm x l : insert_asc x l ≡ₚ x :: l.
Proof.
  induction l as [|y l IH]; simpl; [done|].
  destruct (String.leb x y); [done|]. rewrite IH. apply Permutation_swap.
Qed.

Lemma sorted_asc_perm l : sorted_asc l ≡ₚ l.
Proof.
  induction l as [|x l IH]; [done|]. unfold sorted_asc in *. simpl.
  by rewrite insert_asc_perm, IH.
Qed.

Lemma insert_asc_sorted x l : Sorted str_le l → Sorted str_le (insert_asc x l).
Proof.
  induction 1 as [|y l Hl IH Hy]; simpl; [by repeat constructor|].
  destruct (String.leb x y) eqn:E.
  - constructor; [by constructor|]. by constructor.
  - constructor; [exact IH|].
    assert (str_le y x) as Hyx.
    { destruct (String.leb_total x y) as [H|H]; [congruence|exact H]. }
    destruct Hy as [|z l Hz]; simpl; [by constructor|].
    destruct (String.leb x z); by constructor.
Qed.

Lemma sorted_asc_sorted l : Sorted str_le (sorted_asc l).
Proof.
  induction l as [|x l IH]; [constructor|]. unfold sorted_asc in *. simpl.
  by apply insert_asc_sorted.
Qed.

(** X17. A package name without a comma that [whitelist_command] adds to
    a guild is read back by [refresh_whitelist_and_blacklist]: the value
    put decodes to the new package and the packages that the old value
    held, without the empty name of an empty value; it lists them in
    order; and adding the package again puts nothing. *)
Theorem whitelist_value_decodes (stored : option string) (package_name : string) :
  package_name ≠ EmptyString →
  PyStr.contains_char "," package_name = false →
  (∀ value, stored = Some value → package_name ∉ whitelist_packages value) →
  ∃ new,
    whitelist_value stored package_name = Some new ∧
    (∀ x, x ∈ whitelist_packages new ↔
          x = package_name ∨
          x ≠ EmptyString ∧ ∃ value, stored = Some value ∧ x ∈ whitelist_packages value) ∧
    Sorted str_le (whitelist_packages new) ∧
    whitelist_value (Some new) package_name = None.
Proof.
  intros Hne Hplain Hnew. unfold whitelist_packages in *.
  set (old := default EmptyString stored).
  set (l := sorted_asc (filter (λ x, x ≠ EmptyString) (PyStr.split "," old ++ [package_name]))).
  assert (whitelist_value stored package_name = Some (join "," l)) as Hval.
  { unfold whitelist_value, l, old. destruct stored as [value|]; [|done]. simpl.
    by rewrite bool_decide_eq_false_2 by by apply Hnew. }
  assert (∀ x, x ∈ l ↔ x ≠ EmptyString ∧ (x ∈ PyStr.split "," old ∨ x = package_name))
    as Hl.
  { intros x. unfold l. rewrite sorted_asc_perm, list_elem_of_filter, elem_of_app.
    by rewrite list_elem_of_singleton. }
  assert (PyStr.split "," (join "," l) = l) as Hsplit.
  { apply split_join.
    - intros Hnil. assert (package_name ∈ l) as Hin by (apply Hl; auto).
      rewrite Hnil in Hin. inversion Hin.
    - apply Forall_forall. intros x [_ [Hx| ->]]%Hl; [|done].
      pose proof (split_plain_parts "," old) as Hall. rewrite Forall_forall in Hall.
      by apply Hall. }
  exists (join "," l). split; [exact Hval|]. rewrite Hsplit. split; [|split].
  - intros x. rewrite Hl. split.
    + intros [Hx [Hin| ->]]; [|by left]. right. split; [done|].
      unfold old in Hin. destruct stored as [value|]; [by exists value|].
      simpl in Hin. apply list_elem_of_singleton in Hin. done.
    + intros [->|[Hx (value & -> & Hin)]]; [auto|]. split; [done|]. by left.
  - apply sorted_asc_sorted.
  - unfold whitelist_value. rewrite Hsplit.
    rewrite bool_decide_eq_true_2; [done|]. apply Hl. auto.
Qed.

(** [disnake] is added to a guild that has [python] and [aiohttp]. *)
Lemma whitelist_value_decodes_witness :
  ∃ new,
    whitelist_value (Some "python,aiohttp") "disnake" = Some new ∧
    whitelist_packages new = ["aiohttp"; "disnake"; "python"].
Proof.
  assert (H1 : "disnake" ≠ EmptyString) by discriminate.
  assert (H2 : PyStr.contains_char "," "disnake" = false) by reflexivity.
  assert (H3 : ∀ value, Some "python,aiohttp" = Some value →
                 "disnake" ∉ whitelist_packages value).
  { intros value [= <-]. vm_compute. intros H.
    repeat (apply elem_of_cons in H as [H|H]; [discriminate|]). inversion H. }
  destruct (whitelist_value_decodes (Some "python,aiohttp") "disnake" H1 H2 H3)
    as (new & Hnew & _).
  exists new. split; [exact Hnew|].
  vm_compute in Hnew. injection Hnew as <-. reflexivity.
Defined.

(** ** The configured packages *)

Lemma find_first_plain c s : PyStr.contains_char c s = false → PyStr.find_first c s = None.
Proof.
  induction s as [|a s IH]; simpl; [done|].
  intros [Ha Hs]%orb_false_iff. by rewrite Ha, (IH Hs).
Qed.

Lemma find_first_sep c x rest :
  PyStr.contains_char c x = false →
  PyStr.find_first c (x +:+ String c rest) = Some (x, rest).
Proof.
  induction x as [|a x IH]; intros Hx.
  - change (EmptyString +:+ String c rest) with (String c rest). simpl.
    by rewrite Ascii.eqb_refl.
  - simpl in Hx. apply orb_false_iff in Hx as [Ha Hx].
    change (String a x +:+ String c rest) with (String a (x +:+ String c rest)).
    simpl. by rewrite Ha, (IH Hx).
Qed.

Lemma step_decode packages item :
  get_packages_step packages item = field_step packages (decode item).
Proof.
  destruct item as [pack value]. unfold get_packages_step, field_step, decode. simpl.
  by destruct (PyStr.find_first "." _) as [[spl0 spl1]|].
Qed.

Lemma foldl_step_decode kv packages :
  foldl get_packages_step packages kv = foldl field_step packages (decode <$> kv).
Proof.
  revert packages. induction kv as [|item kv IH]; intros packages; [done|].
  simpl. by rewrite step_decode, IH.
Qed.

Lemma decode_item p suffix v :
  decode ((CONFIG_DOC_INVENTORIES +:+ "." +:+ p) +:+ suffix, v)
  = match PyStr.find_first "." (p +:+ suffix) with
    | Some (spl0, spl1) => (spl0, spl1, v)
    | None => (p +:+ suffix, "package", p +:+ suffix)
    end.
Proof. reflexivity. Qed.

Lemma append_empty s : s +:+ EmptyString = s.
Proof.
  induction s as [|a s IH]; [done|].
  change (String a (s +:+ EmptyString) = String a s). by rewrite IH.
Qed.

Lemma decode_body p b i :
  PyStr.contains_char "." p = false →
  decode <$> set_command_body p b i = fields (p, b, i).
Proof.
  intros Hp. unfold set_command_body, fields.
  rewrite <- (append_empty (CONFIG_DOC_INVENTORIES +:+ "." +:+ p)) at 1.
  rewrite !fmap_cons, !decode_item, append_empty.
  rewrite (find_first_plain _ _ Hp).
  change (p +:+ ".base_url") with (p +:+ String "." "base_url").
  change (p +:+ ".inventory_url") with (p +:+ String "." "inventory_url").
  by rewrite !(find_first_sep _ _ _ Hp).
Qed.

Lemma decode_bodies entries :
  Forall (λ e, PyStr.contains_char "." e.1.1 = false) entries →
  decode <$> (entries ≫= λ '(p, b, i), set_command_body p b i) = entries ≫= fields.
Proof.
  induction 1 as [|[[p b] i] entries Hp _ IH]; [done|].
  change (decode <$> (set_command_body p b i
                        ++ (entries ≫= λ '(p, b, i), set_command_body p b i))
          = fields (p, b, i) ++ (entries ≫= fields)).
  by rewrite fmap_app, IH, decode_body.
Qed.

Lemma grouped_fields (T : list (string * string * string)) :
  let d := foldl field_step [] T in
  NoDup (PyDict.keys d) ∧
  (∀ p, p ∈ PyDict.keys d ↔ ∃ f v, (p, f, v) ∈ T) ∧
  ((∀ p f v v', (p, f, v) ∈ T → (p, f, v') ∈ T → v = v') →
   ∀ p f v, (p, f, v) ∈ T → ∃ m, PyDict.get d p = Some m ∧ m !! f = Some v).
Proof.
  induction T as [|[[q g] w] T IH] using rev_ind; cbv zeta.
  { simpl. split; [constructor|]. split.
    - intros p. split; [intros H; by apply elem_of_nil in H|].
      intros (f & v & H). by apply elem_of_nil in H.
    - intros _ p f v H. by apply elem_of_nil in H. }
  rewrite foldl_app. cbv zeta in IH. set (d := foldl field_step [] T) in *.
  destruct IH as (Hnd & Hkeys & Hget).
  change (foldl field_step d [(q, g, w)])
    with (PyDict.set d q (<[g := w]> (default ∅ (PyDict.get d q)))).
  set (m0 := default ∅ (PyDict.get d q)). split; [by apply keys_set_NoDup|]. split.
  - intros p. rewrite keys_set. setoid_rewrite elem_of_app.
    setoid_rewrite list_elem_of_singleton. split.
    + intros Hp. destruct (decide (q ∈ PyDict.keys d)).
      * apply Hkeys in Hp as (f & v & H). eauto.
      * apply elem_of_app in Hp as [Hp|Hp%list_elem_of_singleton].
        -- apply Hkeys in Hp as (f & v & H). eauto.
        -- subst p. exists g, w. by right.
    + intros (f & v & [H|H]).
      * assert (p ∈ PyDict.keys d) by (apply Hkeys; eauto).
        destruct (decide _); [done|]. apply elem_of_app. by left.
      * injection H as -> -> ->. destruct (decide _); [done|].
        apply elem_of_app. right. by apply list_elem_of_singleton.
  - intros Hfun p f v [Hin|Heq]%elem_of_app.
    + destruct (Hget (λ p f v v' H1 H2, Hfun p f v v' (proj2 (elem_of_app _ _ _) (or_introl H1))
                                          (proj2 (elem_of_app _ _ _) (or_introl H2)))
                     p f v Hin) as (m & Hm & Hf).
      destruct (decide (q = p)) as [->|Hne].
      * rewrite get_set_eq. eexists. split; [done|]. unfold m0. rewrite Hm. simpl.
        destruct (decide (g = f)) as [->|Hgf].
        -- rewrite lookup_insert_eq. f_equal.
           apply (Hfun p f w v); apply elem_of_app; [right|by left].
           by apply list_elem_of_singleton.
        -- by rewrite lookup_insert_ne.
      * rewrite get_set_ne by done. eauto.
    + apply list_elem_of_singleton in Heq. injection Heq as -> -> ->.
      rewrite get_set_eq. eexists. split; [done|]. by rewrite lookup_insert_eq.
Qed.

Lemma NoDup_fmap_inj_on {A B} (f : A → B) (l : list A) x y :
  NoDup (f <$> l) → x ∈ l → y ∈ l → f x = f y → x = y.
Proof.
  induction l as [|a l IH]; [intros _ H; by apply elem_of_nil in H|].
  rewrite fmap_cons, NoDup_cons. intros [Ha Hnd] Hx Hy Hxy.
  apply elem_of_cons in Hx as [->|Hx], Hy as [->|Hy]; [done| | |by apply IH].
  - exfalso. apply Ha. rewrite Hxy. by apply list_elem_of_fmap_2.
  - exfalso. apply Ha. rewrite <- Hxy. by apply list_elem_of_fmap_2.
Qed.

Lemma mapM_all_Some {A B} (f : A → option B) (h : A → B) (l : list A) :
  (∀ x, x ∈ l → f x = Some (h x)) → mapM f l = Some (h <$> l).
Proof.
  intros H. apply mapM_Some. apply Forall2_fmap_r, Forall_Forall2_diag, Forall_forall.
  exact H.
Qed.

Lemma elem_of_fields t entries :
  t ∈ entries ≫= fields ↔ ∃ e, e ∈ entries ∧ t ∈ fields e.
Proof. rewrite list_elem_of_bind. split; intros (e & H1 & H2); by exists e. Qed.

Lemma field_of_entry (e : string * string * string) p f v :
  (p, f, v) ∈ fields e →
  p = e.1.1 ∧ (f = "package" ∧ v = e.1.1 ∨ f = "base_url" ∧ v = e.1.2 ∨
               f = "inventory_url" ∧ v = e.2).
Proof.
  unfold fields. rewrite !elem_of_cons.
  intros [[= -> -> ->]|[[= -> -> ->]|[[= -> -> ->]|H]]]; [auto..|].
  by apply elem_of_nil in H.
Qed.

(** X18. What [set_command] puts in the database, [refresh_inventories]
    reads back: when the items under the inventories prefix are those of
    the bodies of packages with distinct names that have no dot, in any
    order, [get_packages] rebuilds one dict per package and [coros] holds
    one call per configured package, with the package name, base url and
    inventory url that were put. *)
Theorem configuration_round_trip (entries : list (string * string * string))
    (kv : list (string * string)) :
  NoDup (entries.*1.*1) →
  Forall (λ e, PyStr.contains_char "." e.1.1 = false) entries →
  kv ≡ₚ entries ≫= (λ '(p, b, i), set_command_body p b i) →
  ∃ calls, coros kv = Some calls ∧ calls ≡ₚ entries.
Proof.
  intros Hnd Hplain Hkv. unfold coros, get_packages. rewrite foldl_step_decode.
  set (T := decode <$> kv).
  assert (T ≡ₚ entries ≫= fields) as HT.
  { unfold T. by rewrite Hkv, decode_bodies. }
  assert (∀ t, t ∈ T ↔ ∃ e, e ∈ entries ∧ t ∈ fields e) as Hin.
  { intros t. by rewrite HT, elem_of_fields. }
  assert (∀ e e', e ∈ entries → e' ∈ entries → e.1.1 = e'.1.1 → e = e') as Hinj.
  { intros e e' He He' Heq.
    apply (NoDup_fmap_inj_on (λ e : string * string * string, e.1.1) entries); [|done..].
    rewrite <- list_fmap_compose in Hnd. exact Hnd. }
  destruct (grouped_fields T) as (Hkeys_nd & Hkeys & Hget).
  set (d := foldl field_step [] T) in *.
  assert (∀ p f v v', (p, f, v) ∈ T → (p, f, v') ∈ T → v = v') as Hfun.
  { intros p f v v' (e & He & Hf)%Hin (e' & He' & Hf')%Hin.
    apply field_of_entry in Hf as [-> Hf], Hf' as [Hp Hf'].
    assert (e = e') as <- by by apply Hinj.
    destruct Hf as [[-> ->]|[[-> ->]|[-> ->]]], Hf' as [[? ->]|[[? ->]|[? ->]]];
      done. }
  specialize (Hget Hfun).
  assert (∀ p m, (p, m) ∈ d →
            ∃ e, e ∈ entries ∧ e.1.1 = p ∧
                 m !! "package" = Some e.1.1 ∧ m !! "base_url" = Some e.1.2 ∧
                 m !! "inventory_url" = Some e.2) as Hd.
  { intros p m Hpm. pose proof (elem_get _ _ _ Hkeys_nd Hpm) as Hm.
    assert (p ∈ PyDict.keys d) as (f & v & Ht)%Hkeys by by eapply elem_keys.
    apply Hin in Ht as (e & He & [-> _]%field_of_entry).
    exists e. split; [done|]. split; [done|].
    assert (∀ f' v', (e.1.1, f', v') ∈ fields e → m !! f' = Some v') as Hf.
    { intros f' v' Hfv. destruct (Hget e.1.1 f' v') as (m' & Hm' & Hv); [apply Hin; eauto|].
      congruence. }
    unfold fields in Hf. repeat split; apply Hf; rewrite !elem_of_cons; auto. }
  exists (call_of <$> PyDict.values d). split.
  - apply mapM_all_Some. intros m ([p m'] & -> & Hpm)%list_elem_of_fmap.
    destruct (Hd _ _ Hpm) as (e & _ & _ & H1 & H2 & H3). simpl.
    unfold call_of. by rewrite H1, H2, H3.
  - assert (∀ p m, (p, m) ∈ d → call_of m ∈ entries ∧ (call_of m).1.1 = p) as Hcall.
    { intros p m Hpm. destruct (Hd _ _ Hpm) as (e & He & Hp & H1 & H2 & H3).
      assert (call_of m = e) as ->; [|done].
      unfold call_of. rewrite H1, H2, H3. by destruct e as [[? ?] ?]. }
    apply NoDup_Permutation.
    + apply (NoDup_fmap_1 (λ c : string * string * string, c.1.1)).
      unfold PyDict.values. rewrite <- !list_fmap_compose.
      assert ((λ c : string * string * string, c.1.1) ∘ call_of ∘ snd <$> d
              = PyDict.keys d) as ->; [|done].
      apply Forall_fmap_ext, Forall_forall. intros [p m] Hpm. simpl.
      by apply (Hcall p m).
    + apply (NoDup_fmap_1 (λ e : string * string * string, e.1.1)).
      rewrite <- list_fmap_compose in Hnd. exact Hnd.
    + intros c. split.
      * intros (m & -> & ([p m'] & -> & Hpm)%list_elem_of_fmap)%list_elem_of_fmap.
        by apply (Hcall p m').
      * intros Hc.
        assert (c.1.1 ∈ PyDict.keys d) as ([p m] & Hp & Hpm)%list_elem_of_fmap.
        { apply Hkeys. exists "package", c.1.1. apply Hin. exists c. split; [done|].
          unfold fields. apply elem_of_cons. by left. }
        simpl in Hp. destruct (Hcall _ _ Hpm) as [Hce Hcp].
        assert (call_of m = c) as <-.
        { apply Hinj; [done..|]. by rewrite Hcp, Hp. }
        apply list_elem_of_fmap. exists m. split; [done|].
        apply list_elem_of_fmap. by exists (p, m).
Qed.

(** Two packages are configured; the database lists the keys of the
    second between those of the first. *)
Lemma configuration_round_trip_witness :
  ∃ calls,
    coros (take 1 (set_command_body "alpha" "" "https://alpha.example/objects.inv")
           ++ set_command_body "beta" "https://beta.example/" "https://b.example/objects.inv"
           ++ drop 1 (set_command_body "alpha" "" "https://alpha.example/objects.inv"))
      = Some calls ∧
    calls ≡ₚ [("alpha", "", "https://alpha.example/objects.inv");
              ("beta", "https://beta.example/", "https://b.example/objects.inv")].
Proof.
  apply (configuration_round_trip
           [("alpha", "", "https://alpha.example/objects.inv");
            ("beta", "https://beta.example/", "https://b.example/objects.inv")]).
  - simpl. apply NoDup_cons. split; [|apply NoDup_singleton].
    intros H%list_elem_of_singleton. discriminate.
  - repeat constructor.
  - vm_compute. apply perm_skip. apply (Permutation_app_comm [_; _; _] [_; _]).
Defined.
